(** * Sales analytics dashboard: aggregation and normalization engine

    A shallow embedding of the analytics core of the dashboard (time
    bucketing, numeric normalization, partner-name canonicalization,
    ranking, shares, deltas and query-parameter parsing), followed by the
    properties of the specification proved or refuted on it.

    Conventions of the embedding:
    - a JavaScript [number] is an IEEE-754 binary64 value, Rocq's primitive
      [float]; integers that the code only ever uses as integers (years,
      month numbers, day counts, milliseconds since the epoch) are [Z];
    - a function that can [throw] returns a [result]; [null]/[undefined]
      are [None];
    - [Array.prototype.sort] is a stable sort driven by the comparator. *)

From Stdlib Require Import ZArith Lia List Bool String Ascii Floats.
From Stdlib Require Import Permutation Sorted.
Import ListNotations.

Set Implicit Arguments.

Local Open Scope Z_scope.

(** ** JavaScript numbers *)

Module JsNumber.

Definition number := float.

(** Exact conversion of an integer (round to nearest even past 2^53). *)
Definition ofZ (n : Z) : number :=
  SF2Prim (binary_normalize prec emax n 0 false).

(** [Number.isFinite] (and the global [isFinite] on a number). *)
Definition isFinite (x : number) : bool := PrimFloat.is_finite x.

Definition isNaN (x : number) : bool := PrimFloat.is_nan x.

(** [a > b], [a >= b], [a < b], [a === b] on numbers. *)
Definition gt (a b : number) : bool := PrimFloat.ltb b a.
Definition ge (a b : number) : bool := PrimFloat.leb b a.
Definition lt (a b : number) : bool := PrimFloat.ltb a b.
Definition le (a b : number) : bool := PrimFloat.leb a b.
Definition strictEq (a b : number) : bool := PrimFloat.eqb a b.

(** The integer part of a finite number, truncated toward zero. *)
Definition truncZ (x : number) : Z :=
  match Prim2SF x with
  | S754_finite s m e =>
      let a := if 0 <=? e then Zpos m * 2 ^ e else Zpos m / 2 ^ (- e) in
      if s then - a else a
  | _ => 0
  end.

(** [Number.isInteger]. *)
Definition isInteger (x : number) : bool :=
  match Prim2SF x with
  | S754_zero _ => true
  | S754_finite _ m e => (0 <=? e) || (Zpos m mod 2 ^ (- e) =? 0)
  | _ => false
  end.

(** [Math.trunc]. *)
Definition trunc (x : number) : number :=
  match Prim2SF x with
  | S754_finite s _ _ =>
      let n := truncZ x in
      if n =? 0 then (if s then neg_zero else zero) else ofZ n
  | _ => x
  end.

(** [Math.abs]. *)
Definition abs (x : number) : number := PrimFloat.abs x.

(** [Math.round]: the nearest integer, a tie going toward +infinity; the
    result keeps the sign of a negative argument that rounds to zero. *)
Definition round (x : number) : number :=
  match Prim2SF x with
  | S754_finite s m e =>
      if 0 <=? e then x
      else
        let d := 2 ^ (- e) in
        let sm := if s then - Zpos m else Zpos m in
        let n := (2 * sm + d) / (2 * d) in
        if n =? 0 then (if s then neg_zero else zero) else ofZ n
  | _ => x
  end.

(** The sign bit of a number. *)
Definition isNegative (x : number) : bool :=
  match Prim2SF x with
  | S754_zero s | S754_infinity s | S754_finite s _ _ => s
  | S754_nan => false
  end.

(** [Math.min] and [Math.max] on two numbers: NaN when one of them is,
    and of the two zeros the negative one is the smaller. *)
Definition min (a b : number) : number :=
  if isNaN a || isNaN b then nan
  else if PrimFloat.ltb b a then b
  else if PrimFloat.ltb a b then a
  else if isNegative a then a else b.

Definition max (a b : number) : number :=
  if isNaN a || isNaN b then nan
  else if PrimFloat.ltb a b then b
  else if PrimFloat.ltb b a then a
  else if isNegative a then b else a.

End JsNumber.

Import JsNumber.

(** ** JavaScript strings

    A string is its sequence of UTF-16 code units.  [js] turns an ASCII
    literal into one. *)

Module JsString.

Definition codeUnit := N.
Definition jsstring := list codeUnit.

Definition js (s : string) : jsstring :=
  List.map N_of_ascii (list_ascii_of_string s).

Fixpoint eqb (a b : jsstring) : bool :=
  match a, b with
  | [], [] => true
  | x :: a', y :: b' => N.eqb x y && eqb a' b'
  | _, _ => false
  end.

(** [s.length] *)
Definition length (s : jsstring) : Z := Z.of_nat (List.length s).

(** [!s]: only the empty string is falsy. *)
Definition falsy (s : jsstring) : bool :=
  match s with [] => true | _ => false end.

(** White space and line terminators, the characters [trim] strips and
    the numeric-literal grammar skips. *)
Definition isWhiteSpace (c : codeUnit) : bool :=
  ((9 <=? c) && (c <=? 13) || (c =? 32) || (c =? 160) || (c =? 5760)
   || (8192 <=? c) && (c <=? 8202) || (c =? 8232) || (c =? 8233)
   || (c =? 8239) || (c =? 8287) || (c =? 12288) || (c =? 65279))%N.

Fixpoint trimStart (s : jsstring) : jsstring :=
  match s with
  | c :: r => if isWhiteSpace c then trimStart r else s
  | [] => []
  end.

Definition trimEnd (s : jsstring) : jsstring := rev (trimStart (rev s)).

(** [s.trim()] *)
Definition trim (s : jsstring) : jsstring := trimEnd (trimStart s).

Definition isDigit (c : codeUnit) : bool := ((48 <=? c) && (c <=? 57))%N.

Definition digitValue (c : codeUnit) : Z := Z.of_N c - 48.

(** Decimal digits of a non-negative integer, most significant first. *)
Fixpoint digitsFuel (fuel : nat) (n : Z) (acc : jsstring) : jsstring :=
  match fuel with
  | O => acc
  | S f =>
      let acc' := Z.to_N (48 + n mod 10) :: acc in
      if n <? 10 then acc' else digitsFuel f (n / 10) acc'
  end.

Definition digitsOfNat (n : Z) : jsstring :=
  digitsFuel (S (Z.to_nat (Z.log2 n))) n [].

(** [String(n)] for an integer [n] that a number holds with all its
    digits, as the fields of a date and the years of the tables are. *)
Definition ofInteger (n : Z) : jsstring :=
  if n <? 0 then 45%N :: digitsOfNat (- n) else digitsOfNat n.

(** Whether the decimal value [c] reads back as the number of value [n],
    an integer above 2^53: [c] lies within half a gap of [n], the ends
    counted when the significand of [n] is even.  The comparison is made
    on four times the values, the gap below a power of two being half
    the gap above it. *)
Definition readsBack (n c : Z) : bool :=
  let e := Z.log2 n - 52 in
  let significand := n / 2 ^ e in
  let above := 2 ^ (e + 1) in
  let below := if significand =? 2 ^ 52 then 2 ^ e else 2 ^ (e + 1) in
  if Z.even significand
  then (4 * n - below <=? 4 * c) && (4 * c <=? 4 * n + above)
  else (4 * n - below <? 4 * c) && (4 * c <? 4 * n + above).

(** The fewest significant digits [s], with the power of ten [q] they
    are scaled by, such that [s * 10^q] reads back as [n]; of two values
    of that length the closer one, and the even one when they are as
    close. *)
Fixpoint shortestFuel (fuel : nat) (n q : Z) : Z * Z :=
  match fuel with
  | O => (n, 0)
  | S f =>
      let lower := n / 10 ^ q in
      let upper := lower + 1 in
      let okLower := readsBack n (lower * 10 ^ q) in
      let okUpper := readsBack n (upper * 10 ^ q) in
      if okLower && okUpper then
        let dLower := n - lower * 10 ^ q in
        let dUpper := upper * 10 ^ q - n in
        if dLower <? dUpper then (lower, q)
        else if dUpper <? dLower then (upper, q)
        else if Z.even lower then (lower, q) else (upper, q)
      else if okLower then (lower, q)
      else if okUpper then (upper, q)
      else shortestFuel f n (q - 1)
  end.

Fixpoint dropZeros (reversed : jsstring) : jsstring :=
  match reversed with
  | 48%N :: r => dropZeros r
  | _ => reversed
  end.

(** [String(x)] for a number [x] whose value is the integer [n], as
    [Math.trunc] returns it: the digits of [n] up to 2^53; above, the
    shortest digits that read back as [x], followed by zeros below 10^21
    and in exponent notation from there on. *)
Definition ofIntegral (n : Z) : jsstring :=
  let a := Z.abs n in
  let sign := if n <? 0 then [45%N] else [] in
  if a <=? 2 ^ 53 then ofInteger n
  else
    let places := Z.of_nat (List.length (digitsOfNat a)) in
    let '(s, q) := shortestFuel (Z.to_nat places) a (places - 1) in
    let all := digitsOfNat s in
    let point := Z.of_nat (List.length all) + q in
    let digits := rev (dropZeros (rev all)) in
    if point <=? 21
    then sign ++ all ++ repeat 48%N (Z.to_nat q)
    else
      match digits with
      | [] => sign
      | [d] => sign ++ [d] ++ js "e+" ++ ofInteger (point - 1)
      | d :: r => sign ++ [d] ++ js "." ++ r ++ js "e+" ++ ofInteger (point - 1)
      end.

(** [s.padStart(2, "0")] *)
Definition padStart2 (s : jsstring) : jsstring :=
  match s with
  | [] => [48; 48]%N
  | [c] => [48%N; c]
  | _ => s
  end.

(** *** [Number(s)]: the numeric value of a string

    The StringNumericLiteral grammar: optional white space around a
    signed decimal literal (with optional fraction and exponent),
    [Infinity], or an unsigned hexadecimal, octal or binary integer; the
    empty string is [0] and anything else is [NaN].  The value is the
    literal's mathematical value rounded to the nearest binary64. *)

Fixpoint takeDigits (s : jsstring) (acc : Z) (cnt : nat) : Z * nat * jsstring :=
  match s with
  | c :: r =>
      if isDigit c then takeDigits r (10 * acc + digitValue c) (S cnt)
      else (acc, cnt, s)
  | [] => (acc, cnt, [])
  end.

(** The binary64 nearest to [(-1)^neg * m * 10^e]. *)
Definition decimalToNumber (neg : bool) (m e : Z) : number :=
  match m with
  | Zpos p =>
      let k := Z.log2 m / 3 + 1 in
      if 310 <? e then (if neg then neg_infinity else infinity)
      else if e + k <? -330 then (if neg then neg_zero else zero)
      else if 0 <=? e then
        SF2Prim (binary_normalize prec emax (if neg then - (m * 10 ^ e) else m * 10 ^ e) 0 false)
      else
        match 10 ^ (- e) with
        | Zpos q => SF2Prim (SFdiv prec emax (S754_finite neg p 0) (S754_finite false q 0))
        | _ => nan
        end
  | _ => if neg then neg_zero else zero
  end.

Definition exponentPart (s : jsstring) : option Z :=
  match s with
  | [] => Some 0
  | c :: r =>
      if ((c =? 101) || (c =? 69))%N then
        let '(neg, r') :=
          match r with
          | 45%N :: t => (true, t)
          | 43%N :: t => (false, t)
          | _ => (false, r)
          end in
        match takeDigits r' 0 O with
        | (v, S _, []) => Some (if neg then - v else v)
        | _ => None
        end
      else None
  end.

Definition unsignedDecimal (neg : bool) (s : jsstring) : number :=
  if eqb s (js "Infinity") then (if neg then neg_infinity else infinity)
  else
    let '(ip, ni, r1) := takeDigits s 0 O in
    match r1 with
    | 46%N :: r2 =>
        let '(m, nf, r3) := takeDigits r2 ip O in
        match (ni + nf)%nat, exponentPart r3 with
        | S _, Some e => decimalToNumber neg m (e - Z.of_nat nf)
        | _, _ => nan
        end
    | _ =>
        match ni, exponentPart r1 with
        | S _, Some e => decimalToNumber neg ip e
        | _, _ => nan
        end
    end.

Definition radixDigit (radix : Z) (c : codeUnit) : option Z :=
  let v :=
    if isDigit c then digitValue c
    else if ((97 <=? c) && (c <=? 102))%N then Z.of_N c - 87
    else if ((65 <=? c) && (c <=? 70))%N then Z.of_N c - 55
    else radix in
  if v <? radix then Some v else None.

Fixpoint radixDigits (radix : Z) (s : jsstring) (acc : Z) : option Z :=
  match s with
  | [] => Some acc
  | c :: r =>
      match radixDigit radix c with
      | Some v => radixDigits radix r (radix * acc + v)
      | None => None
      end
  end.

Definition radixLiteral (radix : Z) (s : jsstring) : number :=
  match s, radixDigits radix s 0 with
  | _ :: _, Some v => ofZ v
  | _, _ => nan
  end.

(** [Number(s)] *)
Definition toNumber (s : jsstring) : number :=
  match trim s with
  | [] => zero
  | 48%N :: c :: r =>
      if ((c =? 120) || (c =? 88))%N then radixLiteral 16 r
      else if ((c =? 111) || (c =? 79))%N then radixLiteral 8 r
      else if ((c =? 98) || (c =? 66))%N then radixLiteral 2 r
      else unsignedDecimal false (48%N :: c :: r)
  | 45%N :: r => unsignedDecimal true r
  | 43%N :: r => unsignedDecimal false r
  | t => unsignedDecimal false t
  end.

End JsString.

Import JsString.

(** ** Results of functions that can throw

    [Err name message] is a thrown error of class [name]. *)

Inductive ErrorClass := BadRequestError | RangeError | InvalidPartnerKindError | PlainError.

Inductive result (A : Type) : Type :=
| Ok (v : A)
| Err (class : ErrorClass) (message : jsstring).

Arguments Ok {A} v.
Arguments Err {A} class message.

Definition isErr {A} (r : result A) : bool :=
  match r with Ok _ => false | Err _ _ => true end.

Definition bind {A B} (r : result A) (k : A -> result B) : result B :=
  match r with
  | Ok v => k v
  | Err c m => Err c m
  end.

(** ** Shared numeric helpers (lib/api/numbers) *)

Module Numbers.

(** A value of TypeScript type [unknown] as the store driver hands it
    over.  A Decimal-like object is its [toNumber()] outcome, [None]
    when the call throws. *)
Inductive unknown : Type :=
| UNull
| UUndefined
| UNumber (x : number)
| UBigint (n : Z)
| UString (s : jsstring)
| UDecimal (toNumberResult : option number)
| UOther.

Definition toFiniteNumber (value : unknown) (fallback : number) : number :=
  match value with
  | UNull | UUndefined => fallback
  | UNumber x => if isFinite x then x else fallback
  | UBigint n => let numeric := ofZ n in if isFinite numeric then numeric else fallback
  | UString s =>
      match s with
      | [] => fallback
      | _ =>
          let trimmed := trim s in
          if JsString.length trimmed =? 0 then fallback
          else
            let numeric := toNumber trimmed in
            if isFinite numeric then numeric else fallback
      end
  | UDecimal (Some numeric) => if isFinite numeric then numeric else fallback
  | UDecimal None => fallback
  | UOther => fallback
  end.

(** [toFiniteNumber(value)] with the default fallback [0]. *)
Definition toFiniteNumber0 (value : unknown) : number := toFiniteNumber value zero.

Definition toNullableNumber (value : unknown) : option number :=
  let numeric := toFiniteNumber value nan in
  if isFinite numeric then Some numeric else None.

(** [String(x)] for a number that is not finite. *)
Definition nonFiniteText (x : number) : jsstring :=
  if isNaN x then js "NaN" else if lt x zero then js "-Infinity" else js "Infinity".

Definition clampInteger (value min max : number) : number :=
  let integer := if isInteger value then value else round value in
  if lt integer min then min
  else if gt integer max then max
  else integer.

Definition parseBoundedInteger (raw : option jsstring) (fallback min max : number) : number :=
  match raw with
  | None => clampInteger fallback min max
  | Some s =>
      if JsString.length (trim s) =? 0 then clampInteger fallback min max
      else
        let parsed := toNumber s in
        if negb (isInteger parsed) then clampInteger fallback min max
        else clampInteger parsed min max
  end.

End Numbers.

(** ** Dashboard summary (lib/metrics/dashboard-summary) *)

Module DashboardSummary.

Inductive TrendDirection := up | down.
Inductive DeltaMode := percent | absolute.

Record DeltaSummary := mkDelta {
  value : number;
  mode : DeltaMode;
  direction : TrendDirection
}.

(** [round(value, precision)]: [Math.round(value * 10 ** precision) / 10 ** precision]
    for a non-negative integer precision. *)
Definition round (value : number) (precision : N) : number :=
  let factor := ofZ (10 ^ Z.of_N precision) in
  PrimFloat.div (JsNumber.round (PrimFloat.mul value factor)) factor.

(** The unrounded percent change. *)
Definition percentChange (currentValue previousValue : number) : number :=
  PrimFloat.mul
    (PrimFloat.div (PrimFloat.sub currentValue previousValue) (JsNumber.abs previousValue))
    (ofZ 100).

Definition computePercentDelta (currentValue previousValue : option number)
  : option DeltaSummary :=
  match currentValue, previousValue with
  | Some c, Some p =>
      if negb (isFinite p) || strictEq p zero then None
      else
        let delta := percentChange c p in
        if negb (isFinite delta) then None
        else Some (mkDelta (round delta 4) percent (if ge delta zero then up else down))
  | _, _ => None
  end.

Definition computeAbsoluteDelta (currentValue previousValue : option number)
  : option DeltaSummary :=
  match currentValue, previousValue with
  | Some c, Some p =>
      if negb (isFinite c) || negb (isFinite p) then None
      else
        let delta := PrimFloat.sub c p in
        Some (mkDelta (round delta 4) absolute (if ge delta zero then up else down))
  | _, _ => None
  end.

Definition safeNumber (input : Numbers.unknown) : number :=
  match input with
  | Numbers.UNumber x => if isFinite x then x else zero
  | Numbers.UString s => let parsed := toNumber s in if isFinite parsed then parsed else zero
  | Numbers.UDecimal (Some numeric) => if isFinite numeric then numeric else zero
  | Numbers.UDecimal None => zero
  | _ => zero
  end.

End DashboardSummary.

(** ** Case mapping, Unicode normalization and collation (host facilities)

    [String.prototype.toLowerCase], [normalize] and [localeCompare] are
    provided by the JavaScript host, from the Unicode character data and
    the collation rules of its locale.  The embedding takes them as an
    interface, [Host.Intl]: the functions of the program that call them
    are defined for any host, a property that needs more of the host than
    its signature names the laws it uses, and closed examples are
    evaluated on [latin1], a small host that covers Basic Latin and the
    Latin-1 Supplement. *)

Module Host.

(** The [sensitivity] option of [localeCompare]. *)
Inductive Sensitivity := base | accent.

Class Intl := mkIntl {
  (** [s.toLowerCase()] *)
  toLowerCase : jsstring -> jsstring;
  (** [s.normalize("NFKD")] *)
  normalizeNFKD : jsstring -> jsstring;
  (** [a.localeCompare(b, undefined, { sensitivity, numeric })]: negative,
      zero or positive. *)
  localeCompare : Sensitivity -> bool -> jsstring -> jsstring -> Z
}.

End Host.

Import Host.

(** *** A host for Basic Latin and the Latin-1 Supplement

    Code units outside that range are left as they are by the case
    mapping, have no decomposition, and collate after the letters by code
    unit. *)

Module Unicode.

Definition lowerUnit (c : codeUnit) : codeUnit :=
  (if (65 <=? c) && (c <=? 90) then c + 32
   else if (192 <=? c) && (c <=? 222) && negb (c =? 215) then c + 32
   else c)%N.

Definition toLowerCase (s : jsstring) : jsstring := List.map lowerUnit s.

(** Decompositions of the Latin-1 Supplement: [(code, canonical?, mapping)]. *)
Definition decompositions : list (N * bool * list N) :=
  [ (160, false, [32]); (168, false, [32; 776]); (170, false, [97]);
    (175, false, [32; 772]); (178, false, [50]); (179, false, [51]);
    (180, false, [32; 769]); (181, false, [956]); (184, false, [32; 807]);
    (185, false, [49]); (186, false, [111]);
    (188, false, [49; 8260; 52]); (189, false, [49; 8260; 50]);
    (190, false, [51; 8260; 52]);
    (192, true, [65; 768]); (193, true, [65; 769]); (194, true, [65; 770]);
    (195, true, [65; 771]); (196, true, [65; 776]); (197, true, [65; 778]);
    (199, true, [67; 807]);
    (200, true, [69; 768]); (201, true, [69; 769]); (202, true, [69; 770]);
    (203, true, [69; 776]);
    (204, true, [73; 768]); (205, true, [73; 769]); (206, true, [73; 770]);
    (207, true, [73; 776]);
    (209, true, [78; 771]);
    (210, true, [79; 768]); (211, true, [79; 769]); (212, true, [79; 770]);
    (213, true, [79; 771]); (214, true, [79; 776]);
    (217, true, [85; 768]); (218, true, [85; 769]); (219, true, [85; 770]);
    (220, true, [85; 776]); (221, true, [89; 769]);
    (224, true, [97; 768]); (225, true, [97; 769]); (226, true, [97; 770]);
    (227, true, [97; 771]); (228, true, [97; 776]); (229, true, [97; 778]);
    (231, true, [99; 807]);
    (232, true, [101; 768]); (233, true, [101; 769]); (234, true, [101; 770]);
    (235, true, [101; 776]);
    (236, true, [105; 768]); (237, true, [105; 769]); (238, true, [105; 770]);
    (239, true, [105; 776]);
    (241, true, [110; 771]);
    (242, true, [111; 768]); (243, true, [111; 769]); (244, true, [111; 770]);
    (245, true, [111; 771]); (246, true, [111; 776]);
    (249, true, [117; 768]); (250, true, [117; 769]); (251, true, [117; 770]);
    (252, true, [117; 776]); (253, true, [121; 769]); (255, true, [121; 776]) ]%N.

Fixpoint lookup (table : list (N * bool * list N)) (compat : bool) (c : codeUnit)
  : list codeUnit :=
  match table with
  | [] => [c]
  | (k, canonical, mapping) :: rest =>
      if (k =? c)%N then (if canonical || compat then mapping else [c])
      else lookup rest compat c
  end.

(** Canonical and compatibility decomposition. *)
Definition normalizeNFD (s : jsstring) : jsstring :=
  flat_map (lookup decompositions false) s.
Definition normalizeNFKD (s : jsstring) : jsstring :=
  flat_map (lookup decompositions true) s.

(** The combining diacritical marks, U+0300 to U+036F. *)
Definition isCombiningMark (c : codeUnit) : bool := ((768 <=? c) && (c <=? 879))%N.

End Unicode.

Module Collation.

Import Unicode.

Definition isLatinLetter (c : codeUnit) : bool :=
  ((65 <=? c) && (c <=? 90) || (97 <=? c) && (c <=? 122))%N.

(** Lexicographic comparison of weight sequences. *)
Fixpoint lexCompare (a b : list Z) : comparison :=
  match a, b with
  | [], [] => Eq
  | [], _ :: _ => Lt
  | _ :: _, [] => Gt
  | x :: a', y :: b' =>
      match x ?= y with
      | Eq => lexCompare a' b'
      | c => c
      end
  end.

(** Primary weights: a class (0 space and punctuation, 1 digits,
    2 letters, 3 anything else) followed by a weight inside the class.
    Letters weigh the same in both cases, combining marks weigh nothing,
    and with [numeric] a run of digits weighs its numeric value. *)
Fixpoint primaryKey (numeric : bool) (s : jsstring) (run : option Z) : list Z :=
  let flush := match run with Some v => [1; v] | None => [] end in
  match s with
  | [] => flush
  | c :: r =>
      if isDigit c then
        if numeric then
          primaryKey numeric r (Some (10 * match run with Some v => v | None => 0 end + digitValue c))
        else 1 :: digitValue c :: primaryKey numeric r None
      else if isCombiningMark c then flush ++ primaryKey numeric r None
      else if isLatinLetter c then
        flush ++ 2 :: Z.of_N (lowerUnit c) :: primaryKey numeric r None
      else if (c <? 128)%N then flush ++ 0 :: Z.of_N c :: primaryKey numeric r None
      else flush ++ 3 :: Z.of_N (lowerUnit c) :: primaryKey numeric r None
  end.

(** Secondary weights: the diacritics, in order. *)
Definition secondaryKey (s : jsstring) : list Z :=
  List.map (fun c => if isCombiningMark c then Z.of_N c else 0) s.

Definition collate (sensitivity : Sensitivity) (numeric : bool) (a b : jsstring)
  : comparison :=
  let a' := normalizeNFD a in
  let b' := normalizeNFD b in
  match lexCompare (primaryKey numeric a' None) (primaryKey numeric b' None) with
  | Eq =>
      match sensitivity with
      | base => Eq
      | accent => lexCompare (secondaryKey a') (secondaryKey b')
      end
  | c => c
  end.

Definition localeCompare (sensitivity : Sensitivity) (numeric : bool) (a b : jsstring) : Z :=
  match collate sensitivity numeric a b with
  | Lt => -1
  | Eq => 0
  | Gt => 1
  end.

End Collation.

Definition latin1 : Host.Intl :=
  Host.mkIntl Unicode.toLowerCase Unicode.normalizeNFKD Collation.localeCompare.

(** ** Arrays and sets (host facilities) *)

Module JsArray.

Section Generic.
Variable A : Type.

(** [xs.sort(compare)]: stable; [compare a b <= 0] keeps [a] before [b]. *)
Fixpoint insertBy (compare : A -> A -> Z) (x : A) (l : list A) : list A :=
  match l with
  | [] => [x]
  | y :: r => if compare x y <=? 0 then x :: l else y :: insertBy compare x r
  end.

Fixpoint sortBy (compare : A -> A -> Z) (l : list A) : list A :=
  match l with
  | [] => []
  | x :: r => insertBy compare x (sortBy compare r)
  end.

(** [Array.from(new Set(xs))]: first occurrences, in order. *)
Fixpoint dedupAcc (eqb : A -> A -> bool) (seen : list A) (l : list A) : list A :=
  match l with
  | [] => []
  | x :: r =>
      if existsb (eqb x) seen then dedupAcc eqb seen r
      else x :: dedupAcc eqb (x :: seen) r
  end.

Definition dedup (eqb : A -> A -> bool) (l : list A) : list A := dedupAcc eqb [] l.

End Generic.

End JsArray.

(** ** Dates (host facility)

    A [Date] is its time value, the milliseconds since 1970-01-01T00:00Z;
    day numbers count days since the epoch in the proleptic Gregorian
    calendar.  Local time follows the time zone of the host, a [Zone]:
    the offset of local time from UTC (in milliseconds) may change from
    one instant to the next, as it does under daylight saving.  A zone
    that keeps one offset is [fixed tz], and an integer [tz] stands for
    it.  The bound on representable time values is left out. *)

Module JsDate.

Definition msPerDay : Z := 86400000.

Definition Day (t : Z) : Z := t / msPerDay.
Definition TimeWithinDay (t : Z) : Z := t mod msPerDay.

(** [MakeDay(year, month, date)]: the day number of the given date;
    [month] (0-based) and [date] may lie outside their usual ranges. *)
Definition MakeDay (year month date : Z) : Z :=
  let ym := year + month / 12 in
  let mn := month mod 12 in
  let y := if mn <? 2 then ym - 1 else ym in
  let mp := (mn + 10) mod 12 in
  365 * y + y / 4 - y / 100 + y / 400 + (153 * mp + 2) / 5 + date - 1 - 719468.

(** The civil date [(year, month, date)] of a day number, month 0-based. *)
Definition civilFromDays (z : Z) : Z * Z * Z :=
  let z' := z + 719468 in
  let era := z' / 146097 in
  let doe := z' mod 146097 in
  let yoe := (doe - doe / 1460 + doe / 36524 - doe / 146096) / 365 in
  let doy := doe - (365 * yoe + yoe / 4 - yoe / 100) in
  let mp := (5 * doy + 2) / 153 in
  let d := doy - (153 * mp + 2) / 5 + 1 in
  let y := yoe + era * 400 in
  (if 10 <=? mp then y + 1 else y, (mp + 2) mod 12, d).

Definition YearFromDay (z : Z) : Z := fst (fst (civilFromDays z)).
Definition MonthFromDay (z : Z) : Z := snd (fst (civilFromDays z)).
Definition DateFromDay (z : Z) : Z := snd (civilFromDays z).
Definition WeekDay (z : Z) : Z := (z + 4) mod 7.

Definition isLeapYear (y : Z) : bool :=
  (y mod 4 =? 0) && (negb (y mod 100 =? 0) || (y mod 400 =? 0)).

Definition daysInMonth (y m : Z) : Z :=
  if m =? 1 then (if isLeapYear y then 29 else 28)
  else if (m =? 3) || (m =? 5) || (m =? 8) || (m =? 10) then 30
  else 31.

Definition MakeTime (h mi s ms : Z) : Z := h * 3600000 + mi * 60000 + s * 1000 + ms.
Definition MakeDate (day time : Z) : Z := day * msPerDay + time.

(** [MakeFullYear]: the date constructor and [Date.UTC] read a year
    from 0 to 99 as a year of the twentieth century. *)
Definition MakeFullYear (year : Z) : Z :=
  if (0 <=? year) && (year <=? 99) then 1900 + year else year.

(** [Date.UTC(year, month, date)] for a year outside 0..99: the callers
    pass a year from 1900 to 2201, or the year of the present day. *)
Definition DateUTC (year month date : Z) : Z := MakeDate (MakeDay year month date) 0.

(** A time zone: [offsetAt t] is the offset of local time at the instant
    [t], and [offsetOfLocal l] the offset by which the host reads the
    local time value [l] back into an instant.  At a local time that the
    clocks skip or repeat the host takes the offset in force before the
    transition. *)
Record Zone := mkZone {
  offsetAt : Z -> Z;
  offsetOfLocal : Z -> Z
}.

Definition fixed (tz : Z) : Zone := mkZone (fun _ => tz) (fun _ => tz).

Coercion fixed : Z >-> Zone.

Section LocalZone.

Variable tz : Zone.

Definition LocalTime (t : Z) : Z := t + offsetAt tz t.
Definition UTC (t : Z) : Z := t - offsetOfLocal tz t.

Definition getFullYear (t : Z) : Z := YearFromDay (Day (LocalTime t)).
Definition getMonth (t : Z) : Z := MonthFromDay (Day (LocalTime t)).
Definition getDate (t : Z) : Z := DateFromDay (Day (LocalTime t)).
Definition getDay (t : Z) : Z := WeekDay (Day (LocalTime t)).
Definition getHours (t : Z) : Z := TimeWithinDay (LocalTime t) / 3600000.
Definition getMinutes (t : Z) : Z := (TimeWithinDay (LocalTime t) / 60000) mod 60.
Definition getSeconds (t : Z) : Z := (TimeWithinDay (LocalTime t) / 1000) mod 60.
Definition getMilliseconds (t : Z) : Z := TimeWithinDay (LocalTime t) mod 1000.

(** [new Date(year, month, date, hours, minutes, seconds, ms)] *)
Definition newDate (year month date h mi s ms : Z) : Z :=
  UTC (MakeDate (MakeDay (MakeFullYear year) month date) (MakeTime h mi s ms)).

(** [d.setDate(n)], [d.setMonth(m)], [d.setHours(0, 0, 0, 0)]: the new
    time value. *)
Definition setDate (t n : Z) : Z :=
  let lt := LocalTime t in
  UTC (MakeDate (MakeDay (YearFromDay (Day lt)) (MonthFromDay (Day lt)) n) (TimeWithinDay lt)).

Definition setMonth (t m : Z) : Z :=
  let lt := LocalTime t in
  UTC (MakeDate (MakeDay (YearFromDay (Day lt)) m (DateFromDay (Day lt))) (TimeWithinDay lt)).

Definition setHoursZero (t : Z) : Z :=
  UTC (MakeDate (Day (LocalTime t)) 0).

End LocalZone.

(** [new Date(text)] for the date-only ISO form [YYYY-MM-DD] with a year
    of four digits taken as it is, which is read as midnight UTC.  What
    the host makes of a text of another form is left to it by the
    language; such a text is given no instant here, and the properties
    of the callers are stated for keys of this form. *)
Definition parseIsoDate (s : jsstring) : option Z :=
  match s with
  | [y1; y2; y3; y4; d1; m1; m2; d2; a1; a2] =>
      if forallb isDigit [y1; y2; y3; y4; m1; m2; a1; a2]
         && (d1 =? 45)%N && (d2 =? 45)%N
      then
        let y := 1000 * digitValue y1 + 100 * digitValue y2
                 + 10 * digitValue y3 + digitValue y4 in
        let m := 10 * digitValue m1 + digitValue m2 in
        let d := 10 * digitValue a1 + digitValue a2 in
        if (1 <=? m) && (m <=? 12) && (1 <=? d) && (d <=? daysInMonth y (m - 1))
        then Some (MakeDate (MakeDay y (m - 1) d) 0)
        else None
      else None
  | _ => None
  end.

End JsDate.

(** ** Net-margin trend (app/api/metrics/net-margin/route.ts):
    time bucketing *)

Module NetMargin.

Import JsDate.

Section LocalZone.

Variable tz : JsDate.Zone.

Definition subMonths (date months : Z) : Z :=
  let d := date in
  let y := getFullYear tz d in
  let m := getMonth tz d in
  let day := getDate tz d in
  let target :=
    newDate tz y (m - months) 1
      (getHours tz d) (getMinutes tz d) (getSeconds tz d) (getMilliseconds tz d) in
  let lastDay :=
    getDate tz (newDate tz (getFullYear tz target) (getMonth tz target + 1) 0 0 0 0 0) in
  setDate tz target (Z.min day lastDay).

Definition monthKey (d : Z) : jsstring :=
  ofInteger (getFullYear tz d) ++ js "-" ++ padStart2 (ofInteger (getMonth tz d + 1)).

Definition dateKey (d : Z) : jsstring :=
  ofInteger (getFullYear tz d) ++ js "-" ++ padStart2 (ofInteger (getMonth tz d + 1))
  ++ js "-" ++ padStart2 (ofInteger (getDate tz d)).

(** Week start chosen as Monday (ISO-like). *)
Definition weekStartKey (d : Z) : jsstring :=
  let wd := getDay tz d in
  let mondayOffset := if wd =? 0 then -6 else 1 - wd in
  let start := d in
  let start := setHoursZero tz start in
  let start := setDate tz start (getDate tz start + mondayOffset) in
  dateKey start.

(** The [while (cur <= end)] loops.  [fuel] bounds the number of
    iterations; [None] means the bound was reached before the loop
    condition failed. *)
Fixpoint monthLoop (fuel : nat) (cur endMonth : Z) (keys : list jsstring)
  : option (list jsstring) :=
  if cur <=? endMonth then
    match fuel with
    | O => None
    | S f => monthLoop f (setMonth tz cur (getMonth tz cur + 1)) endMonth (keys ++ [monthKey cur])
    end
  else Some keys.

Definition generateMonthRangeInclusive (fuel : nat) (start end_ : Z) : option (list jsstring) :=
  let cur := newDate tz (getFullYear tz start) (getMonth tz start) 1 0 0 0 0 in
  let endMonth := newDate tz (getFullYear tz end_) (getMonth tz end_) 1 0 0 0 0 in
  monthLoop fuel cur endMonth [].

Fixpoint dateLoop (fuel : nat) (step : Z) (cur endDay : Z) (keys : list jsstring)
  : option (list jsstring) :=
  if cur <=? endDay then
    match fuel with
    | O => None
    | S f => dateLoop f step (setDate tz cur (getDate tz cur + step)) endDay (keys ++ [dateKey cur])
    end
  else Some keys.

Definition generateDateRangeInclusive (fuel : nat) (start end_ : Z) : option (list jsstring) :=
  let cur := newDate tz (getFullYear tz start) (getMonth tz start) (getDate tz start) 0 0 0 0 in
  let endDay := newDate tz (getFullYear tz end_) (getMonth tz end_) (getDate tz end_) 0 0 0 0 in
  dateLoop fuel 1 cur endDay [].

(** [new Date(firstKey)] reads the key as midnight UTC; an unparsable
    key gives an invalid date, for which the loop condition is false. *)
Definition generateWeekRangeInclusive (fuel : nat) (start end_ : Z) : option (list jsstring) :=
  let firstKey := weekStartKey start in
  let endMidnight :=
    newDate tz (getFullYear tz end_) (getMonth tz end_) (getDate tz end_) 0 0 0 0 in
  match parseIsoDate firstKey with
  | Some cur => dateLoop fuel 7 cur endMidnight []
  | None => Some []
  end.

End LocalZone.

End NetMargin.

(** ** The fact table and the SQL fragments the builders assemble

    A DECIMAL column holds a number, which the store keeps, compares and
    adds as a binary64 value; a TEXT value is compared in the BINARY
    collation, the order of its UTF-8 bytes, which is the order of its
    code points; NULL is [None].  How the engine carries out [SUM] over a
    group (the order of the additions, the compensation of rounding
    errors) is its own affair: the embedding takes it as an interface,
    [Engine].  The order type, which the schema declares NOT NULL and
    the queries only compare, is a text; the other columns are nullable,
    as the queries and the row types of the program take them. *)

Module Store.

Record FactRow := mkFact {
  transaction_id : Z;
  commercial_responsible : option jsstring;
  order_type : jsstring;
  supplier : option jsstring;
  billing_sign : option jsstring;
  product_category : option jsstring;
  product_family : option jsstring;
  product_reference : option jsstring;
  delivery_date : option Z;
  quantity : option number;
  sales_altona : option number;
  direct_sales : option number
}.

Inductive ValueColumn := col_quantity | col_sales_altona | col_direct_sales.

Definition column (c : ValueColumn) (r : FactRow) : option number :=
  match c with
  | col_quantity => quantity r
  | col_sales_altona => sales_altona r
  | col_direct_sales => direct_sales r
  end.

(** Value expressions: literals, columns, [COALESCE(a, b)] and
    [CASE WHEN c THEN a ELSE b END] (a chain of them for several WHENs). *)
Inductive Condition :=
| NonZero (c : ValueColumn)                 (* COALESCE(c, 0) <> 0 *)
| OrderTypeIn (types : list jsstring).      (* order_type IN (...) *)

Inductive ValueExpr :=
| Lit (n : Z)
| Col (c : ValueColumn)
| Coalesce (a b : ValueExpr)
| CaseWhen (c : Condition) (a b : ValueExpr).

Definition holds (c : Condition) (r : FactRow) : bool :=
  match c with
  | NonZero col => negb (strictEq (match column col r with Some v => v | None => zero end) zero)
  | OrderTypeIn types => existsb (JsString.eqb (order_type r)) types
  end.

Fixpoint eval (e : ValueExpr) (r : FactRow) : option number :=
  match e with
  | Lit n => Some (ofZ n)
  | Col c => column c r
  | Coalesce a b => match eval a r with Some v => Some v | None => eval b r end
  | CaseWhen c a b => if holds c r then eval a r else eval b r
  end.

(** The values of [e] on the rows, NULLs skipped. *)
Definition valuesOf (e : ValueExpr) (rows : list FactRow) : list number :=
  flat_map (fun r => match eval e r with Some v => [v] | None => [] end) rows.

Class Engine := mkEngine {
  (** [SUM] over the values of a group, given in the order of the rows. *)
  SUM : list number -> number
}.

(** An engine that adds from left to right, starting from 0. *)
Definition leftToRight : Engine :=
  mkEngine (fun values => fold_left PrimFloat.add values zero).

(** [SUM(e)] over a group of rows.  (Over a group with no value at all
    the engine gives NULL; the builders only sum [COALESCE(x, 0)].) *)
Definition sumOf {engine : Engine} (e : ValueExpr) (rows : list FactRow) : number :=
  SUM (valuesOf e rows).

(** Comparison of numeric values.  The store has no NaN: it keeps one
    as NULL, which sorts first, and so does a NaN here. *)
Definition numericCompare (a b : number) : comparison :=
  match PrimFloat.compare a b with
  | FEq => Eq
  | FLt => Lt
  | FGt => Gt
  | FNotComparable => if isNaN a then (if isNaN b then Eq else Lt) else Gt
  end.

(** The code points of a string: a high surrogate followed by a low one
    is one code point, any other code unit is its own. *)
Definition isHighSurrogate (c : codeUnit) : bool := ((55296 <=? c) && (c <=? 56319))%N.
Definition isLowSurrogate (c : codeUnit) : bool := ((56320 <=? c) && (c <=? 57343))%N.

Fixpoint codePoints (s : jsstring) : list Z :=
  match s with
  | [] => []
  | hi :: rest =>
      match rest with
      | lo :: rest' =>
          if isHighSurrogate hi && isLowSurrogate lo
          then (65536 + (Z.of_N hi - 55296) * 1024 + (Z.of_N lo - 56320)) :: codePoints rest'
          else Z.of_N hi :: codePoints rest
      | [] => [Z.of_N hi]
      end
  end.

(** Comparison of TEXT values in the BINARY collation; NULL sorts first. *)
Definition binaryCompare (a b : jsstring) : comparison :=
  Collation.lexCompare (codePoints a) (codePoints b).

Definition compareNullable (a b : option jsstring) : comparison :=
  match a, b with
  | None, None => Eq
  | None, Some _ => Lt
  | Some _, None => Gt
  | Some x, Some y => binaryCompare x y
  end.

Definition textEqb (a b : option jsstring) : bool :=
  match a, b with
  | None, None => true
  | Some x, Some y => JsString.eqb x y
  | _, _ => false
  end.

(** SQL [TRIM(x)]: spaces stripped from both ends. *)
Fixpoint stripLeadingSpaces (s : jsstring) : jsstring :=
  match s with
  | c :: r => if (c =? 32)%N then stripLeadingSpaces r else s
  | [] => []
  end.

Definition sqlTrim (s : jsstring) : jsstring :=
  rev (stripLeadingSpaces (rev (stripLeadingSpaces s))).

(** The sign of a comparison as a comparator result. *)
Definition signOf (c : comparison) : Z :=
  match c with Lt => -1 | Eq => 0 | Gt => 1 end.

End Store.

(** ** Most-sold products (lib/api/analytics/mostSoldProducts and its route) *)

Module MostSoldProducts.

Import Store Numbers JsArray.

(** A value of type [number | string | bigint | null]. *)
Inductive scalar : Type :=
| SNull
| SNumber (x : number)
| SBigint (n : Z)
| SString (s : jsstring).

Definition ofScalar (v : scalar) : unknown :=
  match v with
  | SNull => UNull
  | SNumber x => UNumber x
  | SBigint n => UBigint n
  | SString s => UString s
  end.

Inductive YearFilter := YearAll | YearIs (year : Z).

(** [type CategoryFilter = "all" | string]: a text, of which ["all"] is
    the filter that lets every category through. *)
Definition CategoryFilter : Type := jsstring.

Section WithHost.

Context {host : Host.Intl} {engine : Store.Engine}.

Definition invalidYearMessage : jsstring :=
  js "Invalid year parameter. Use 'all' or a four-digit year between 1900 and 2200.".

Definition parseYear (value : option jsstring) : result YearFilter :=
  match value with
  | None => Ok YearAll
  | Some v =>
      if falsy v || (JsString.length (trim v) =? 0) || JsString.eqb (toLowerCase v) (js "all")
      then Ok YearAll
      else
        let numeric := toNumber v in
        if negb (isInteger numeric) || lt numeric (ofZ 1900) || gt numeric (ofZ 2200)
        then Err BadRequestError invalidYearMessage
        else Ok (YearIs (truncZ numeric))
  end.

Definition parseCategory (value : option jsstring) : CategoryFilter :=
  match value with
  | None => js "all"
  | Some v =>
      if falsy v || (JsString.length (trim v) =? 0) || JsString.eqb (toLowerCase v) (js "all")
      then js "all"
      else trim v
  end.

(** The WHERE clause as a predicate on fact rows. *)
Definition buildWhereClause (year : YearFilter) (category : CategoryFilter)
  (r : FactRow) : bool :=
  match product_category r with
  | Some c => negb (JsString.eqb (sqlTrim c) [])
  | None => false
  end
  && match year with
     | YearAll => true
     | YearIs y =>
         match delivery_date r with
         | Some d => (JsDate.DateUTC y 0 1 <=? d) && (d <? JsDate.DateUTC (y + 1) 0 1)
         | None => false
         end
     end
  && (if negb (JsString.eqb category (js "all"))
      then textEqb (product_category r) (Some category)
      else true).

Definition normalizeYearValue (year : scalar) : option Z :=
  match year with
  | SNull => None
  | SNumber x => if isInteger x then Some (truncZ x) else None
  | SBigint n =>
      let numeric := ofZ n in
      if isFinite numeric && isInteger numeric then Some (truncZ numeric) else None
  | SString s =>
      let trimmed := trim s in
      if JsString.length trimmed =? 0 then None
      else
        let numeric := toNumber trimmed in
        if isInteger numeric then Some (truncZ numeric) else None
  end.

(** [if (!seen.has(y)) { seen.add(y); years.push(y) }] *)
Definition pushUnique (years : list Z) (y : Z) : list Z :=
  if existsb (Z.eqb y) years then years else years ++ [y].

Definition buildYearOptions (rows : list scalar) (selectedYear : YearFilter) : list Z :=
  let years :=
    fold_left
      (fun years year =>
         match normalizeYearValue year with
         | Some normalized => pushUnique years normalized
         | None => years
         end)
      rows [] in
  let years :=
    match selectedYear with
    | YearIs y => pushUnique years y
    | YearAll => years
    end in
  sortBy (fun a b => b - a) years.

(** [a.localeCompare(b, undefined, { sensitivity: "base" })] *)
Definition compareBase (a b : jsstring) : Z :=
  localeCompare base false a b.

Definition keepCategory (category : option jsstring) : option jsstring :=
  match category with
  | Some c => if negb (falsy c) && negb (JsString.eqb (trim c) []) then Some c else None
  | None => None
  end.

Fixpoint filterMap {A B} (f : A -> option B) (l : list A) : list B :=
  match l with
  | [] => []
  | x :: r => match f x with Some y => y :: filterMap f r | None => filterMap f r end
  end.

Definition buildCategoryOptions (rows : list (option jsstring))
  (selectedCategory : CategoryFilter) : list jsstring :=
  let categories := filterMap keepCategory rows in
  let unique := sortBy compareBase (dedup JsString.eqb categories) in
  if negb (JsString.eqb selectedCategory (js "all"))
     && negb (existsb (fun category => compareBase category selectedCategory =? 0) unique)
  then selectedCategory :: unique
  else unique.

Record RawTopProductRow := mkRawTop {
  raw_product_category : option jsstring;
  raw_product_family : option jsstring;
  raw_product_reference : option jsstring;
  raw_total_quantity : scalar;
  raw_category_total_quantity : scalar;
  raw_rank : scalar
}.

Record MostSoldProductRow := mkMostSold {
  productCategory : jsstring;
  productReference : jsstring;
  productFamily : option jsstring;
  totalQuantity : number;
  categoryTotalQuantity : number;
  shareWithinCategory : option number;
  rankWithinCategory : number
}.

Definition mapTopProductRow (row : RawTopProductRow) : option MostSoldProductRow :=
  match raw_product_category row with
  | Some category =>
      if falsy category then None
      else
        let totalQuantity := toFiniteNumber0 (ofScalar (raw_total_quantity row)) in
        let categoryTotal := toFiniteNumber0 (ofScalar (raw_category_total_quantity row)) in
        Some (mkMostSold
                category
                (match raw_product_reference row with
                 | Some reference => if falsy reference then js "N/A" else reference
                 | None => js "N/A"
                 end)
                (raw_product_family row)
                totalQuantity
                categoryTotal
                (if gt categoryTotal zero
                 then Some (PrimFloat.div totalQuantity categoryTotal)
                 else None)
                (toFiniteNumber0 (ofScalar (raw_rank row))))
  | None => None
  end.

Definition mapTopProductRows (rows : list RawTopProductRow) : list MostSoldProductRow :=
  filterMap mapTopProductRow rows.

(** *** The top-products query

    [filtered]: one row per (category, family, reference) with the summed
    quantity; [ranked]: each row with its category total and its
    [ROW_NUMBER()] inside its category; the result keeps [rn <= 5]. *)

Record ProductGroup := mkGroup {
  g_category : option jsstring;
  g_family : option jsstring;
  g_reference : option jsstring;
  g_total_quantity : number
}.

Definition ProductKey : Type := option jsstring * option jsstring * option jsstring.

Definition productKey (r : FactRow) : ProductKey :=
  (product_category r, product_family r, product_reference r).

Definition keyEqb (a b : ProductKey) : bool :=
  let '(c1, f1, r1) := a in
  let '(c2, f2, r2) := b in
  textEqb c1 c2 && textEqb f1 f2 && textEqb r1 r2.

Definition filtered (whereSql : FactRow -> bool) (table : list FactRow) : list ProductGroup :=
  let rows := filter whereSql table in
  List.map
    (fun k : ProductKey =>
       let '(c, f, r) := k in
       mkGroup c f r
         (sumOf (Coalesce (Col col_quantity) (Lit 0))
            (filter (fun row => keyEqb (productKey row) k) rows)))
    (dedup keyEqb (List.map productKey rows)).

Record RankedRow := mkRanked {
  r_group : ProductGroup;
  r_category_total_quantity : number;
  rn : Z
}.

(** [ORDER BY total_quantity DESC, product_reference ASC].  Rows that tie
    on both keep the order they come in, one of the orders the engine is
    free to choose. *)
Definition windowOrder (a b : ProductGroup) : Z :=
  match numericCompare (g_total_quantity b) (g_total_quantity a) with
  | Eq => signOf (compareNullable (g_reference a) (g_reference b))
  | c => signOf c
  end.

Fixpoint number_from (i : Z) (total : number) (l : list ProductGroup) : list RankedRow :=
  match l with
  | [] => []
  | g :: r => mkRanked g total i :: number_from (i + 1) total r
  end.

Definition rankPartition (part : list ProductGroup) : list RankedRow :=
  number_from 1
    (SUM (List.map g_total_quantity part))
    (sortBy windowOrder part).

Definition inCategory (c : option jsstring) (g : ProductGroup) : bool :=
  textEqb (g_category g) c.

Definition ranked (groups : list ProductGroup) : list RankedRow :=
  flat_map
    (fun c => rankPartition (filter (inCategory c) groups))
    (dedup textEqb (List.map g_category groups)).

(** [ORDER BY total_quantity DESC, product_category ASC, product_reference ASC] *)
Definition resultOrder (a b : RankedRow) : Z :=
  let ga := r_group a in
  let gb := r_group b in
  match numericCompare (g_total_quantity gb) (g_total_quantity ga) with
  | Eq =>
      match compareNullable (g_category ga) (g_category gb) with
      | Eq => signOf (compareNullable (g_reference ga) (g_reference gb))
      | c => signOf c
      end
  | c => signOf c
  end.

Definition topProductsQuery (whereSql : FactRow -> bool) (table : list FactRow)
  : list RankedRow :=
  sortBy resultOrder (filter (fun r => rn r <=? 5) (ranked (filtered whereSql table))).

(** A numeric column as the driver hands it over: NULL as [null], a
    value as a number (a sum of integers may come as a bigint, which
    [toFiniteNumber] reads as the same number). *)
Definition ofNumeric (x : number) : scalar :=
  if isNaN x then SNull else SNumber x.

Definition toRawRow (r : RankedRow) : RawTopProductRow :=
  mkRawTop
    (g_category (r_group r)) (g_family (r_group r)) (g_reference (r_group r))
    (ofNumeric (g_total_quantity (r_group r)))
    (ofNumeric (r_category_total_quantity r))
    (SBigint (rn r)).

Definition fetchTopProductRows (table : list FactRow) (whereSql : FactRow -> bool)
  : list RawTopProductRow :=
  List.map toRawRow (topProductsQuery whereSql table).

Record FilterOptions := mkFilter {
  selected : jsstring;
  options : list jsstring
}.

Definition yearFilterPayload (yearRows : list scalar) (year : YearFilter) : FilterOptions :=
  mkFilter
    (match year with YearAll => js "all" | YearIs y => ofInteger y end)
    (js "all" :: List.map ofInteger (buildYearOptions yearRows year)).

Definition categoryFilterPayload (categoryRows : list (option jsstring))
  (category : CategoryFilter) : FilterOptions :=
  mkFilter
    (if JsString.eqb category (js "all") then js "all" else category)
    (js "all" :: buildCategoryOptions categoryRows category).

End WithHost.

End MostSoldProducts.

(** ** Commercial responsibles (lib/api/analytics/commercialResponsibles) *)

Module CommercialResponsibles.

Import Store Numbers JsArray.
Import MostSoldProducts(scalar, SNull, SNumber, SBigint, SString, filterMap).

Inductive CommercialSalesChannel := all | direct | indirect.

Definition MAX_LIMIT : Z := 250.
Definition MIN_ALLOWED_YEAR : Z := 1900.
Definition MAX_ALLOWED_YEAR : Z := 2200.

Definition INDIRECT_ORDER_TYPES : list jsstring :=
  [js "Permanent direct"; js "Op" ++ [233%N] ++ js "ration direct"].

(** The source notes: indirect sales (order type in the list) carry their
    value in [direct_sales], direct sales in [sales_altona]. *)
Definition SALES_VALUE_INDIRECT_EXPRESSION : ValueExpr :=
  Coalesce (Col col_direct_sales) (Lit 0).
Definition SALES_VALUE_DIRECT_EXPRESSION : ValueExpr :=
  Coalesce (Col col_sales_altona) (Lit 0).
Definition SALES_VALUE_ALL_EXPRESSION : ValueExpr :=
  CaseWhen (OrderTypeIn INDIRECT_ORDER_TYPES)
    (Coalesce (Col col_direct_sales) (Lit 0))
    (Coalesce (Col col_sales_altona) (Lit 0)).

Definition resolveSalesValueExpression (channel : CommercialSalesChannel) : ValueExpr :=
  match channel with
  | direct => SALES_VALUE_DIRECT_EXPRESSION
  | indirect => SALES_VALUE_INDIRECT_EXPRESSION
  | all => SALES_VALUE_ALL_EXPRESSION
  end.

Definition normalizeLimit (limit : option number) : option Z :=
  match limit with
  | None => None
  | Some l =>
      if negb (isFinite l) then None
      else
        let integer := truncZ l in
        if integer <? 1 then Some 1
        else if MAX_LIMIT <? integer then Some MAX_LIMIT
        else Some integer
  end.

Definition normalizeYearBound (year : option number) : result (option Z) :=
  match year with
  | None => Ok None
  | Some y =>
      if negb (isFinite y)
      then Err RangeError
             (js "Year must be a finite number or null. Received " ++ nonFiniteText y ++ js ".")
      else
        let integer := truncZ y in
        if (integer <? MIN_ALLOWED_YEAR) || (MAX_ALLOWED_YEAR <? integer)
        then Err RangeError
               (js "Year must be between 1900 and 2200. Received " ++ ofIntegral integer ++ js ".")
        else Ok (Some integer)
  end.

Definition inAllowedYearRange (year : Z) : bool :=
  (MIN_ALLOWED_YEAR <=? year) && (year <=? MAX_ALLOWED_YEAR).

Definition truncatedYear (numeric : number) : option Z :=
  if negb (isFinite numeric) then None
  else
    let integerYear := truncZ numeric in
    if inAllowedYearRange integerYear then Some integerYear else None.

Definition normalizeYearValue (value : scalar) : option Z :=
  match value with
  | SNull => None
  | SNumber x => truncatedYear x
  | SBigint n => truncatedYear (ofZ n)
  | SString s =>
      let trimmed := trim s in
      if falsy trimmed then None else truncatedYear (toNumber trimmed)
  end.

Definition normalizeName (value : option jsstring) : option jsstring :=
  match value with
  | Some v => let trimmed := trim v in if 0 <? JsString.length trimmed then Some trimmed else None
  | None => None
  end.

Record AggregateRow := mkAggregate {
  agg_commercial_responsible : option jsstring;
  agg_total_quantity : unknown;
  agg_total_sales : unknown
}.

Record CleanedAggregate := mkCleaned {
  name : jsstring;
  cleanTotalQuantity : number;
  cleanTotalSalesValue : number
}.

Record CommercialPeriodBucket := mkPeriod {
  period : jsstring;
  periodYear : Z;
  periodMonth : option Z;
  salesValue : number;
  quantity : number;
  deltaSalesValue : option number;
  deltaQuantity : option number
}.

Record CommercialResponsibleRow := mkRow {
  commercialResponsible : jsstring;
  totalSalesValue : number;
  totalQuantity : number;
  shareOfSalesValue : option number;
  shareOfQuantity : option number;
  series : list CommercialPeriodBucket
}.

Definition cleanAggregates (aggregateRows : list AggregateRow) : list CleanedAggregate :=
  filterMap
    (fun r =>
       match normalizeName (agg_commercial_responsible r) with
       | Some n =>
           Some (mkCleaned n
                   (toFiniteNumber0 (agg_total_quantity r))
                   (toFiniteNumber0 (agg_total_sales r)))
       | None => None
       end)
    aggregateRows.

Definition sumQuantity (cleanedAgg : list CleanedAggregate) : number :=
  fold_left (fun total r => PrimFloat.add total (cleanTotalQuantity r)) cleanedAgg zero.

Definition sumSalesValue (cleanedAgg : list CleanedAggregate) : number :=
  fold_left (fun total r => PrimFloat.add total (cleanTotalSalesValue r)) cleanedAgg zero.

(** The [rows] of the payload; [seriesByName] is the lookup in the map
    built from the period query. *)
Definition buildRows (aggregateRows : list AggregateRow)
  (seriesByName : jsstring -> option (list CommercialPeriodBucket))
  : list CommercialResponsibleRow :=
  let cleanedAgg := cleanAggregates aggregateRows in
  let totalQuantity := sumQuantity cleanedAgg in
  let totalSalesValue := sumSalesValue cleanedAgg in
  List.map
    (fun agg =>
       mkRow (name agg) (cleanTotalSalesValue agg) (cleanTotalQuantity agg)
         (if gt totalSalesValue zero
          then Some (PrimFloat.div (cleanTotalSalesValue agg) totalSalesValue) else None)
         (if gt totalQuantity zero
          then Some (PrimFloat.div (cleanTotalQuantity agg) totalQuantity) else None)
         (match seriesByName (name agg) with Some s => s | None => [] end))
    cleanedAgg.

Definition loadAvailableYears (rows : list scalar) : list Z :=
  sortBy (fun a b => a - b) (dedup Z.eqb (filterMap normalizeYearValue rows)).

Record YearFilterPayload := mkYearFilter {
  selectedYear : option Z;
  yearOptions : list Z
}.

(** [filters.year] of the payload. *)
Definition yearFilterPayload (yearRows : list scalar) (year : option Z) : YearFilterPayload :=
  mkYearFilter year (loadAvailableYears yearRows).

End CommercialResponsibles.

(** ** Top partners (lib/api/analytics/topPartners) *)

Module TopPartners.

Import Store Numbers JsArray.

Inductive PartnerKind := supplier | client.
Inductive TopPartnersOrderBy := sales | quantity.
Inductive SalesChannel := all | direct | indirect.

Definition DEFAULT_TOP_LIMIT : Z := 5.
Definition MAX_TOP_LIMIT : Z := 25.
Definition MIN_ALLOWED_YEAR : Z := 1900.
Definition MAX_ALLOWED_YEAR : Z := 2200.

Definition SALES_VALUE_ALL_EXPRESSION : ValueExpr :=
  CaseWhen (NonZero col_sales_altona) (Coalesce (Col col_sales_altona) (Lit 0))
    (CaseWhen (NonZero col_direct_sales) (Coalesce (Col col_direct_sales) (Lit 0))
       (Coalesce (Col col_sales_altona) (Coalesce (Col col_direct_sales) (Lit 0)))).

Definition SALES_VALUE_DIRECT_EXPRESSION : ValueExpr :=
  Coalesce (Col col_direct_sales) (Lit 0).
Definition SALES_VALUE_INDIRECT_EXPRESSION : ValueExpr :=
  Coalesce (Col col_sales_altona) (Lit 0).

Definition resolveSalesValueExpression (channel : SalesChannel) : ValueExpr :=
  match channel with
  | direct => SALES_VALUE_INDIRECT_EXPRESSION
  | indirect => SALES_VALUE_DIRECT_EXPRESSION
  | all => SALES_VALUE_ALL_EXPRESSION
  end.

Section WithHost.

Context {host : Host.Intl}.

Definition normalizePartnerKind (kind : option jsstring) : result PartnerKind :=
  let normalized := toLowerCase (trim (match kind with Some k => k | None => [] end)) in
  if JsString.eqb normalized (js "supplier") || JsString.eqb normalized (js "suppliers")
  then Ok supplier
  else if JsString.eqb normalized (js "client") || JsString.eqb normalized (js "clients")
  then Ok client
  else Err InvalidPartnerKindError
         (js "Unsupported partner kind: "
          ++ match kind with Some k => k | None => js "null" end).

Definition normalizeLimit (limit : option number) : Z :=
  match limit with
  | None => DEFAULT_TOP_LIMIT
  | Some l =>
      if negb (isFinite l) then DEFAULT_TOP_LIMIT
      else
        let integerLimit := truncZ l in
        if integerLimit <? 1 then 1
        else if MAX_TOP_LIMIT <? integerLimit then MAX_TOP_LIMIT
        else integerLimit
  end.

Definition normalizeYearBound (year : option number) : result (option Z) :=
  match year with
  | None => Ok None
  | Some y =>
      if negb (isFinite y)
      then Err RangeError
             (js "Year bounds must be finite numbers. Received " ++ nonFiniteText y ++ js ".")
      else
        let integerYear := truncZ y in
        if (integerYear <? MIN_ALLOWED_YEAR) || (MAX_ALLOWED_YEAR <? integerYear)
        then Err RangeError
               (js "Year bounds must be between 1900 and 2200. Received "
                ++ ofIntegral integerYear ++ js ".")
        else Ok (Some integerYear)
  end.

(** The check on the two bounds at the head of [buildTopPartnersPayload]. *)
Definition checkYearBounds (minYear maxYear : option number)
  : result (option Z * option Z) :=
  bind (normalizeYearBound minYear) (fun lo =>
  bind (normalizeYearBound maxYear) (fun hi =>
    match lo, hi with
    | Some a, Some b =>
        if b <? a
        then Err RangeError
               (js "minYear (" ++ ofInteger a
                ++ js ") must be less than or equal to maxYear (" ++ ofInteger b ++ js ").")
        else Ok (lo, hi)
    | _, _ => Ok (lo, hi)
    end)).

Definition normalizePartnerName (name : option jsstring) : option jsstring :=
  match name with
  | Some n => let trimmed := trim n in if 0 <? JsString.length trimmed then Some trimmed else None
  | None => None
  end.

(** The classes of the two patterns, [[\u0300-\u036f]] (the combining
    diacritical marks) and [[a-z0-9]]; the patterns work on code units. *)
Definition isCombiningMark (c : codeUnit) : bool := ((768 <=? c) && (c <=? 879))%N.

Definition isLowerAlnum (c : codeUnit) : bool :=
  ((97 <=? c) && (c <=? 122) || (48 <=? c) && (c <=? 57))%N.

Definition canonicalizePartnerKey (name : jsstring) : jsstring :=
  filter isLowerAlnum
    (toLowerCase
       (filter (fun c => negb (isCombiningMark c)) (normalizeNFKD name))).

Definition choosePreferredDisplayName (existing candidate : jsstring) : jsstring :=
  if falsy existing then candidate
  else if falsy candidate then existing
  else if JsString.length existing <? JsString.length candidate then candidate
  else if JsString.length candidate <? JsString.length existing then existing
  else
    let comparison := localeCompare accent true candidate existing in
    if comparison <? 0 then candidate else existing.

Record AggregateRow := mkAggregate {
  partner_name : option jsstring;
  total_quantity : unknown;
  total_sales : unknown
}.

Record CanonicalBucket := mkBucket {
  canonicalKey : jsstring;
  displayName : jsstring;
  variants : list jsstring;
  totalQuantity : number;
  totalSalesValue : number;
  ordinal : Z
}.

(** [variants.add(name)] on a [Set] kept in insertion order. *)
Definition setAdd (s : list jsstring) (x : jsstring) : list jsstring :=
  if existsb (JsString.eqb x) s then s else s ++ [x].

(** A [Map] from canonical keys to buckets, in insertion order. *)
Definition BucketMap := list (jsstring * CanonicalBucket).

Fixpoint mapGet (m : BucketMap) (k : jsstring) : option CanonicalBucket :=
  match m with
  | [] => None
  | (k', b) :: r => if JsString.eqb k' k then Some b else mapGet r k
  end.

Fixpoint mapSet (m : BucketMap) (k : jsstring) (b : CanonicalBucket) : BucketMap :=
  match m with
  | [] => [(k, b)]
  | (k', b') :: r => if JsString.eqb k' k then (k, b) :: r else (k', b') :: mapSet r k b
  end.

(** One turn of [topPartnersRaw.forEach((row, index) => ...)]. *)
Definition foldRow (bucketMap : BucketMap) (index : Z) (row : AggregateRow) : BucketMap :=
  match normalizePartnerName (partner_name row) with
  | None => bucketMap
  | Some partnerName =>
      let key := canonicalizePartnerKey partnerName in
      if falsy key then bucketMap
      else
        let totalQuantity' := toFiniteNumber0 (total_quantity row) in
        let totalSalesValue' := toFiniteNumber0 (total_sales row) in
        let bucket :=
          match mapGet bucketMap key with
          | None => mkBucket key partnerName [partnerName] zero zero index
          | Some b =>
              mkBucket (canonicalKey b)
                (choosePreferredDisplayName (displayName b) partnerName)
                (setAdd (variants b) partnerName)
                (totalQuantity b) (totalSalesValue b)
                (Z.min (ordinal b) index)
          end in
        mapSet bucketMap key
          (mkBucket (canonicalKey bucket) (displayName bucket) (variants bucket)
             (PrimFloat.add (totalQuantity bucket) totalQuantity')
             (PrimFloat.add (totalSalesValue bucket) totalSalesValue')
             (ordinal bucket))
  end.

Fixpoint foldRowsFrom (bucketMap : BucketMap) (index : Z) (rows : list AggregateRow)
  : BucketMap :=
  match rows with
  | [] => bucketMap
  | row :: rest => foldRowsFrom (foldRow bucketMap index row) (index + 1) rest
  end.

Definition collectBuckets (topPartnersRaw : list AggregateRow) : BucketMap :=
  foldRowsFrom [] 0 topPartnersRaw.

Definition RAW_LIMIT_MULTIPLIER : Z := 4.

(** [rawLimit], the number of raw rows the aggregate query fetches. *)
Definition rawLimit (limit : Z) : Z :=
  Z.max limit (Z.min (limit * RAW_LIMIT_MULTIPLIER) (MAX_TOP_LIMIT * RAW_LIMIT_MULTIPLIER)).

(** [startDate] and [endDate], the bounds of the delivery dates. *)
Definition startDate (minYear : option Z) : option Z :=
  match minYear with
  | Some y => Some (JsDate.DateUTC y 0 1)
  | None => None
  end.

Definition endDate (maxYear : option Z) : option Z :=
  match maxYear with
  | Some y => Some (JsDate.DateUTC (y + 1) 0 1)
  | None => None
  end.

End WithHost.

End TopPartners.

(** ** Query-parameter parsing in the route handlers *)

Module Routes.

Import Numbers.

(** [!value || value.trim().length === 0] on a [string | null]. *)
Definition blank (value : option jsstring) : bool :=
  match value with
  | None => true
  | Some v => falsy v || (JsString.length (trim v) =? 0)
  end.

Section WithHost.

Context {host : Host.Intl}.

(** *** app/api/analytics/top-partners/route.ts *)

Definition parseKind (value : option jsstring) : result TopPartners.PartnerKind :=
  if blank value then Ok TopPartners.supplier
  else TopPartners.normalizePartnerKind value.

Definition invalidTopOrderByMessage : jsstring :=
  js "Invalid orderBy parameter. Supported values are 'sales' or 'quantity'.".

Definition parseTopPartnersOrderBy (value : option jsstring)
  : result TopPartners.TopPartnersOrderBy :=
  match value with
  | None => Ok TopPartners.sales
  | Some v =>
      if falsy v then Ok TopPartners.sales
      else
        let normalized := toLowerCase (trim v) in
        if JsString.eqb normalized (js "sales") then Ok TopPartners.sales
        else if JsString.eqb normalized (js "quantity") then Ok TopPartners.quantity
        else Err RangeError invalidTopOrderByMessage
  end.

Definition invalidSalesChannelMessage : jsstring :=
  js "Invalid salesChannel parameter. Supported values are 'all', 'direct', or 'indirect'.".

Definition parseSalesChannel (value : option jsstring) : result TopPartners.SalesChannel :=
  match value with
  | Some v =>
      if blank value then Ok TopPartners.all
      else
        let normalized := toLowerCase (trim v) in
        if JsString.eqb normalized (js "all") then Ok TopPartners.all
        else if JsString.eqb normalized (js "direct") then Ok TopPartners.direct
        else if JsString.eqb normalized (js "indirect") then Ok TopPartners.indirect
        else Err RangeError invalidSalesChannelMessage
  | None => Ok TopPartners.all
  end.

(** Shared by the top-partners and commercial-responsibles routes. *)
Definition parseOptionalPositiveInteger (value : option jsstring) : result (option Z) :=
  match value with
  | Some v =>
      if blank value then Ok None
      else
        let parsed := toNumber v in
        if negb (isFinite parsed)
        then Err RangeError
               (js "Invalid numeric parameter. Expected a finite number, received '"
                ++ v ++ js "'.")
        else
          let integer := truncZ parsed in
          if integer <=? 0
          then Err RangeError
                 (js "Numeric parameters must be positive integers. Received '"
                  ++ ofIntegral integer ++ js "'.")
          else Ok (Some integer)
  | None => Ok None
  end.

Definition parseOptionalYear (value : option jsstring) : result (option Z) :=
  match value with
  | Some v =>
      if blank value then Ok None
      else
        let parsed := toNumber v in
        if negb (isFinite parsed)
        then Err RangeError
               (js "Invalid year parameter. Expected a four-digit year, received '"
                ++ v ++ js "'.")
        else Ok (Some (truncZ parsed))
  | None => Ok None
  end.

(** The limit the top-partners view ends up with for a query text. *)
Definition topPartnersLimit (value : option jsstring) : result Z :=
  bind (parseOptionalPositiveInteger value) (fun limit =>
    Ok (TopPartners.normalizeLimit
          (match limit with Some n => Some (ofZ n) | None => None end))).

(** *** app/api/analytics/commercial-responsibles/route.ts *)

Inductive CommercialTimeView := yearly | monthly.
Inductive CommercialResponsiblesOrderBy := bySales | byQuantity | byName.

Definition invalidViewMessage : jsstring :=
  js "Invalid view parameter. Supported values are 'yearly' or 'monthly'.".

Definition parseView (value : option jsstring) : result CommercialTimeView :=
  match value with
  | Some v =>
      if blank value then Ok yearly
      else
        let normalized := toLowerCase (trim v) in
        if JsString.eqb normalized (js "yearly") then Ok yearly
        else if JsString.eqb normalized (js "monthly") then Ok monthly
        else Err RangeError invalidViewMessage
  | None => Ok yearly
  end.

Definition invalidCommercialOrderByMessage : jsstring :=
  js "Invalid orderBy parameter. Supported values are 'sales', 'quantity', or 'name'.".

Definition parseCommercialOrderBy (value : option jsstring)
  : result CommercialResponsiblesOrderBy :=
  match value with
  | Some v =>
      if blank value then Ok bySales
      else
        let normalized := toLowerCase (trim v) in
        if JsString.eqb normalized (js "sales") then Ok bySales
        else if JsString.eqb normalized (js "quantity") then Ok byQuantity
        else if JsString.eqb normalized (js "name") then Ok byName
        else Err RangeError invalidCommercialOrderByMessage
  | None => Ok bySales
  end.

Definition parseCommercialYear (value : option jsstring) : result (option Z) :=
  match value with
  | Some v =>
      if blank value || JsString.eqb (toLowerCase (trim v)) (js "all") then Ok None
      else
        let parsed := toNumber v in
        if negb (isFinite parsed)
        then Err RangeError
               (js "Invalid year parameter. Expected 'all' or a year number, received '"
                ++ v ++ js "'.")
        else Ok (Some (truncZ parsed))
  | None => Ok None
  end.

(** *** app/api/dashboard/summary/route.ts *)

Definition DEFAULT_MONTHS_AGO : Z := 1.

Definition parseMonthsAgo (param : option jsstring) : result Z :=
  match param with
  | None => Ok DEFAULT_MONTHS_AGO
  | Some p =>
      if falsy p then Ok DEFAULT_MONTHS_AGO
      else
        let parsed := toNumber p in
        if negb (isInteger parsed) || lt parsed (ofZ 1)
        then Err PlainError (js "monthsAgo must be a positive integer (>= 1).")
        else Ok (truncZ parsed)
  end.

(** *** The sales-transactions listing (route and lib/api/sales) *)

Definition parseIntParam (raw : option jsstring) (fallback min max : number) : number :=
  match raw with
  | None => fallback
  | Some r =>
      if falsy r then fallback
      else
        let n := toNumber r in
        if negb (isFinite n) then fallback
        else JsNumber.min (JsNumber.max n min) max
  end.

Definition DEFAULT_PAGE : number := ofZ 1.
Definition DEFAULT_PAGE_SIZE : number := ofZ 50.
Definition MAX_PAGE : number := ofZ 10000.
Definition MIN_PAGE : number := ofZ 1.
Definition MIN_PAGE_SIZE : number := ofZ 1.
Definition MAX_PAGE_SIZE : number := ofZ 500.

Record SalesListQuery := mkQuery { page : number; pageSize : number }.

Definition parseSalesListQuery (pageParam pageSizeParam : option jsstring) : SalesListQuery :=
  mkQuery
    (parseBoundedInteger pageParam DEFAULT_PAGE MIN_PAGE MAX_PAGE)
    (parseBoundedInteger pageSizeParam DEFAULT_PAGE_SIZE MIN_PAGE_SIZE MAX_PAGE_SIZE).

End WithHost.

End Routes.

(** ** Commercial responsibles: channel filter and period series
    (lib/api/analytics/commercialResponsibles, continued) *)

Module CommercialSeries.

Import Store Numbers JsArray CommercialResponsibles.
Import MostSoldProducts(scalar, SNull, SNumber, SBigint, SString).

(** [order_type IN (...)] *)
Definition isIndirectSql (r : FactRow) : bool :=
  existsb (JsString.eqb (order_type r)) INDIRECT_ORDER_TYPES.

Definition buildSalesChannelFilter (channel : CommercialSalesChannel)
  : option (FactRow -> bool) :=
  match channel with
  | all => None
  | indirect => Some isIndirectSql
  | direct => Some (fun r => negb (isIndirectSql r))
  end.

(** The rows a WHERE clause made of the channel filter keeps. *)
Definition channelRows (channel : CommercialSalesChannel) (rows : list FactRow)
  : list FactRow :=
  match buildSalesChannelFilter channel with
  | Some condition => filter condition rows
  | None => rows
  end.

Definition truncatedMonth (numeric : number) : option Z :=
  if negb (isFinite numeric) then None
  else
    let month := truncZ numeric in
    if (month <? 1) || (12 <? month) then None else Some month.

Definition normalizeMonthValue (value : scalar) : option Z :=
  match value with
  | SNull => None
  | SNumber x => truncatedMonth x
  | SBigint n => truncatedMonth (ofZ n)
  | SString s =>
      let trimmed := trim s in
      if falsy trimmed then None else truncatedMonth (toNumber trimmed)
  end.

Record PeriodRow := mkPeriodRow {
  pr_commercial_responsible : option jsstring;
  pr_year : scalar;
  pr_month : scalar;
  pr_total_quantity : unknown;
  pr_total_sales : unknown
}.

(** A bucket before its deltas are known. *)
Record PeriodEntry := mkEntry {
  e_period : jsstring;
  e_year : Z;
  e_month : option Z;
  e_salesValue : number;
  e_quantity : number
}.

(** A [Map] with string keys, in insertion order. *)
Section StringMap.

Variable V : Type.

Fixpoint mapGet (m : list (jsstring * V)) (k : jsstring) : option V :=
  match m with
  | [] => None
  | (k', v) :: r => if JsString.eqb k' k then Some v else mapGet r k
  end.

Fixpoint mapSet (m : list (jsstring * V)) (k : jsstring) (v : V) : list (jsstring * V) :=
  match m with
  | [] => [(k, v)]
  | (k', v') :: r => if JsString.eqb k' k then (k, v) :: r else (k', v') :: mapSet r k v
  end.

End StringMap.

(** One turn of the first loop of [buildSeriesMap]. *)
Definition addPeriodRow (view : Routes.CommercialTimeView)
  (bucketsByName : list (jsstring * list PeriodEntry)) (row : PeriodRow)
  : list (jsstring * list PeriodEntry) :=
  match normalizeName (pr_commercial_responsible row) with
  | None => bucketsByName
  | Some name =>
      match normalizeYearValue (pr_year row) with
      | None => bucketsByName
      | Some year =>
          let month :=
            match view with
            | Routes.monthly => normalizeMonthValue (pr_month row)
            | Routes.yearly => None
            end in
          match view, month with
          | Routes.monthly, None => bucketsByName
          | _, _ =>
              let period :=
                match view, month with
                | Routes.monthly, Some m =>
                    ofInteger year ++ js "-" ++ padStart2 (ofInteger m)
                | _, _ => ofInteger year
                end in
              let salesValue := toFiniteNumber0 (pr_total_sales row) in
              let quantity := toFiniteNumber0 (pr_total_quantity row) in
              let list_ :=
                match mapGet bucketsByName name with Some l => l | None => [] end in
              mapSet bucketsByName name
                (list_ ++ [mkEntry period year month salesValue quantity])
          end
      end
  end.

(** The comparator of [list.sort]. *)
Definition comparePeriods (a b : PeriodEntry) : Z :=
  if negb (e_year a =? e_year b) then e_year a - e_year b
  else
    let am := match e_month a with Some m => m | None => 0 end in
    let bm := match e_month b with Some m => m | None => 0 end in
    am - bm.

(** [list.map((b, idx) => ...)]: [prev] is [list[idx - 1]], null for the
    first bucket. *)
Fixpoint withDeltasFrom (prev : option PeriodEntry) (list_ : list PeriodEntry)
  : list CommercialPeriodBucket :=
  match list_ with
  | [] => []
  | b :: rest =>
      mkPeriod (e_period b) (e_year b) (e_month b) (e_salesValue b) (e_quantity b)
        (match prev with
         | Some p => Some (PrimFloat.sub (e_salesValue b) (e_salesValue p))
         | None => None
         end)
        (match prev with
         | Some p => Some (PrimFloat.sub (e_quantity b) (e_quantity p))
         | None => None
         end)
      :: withDeltasFrom (Some b) rest
  end.

Definition buildSeriesMap (rows : list PeriodRow) (view : Routes.CommercialTimeView)
  : list (jsstring * list CommercialPeriodBucket) :=
  List.map
    (fun entry => (fst entry, withDeltasFrom None (sortBy comparePeriods (snd entry))))
    (fold_left (addPeriodRow view) rows []).

End CommercialSeries.

(** ** Sales upload (lib/api/sales-upload): cell normalization *)

Module SalesUpload.

Import Numbers.

Definition isBlankRow (cells : list unknown) : bool :=
  forallb
    (fun cell =>
       match cell with
       | UNull | UUndefined => true
       | UString s => JsString.length (trim s) =? 0
       | _ => false
       end)
    cells.

Definition numOrNull (value : unknown) : option number :=
  match value with
  | UNull | UUndefined => None
  | UNumber x => if isFinite x then Some x else None
  | UString s =>
      match s with
      | [] => None
      | _ =>
          let trimmed := trim s in
          if JsString.length trimmed =? 0 then None
          else
            let parsed := toNumber trimmed in
            if isFinite parsed then Some parsed else None
      end
  | UDecimal (Some numeric) => if isFinite numeric then Some numeric else None
  | UDecimal None => None
  | _ => None
  end.

End SalesUpload.

(** ** The route-local converters of the sales listing and of the
    net-margin trend (app/api/sales/route.ts, app/api/metrics/net-margin/route.ts) *)

Module SalesRoute.

Import Numbers.

Definition toNumber (value : unknown) : option number :=
  match value with
  | UNull | UUndefined => None
  | UNumber x => if isFinite x then Some x else None
  | UString s =>
      match s with
      | [] => None
      | _ => let n := JsString.toNumber s in if isFinite n then Some n else None
      end
  | UDecimal (Some numeric) => Some numeric
  | UDecimal None => None
  | _ => None
  end.

End SalesRoute.

Module NetMarginRoute.

Import Numbers.

Definition toNumber (value : unknown) : number :=
  match value with
  | UNull | UUndefined => zero
  | UNumber x => if isFinite x then x else zero
  | UString s =>
      match s with
      | [] => zero
      | _ => let n := JsString.toNumber s in if isFinite n then n else zero
      end
  | UDecimal (Some numeric) => numeric
  | UDecimal None => zero
  | _ => zero
  end.

Record Row := mkRow {
  transaction_id : Z;
  delivery_date : Z;
  total_net_margin_eur : unknown;
  sales_altona : unknown
}.

(** The loop of [GET] that drops repeated transaction ids; the state is
    [(seenIds, duplicateIds, rows)]. *)
Definition dedupStep (state : list Z * list Z * list Row) (r : Row)
  : list Z * list Z * list Row :=
  let '(seenIds, duplicateIds, rows) := state in
  if existsb (Z.eqb (transaction_id r)) seenIds
  then (seenIds, duplicateIds ++ [transaction_id r], rows)
  else (seenIds ++ [transaction_id r], duplicateIds, rows ++ [r]).

Definition deduplicate (rawRows : list Row) : list Z * list Z * list Row :=
  fold_left dedupStep rawRows ([], [], []).


Section LocalZone.

Variable tz : JsDate.Zone.















End LocalZone.

End NetMarginRoute.

(** ** Dashboard summary: the periods compared (lib/metrics/dashboard-summary) *)

Module DashboardPeriods.

Import JsDate.






End DashboardPeriods.

(** * Properties *)

Unset Implicit Arguments.

(** ** Comparisons of numbers with zero *)

Module NumberFacts.

Lemma Prim2SF_zero : Prim2SF zero = S754_zero false.
Proof. reflexivity. Qed.

Ltac by_float_cases x :=
  destruct (Prim2SF x) as [[]|[]| |[] ? ?]; simpl;
  try reflexivity; try discriminate; try congruence.

(** A number equal to zero (of either sign) is not greater than zero. *)
Lemma eq_zero_not_gt : forall x, strictEq x zero = true -> gt x zero = false.
Proof.
  intros x. unfold strictEq, gt.
  rewrite FloatAxioms.eqb_spec, ltb_spec, Prim2SF_zero.
  unfold SFeqb, SFltb. by_float_cases x.
Qed.

(** A number equal to zero (of either sign) is at least zero. *)
Lemma eq_zero_ge : forall x, strictEq x zero = true -> ge x zero = true.
Proof.
  intros x. unfold strictEq, ge.
  rewrite FloatAxioms.eqb_spec, leb_spec, Prim2SF_zero.
  unfold SFeqb, SFleb. by_float_cases x.
Qed.

(** NaN is not greater than zero. *)
Lemma nan_not_gt : forall x, isNaN x = true -> gt x zero = false.
Proof.
  intros x. unfold isNaN, is_nan, gt.
  rewrite FloatAxioms.eqb_spec, ltb_spec, Prim2SF_zero.
  unfold SFeqb, SFltb. by_float_cases x;
    rewrite ?Z.compare_refl, ?Pos.compare_cont_refl; simpl; congruence.
Qed.

(** A number below zero is not greater than zero. *)
Lemma lt_zero_not_gt : forall x, lt x zero = true -> gt x zero = false.
Proof.
  intros x. unfold lt, gt.
  rewrite !ltb_spec, Prim2SF_zero.
  unfold SFltb. by_float_cases x.
Qed.

End NumberFacts.

(** ** Sales-channel value expressions of the two assemblers *)

Module SalesValuePairing.

Import Store.

Definition toCommercial (channel : TopPartners.SalesChannel)
  : CommercialResponsibles.CommercialSalesChannel :=
  match channel with
  | TopPartners.all => CommercialResponsibles.all
  | TopPartners.direct => CommercialResponsibles.direct
  | TopPartners.indirect => CommercialResponsibles.indirect
  end.

(** A row of an indirect order type whose two value columns differ. *)
Definition sampleIndirectRow : FactRow :=
  mkFact 1 (Some (js "Ana")) (js "Permanent direct") (Some (js "Acme")) None
    (Some (js "Tools")) (Some (js "Hand")) (Some (js "T-1")) (Some 0)
    (Some (ofZ 1)) (Some (ofZ 7)) (Some (ofZ 3)).

(** C3, as stated, fails: for the channel "direct" the top-partners
    assembler and the commercial-responsibles assembler resolve the
    summed sales value to the very same expression, COALESCE(sales_altona, 0),
    and for "indirect" both resolve it to COALESCE(direct_sales, 0). *)
Lemma same_column_for_direct_and_indirect :
  TopPartners.resolveSalesValueExpression TopPartners.direct
  = CommercialResponsibles.resolveSalesValueExpression CommercialResponsibles.direct
  /\ TopPartners.resolveSalesValueExpression TopPartners.indirect
     = CommercialResponsibles.resolveSalesValueExpression CommercialResponsibles.indirect.
Proof. split; reflexivity. Qed.

(** C3 (amended).  For the same selected channel, "direct" or
    "indirect", the two assemblers resolve the summed sales value to the
    same stored column: "direct" is backed by sales_altona and "indirect"
    by direct_sales in both, so every sum over fact rows agrees.  What is
    opposite between the two files is only the naming of the constants
    (the expression called DIRECT in one is the one called INDIRECT in
    the other); the expressions for "all" differ. *)
Theorem sales_value_pairing_is_shared :
  (forall (engine : Engine) channel rows,
      match channel with
      | TopPartners.all => True
      | _ =>
          TopPartners.resolveSalesValueExpression channel
          = CommercialResponsibles.resolveSalesValueExpression (toCommercial channel)
          /\ sumOf (TopPartners.resolveSalesValueExpression channel) rows
             = sumOf (CommercialResponsibles.resolveSalesValueExpression (toCommercial channel)) rows
      end)
  /\ TopPartners.resolveSalesValueExpression TopPartners.direct
     = Coalesce (Col col_sales_altona) (Lit 0)
  /\ TopPartners.resolveSalesValueExpression TopPartners.indirect
     = Coalesce (Col col_direct_sales) (Lit 0)
  /\ TopPartners.SALES_VALUE_DIRECT_EXPRESSION
     = CommercialResponsibles.SALES_VALUE_INDIRECT_EXPRESSION
  /\ TopPartners.SALES_VALUE_INDIRECT_EXPRESSION
     = CommercialResponsibles.SALES_VALUE_DIRECT_EXPRESSION
  /\ eval (TopPartners.resolveSalesValueExpression TopPartners.all) sampleIndirectRow
     <> eval (CommercialResponsibles.resolveSalesValueExpression CommercialResponsibles.all)
          sampleIndirectRow.
Proof.
  split; [| repeat split; try reflexivity].
  - intros engine channel rows. destruct channel; [exact I | |]; split; reflexivity.
  - intros H.
    apply (f_equal (fun v => match v with Some x => strictEq x (ofZ 7) | None => false end)) in H.
    vm_compute in H. discriminate.
Qed.

End SalesValuePairing.

(** ** Shares *)

Module Shares.

Import Numbers MostSoldProducts.

Lemma toFiniteNumber0_finite : forall v, isFinite (toFiniteNumber0 v) = true.
Proof.
  intros v. unfold toFiniteNumber0, toFiniteNumber.
  destruct v as [| | x | n | s | [x|] |]; try reflexivity.
  - destruct (isFinite x) eqn:E; [exact E | reflexivity].
  - destruct (isFinite (ofZ n)) eqn:E; [exact E | reflexivity].
  - destruct s; [reflexivity|].
    destruct (JsString.length (trim (c :: s)) =? 0); [reflexivity|].
    destruct (isFinite (toNumber (trim (c :: s)))) eqn:E; [exact E | reflexivity].
  - destruct (isFinite x) eqn:E; [exact E | reflexivity].
Qed.

(** What a share is, given the value and the total it is taken of. *)
Definition shareOf (value total : number) (share : option number) : Prop :=
  (gt total zero = true -> share = Some (PrimFloat.div value total))
  /\ (gt total zero = false -> share = None)
  /\ (strictEq total zero = true -> share = None)
  /\ (lt total zero = true -> share = None)
  /\ (isNaN total = true -> share = None).

Lemma shareOf_guard : forall value total,
  shareOf value total
    (if gt total zero then Some (PrimFloat.div value total) else None).
Proof.
  intros value total. unfold shareOf.
  repeat split; intros H.
  - rewrite H. reflexivity.
  - rewrite H. reflexivity.
  - rewrite (@NumberFacts.eq_zero_not_gt _ H). reflexivity.
  - rewrite (@NumberFacts.lt_zero_not_gt _ H). reflexivity.
  - rewrite (@NumberFacts.nan_not_gt _ H). reflexivity.
Qed.

Lemma Forall_filterMap : forall (A B : Type) (f : A -> option B) (P : B -> Prop) l,
  (forall a b, f a = Some b -> P b) -> Forall P (filterMap f l).
Proof.
  intros A B f P l H. induction l as [|a l IH]; simpl; [constructor|].
  destruct (f a) eqn:E; [constructor; eauto | exact IH].
Qed.

(** The product row of the spec's negative example: a category whose
    quantities are returns. *)
Definition returnsRow : RawTopProductRow :=
  mkRawTop (Some (js "Returns")) None (Some (js "R-1"))
    (SNumber (ofZ (-2))) (SNumber (ofZ (-4))) (SBigint 1).

(** C5, as stated, fails: with a category total of -4, a finite total
    that is not zero, the share of a product with quantity -2 is null
    and not -2 / -4. *)
Lemma share_null_for_negative_total :
  exists row,
    mapTopProductRows [returnsRow] = [row]
    /\ isFinite (categoryTotalQuantity row) = true
    /\ strictEq (categoryTotalQuantity row) zero = false
    /\ shareWithinCategory row = None
    /\ PrimFloat.div (totalQuantity row) (categoryTotalQuantity row) = 0.5%float.
Proof.
  eexists. split; [reflexivity|]. repeat split; reflexivity.
Qed.

(** C5 (amended).  Every share computation (share within category, share
    of sales value, share of quantity) returns null when the group total
    is not greater than zero, that is when it is zero, negative or not a
    number, and returns exactly the metric value divided by that total
    when the total is greater than zero.  The category total of a product
    row is always finite. *)
Theorem share_null_unless_total_positive :
  (forall rows,
      Forall
        (fun row =>
           shareOf (totalQuantity row) (categoryTotalQuantity row) (shareWithinCategory row)
           /\ isFinite (categoryTotalQuantity row) = true)
        (mapTopProductRows rows))
  /\ (forall aggregateRows seriesByName,
        let cleaned := CommercialResponsibles.cleanAggregates aggregateRows in
        Forall
          (fun row =>
             shareOf (CommercialResponsibles.totalSalesValue row)
               (CommercialResponsibles.sumSalesValue cleaned)
               (CommercialResponsibles.shareOfSalesValue row)
             /\ shareOf (CommercialResponsibles.totalQuantity row)
                  (CommercialResponsibles.sumQuantity cleaned)
                  (CommercialResponsibles.shareOfQuantity row))
          (CommercialResponsibles.buildRows aggregateRows seriesByName)).
Proof.
  split.
  - intros rows. unfold mapTopProductRows. apply Forall_filterMap.
    intros raw row H. unfold mapTopProductRow in H.
    destruct (raw_product_category raw) as [category|]; [|discriminate].
    destruct (falsy category); [discriminate|].
    injection H as <-. simpl. split.
    + apply shareOf_guard.
    + apply toFiniteNumber0_finite.
  - intros aggregateRows seriesByName cleaned.
    unfold CommercialResponsibles.buildRows. fold cleaned.
    apply Forall_forall. intros row Hin.
    apply in_map_iff in Hin. destruct Hin as [agg [<- _]]. simpl.
    split; apply shareOf_guard.
Qed.

End Shares.

(** ** Deltas *)

Module Deltas.

Import DashboardSummary.

(** C6, as stated, fails: the reported value is not the percent change
    itself but the change rounded to four decimals.  From 3 to 1 the
    change is -66.66666666666666 and the reported value is -66.6667. *)
Lemma percent_delta_is_rounded :
  exists d,
    computePercentDelta (Some (ofZ 1)) (Some (ofZ 3)) = Some d
    /\ strictEq (value d) (percentChange (ofZ 1) (ofZ 3)) = false
    /\ value d = PrimFloat.div (ofZ (-666667)) (ofZ 10000).
Proof.
  eexists. split; [reflexivity|]. split; reflexivity.
Qed.

(** C6 (amended).  The percent delta is (current - previous) /
    abs(previous) * 100 rounded to four decimals, and is null when a
    value is missing, when previous is zero or not finite, or when the
    change is not finite; the absolute delta is current - previous
    rounded to four decimals and is null unless both values are present
    and finite.  In both modes the direction is "up" when the unrounded
    delta is >= 0, a delta of exactly zero included, and "down"
    otherwise.  A finite, non-zero previous value with a change that is
    not finite (from 2^-1022 to 2^1023 the quotient overflows) gives null
    as well. *)
Theorem delta_value_and_direction :
  (forall c p,
      computePercentDelta c None = None
      /\ computePercentDelta None p = None)
  /\ (forall c p,
        isFinite p = false \/ strictEq p zero = true ->
        computePercentDelta (Some c) (Some p) = None)
  /\ (forall c p,
        isFinite p = true -> strictEq p zero = false ->
        isFinite (percentChange c p) = true ->
        computePercentDelta (Some c) (Some p)
        = Some (mkDelta (round (percentChange c p) 4) percent
                  (if ge (percentChange c p) zero then up else down)))
  /\ (forall c p,
        isFinite (percentChange c p) = false ->
        computePercentDelta (Some c) (Some p) = None)
  /\ (isFinite 0x1p+1023%float = true
      /\ isFinite 0x1p-1022%float = true
      /\ strictEq 0x1p-1022%float zero = false
      /\ isFinite (percentChange 0x1p+1023%float 0x1p-1022%float) = false
      /\ computePercentDelta (Some 0x1p+1023%float) (Some 0x1p-1022%float) = None)
  /\ (forall c p d,
        computePercentDelta (Some c) (Some p) = Some d ->
        strictEq (percentChange c p) zero = true -> direction d = up)
  /\ (forall c p,
        computeAbsoluteDelta c None = None
        /\ computeAbsoluteDelta None p = None)
  /\ (forall c p,
        isFinite c = false \/ isFinite p = false ->
        computeAbsoluteDelta (Some c) (Some p) = None)
  /\ (forall c p,
        isFinite c = true -> isFinite p = true ->
        computeAbsoluteDelta (Some c) (Some p)
        = Some (mkDelta (round (PrimFloat.sub c p) 4) absolute
                  (if ge (PrimFloat.sub c p) zero then up else down)))
  /\ (forall c p d,
        computeAbsoluteDelta (Some c) (Some p) = Some d ->
        strictEq (PrimFloat.sub c p) zero = true -> direction d = up).
Proof.
  repeat split.
  - destruct c; reflexivity.
  - intros c p [H | H]; unfold computePercentDelta; rewrite H; simpl.
    + reflexivity.
    + rewrite orb_true_r. reflexivity.
  - intros c p Hp Hz Hd. unfold computePercentDelta.
    rewrite Hp, Hz, Hd. reflexivity.
  - intros c p Hd. unfold computePercentDelta.
    destruct (negb (isFinite p) || strictEq p zero); [reflexivity|].
    cbv zeta. rewrite Hd. reflexivity.
  - intros c p d H Hz. unfold computePercentDelta in H.
    destruct (negb (isFinite p) || strictEq p zero); [discriminate|].
    destruct (negb (isFinite (percentChange c p))); [discriminate|].
    injection H as <-. simpl. rewrite (@NumberFacts.eq_zero_ge _ Hz). reflexivity.
  - destruct c; reflexivity.
  - intros c p [H | H]; unfold computeAbsoluteDelta; rewrite H; simpl.
    + reflexivity.
    + rewrite orb_true_r. reflexivity.
  - intros c p Hc Hp. unfold computeAbsoluteDelta. rewrite Hc, Hp. reflexivity.
  - intros c p d H Hz. unfold computeAbsoluteDelta in H.
    destruct (negb (isFinite c) || negb (isFinite p)); [discriminate|].
    injection H as <-. simpl. rewrite (@NumberFacts.eq_zero_ge _ Hz). reflexivity.
Qed.

End Deltas.

(** ** Strings: equality test *)

Module StringFacts.

Lemma eqb_eq : forall a b, JsString.eqb a b = true <-> a = b.
Proof.
  induction a as [|x a IH]; destruct b as [|y b]; simpl; split; intros H;
    try reflexivity; try discriminate.
  - apply andb_true_iff in H. destruct H as [Hx Hr].
    apply N.eqb_eq in Hx. apply IH in Hr. congruence.
  - injection H as -> ->. rewrite N.eqb_refl. simpl. apply IH. reflexivity.
Qed.

Lemma eqb_refl : forall a, JsString.eqb a a = true.
Proof. intros a. apply eqb_eq. reflexivity. Qed.

Lemma eqb_neq : forall a b, JsString.eqb a b = false <-> a <> b.
Proof.
  intros a b. split; intros H.
  - intros E. apply eqb_eq in E. congruence.
  - destruct (JsString.eqb a b) eqn:E; [|reflexivity].
    apply eqb_eq in E. contradiction.
Qed.

Lemma textEqb_eq : forall a b, Store.textEqb a b = true <-> a = b.
Proof.
  intros [a|] [b|]; simpl; split; intros H; try reflexivity; try discriminate.
  - apply eqb_eq in H. congruence.
  - injection H as ->. apply eqb_refl.
Qed.

End StringFacts.

(** ** Arrays: stable sorting and de-duplication *)

Module ArrayFacts.

Import JsArray.

Section Sorting.

Variable A : Type.
Variable compare : A -> A -> Z.

Definition before (a b : A) : Prop := compare a b <= 0.

Lemma insertBy_perm : forall x l, Permutation (insertBy compare x l) (x :: l).
Proof.
  intros x l. induction l as [|y r IH]; simpl.
  - apply Permutation_refl.
  - destruct (compare x y <=? 0).
    + apply Permutation_refl.
    + eapply perm_trans; [apply perm_skip, IH | apply perm_swap].
Qed.

Lemma sortBy_perm : forall l, Permutation (sortBy compare l) l.
Proof.
  induction l as [|x r IH]; simpl.
  - apply perm_nil.
  - eapply perm_trans; [apply insertBy_perm | apply perm_skip, IH].
Qed.

Lemma sortBy_In : forall l x, In x (sortBy compare l) <-> In x l.
Proof.
  intros l x. split; apply Permutation_in;
    [apply sortBy_perm | apply Permutation_sym, sortBy_perm].
Qed.

Lemma sortBy_length : forall l, List.length (sortBy compare l) = List.length l.
Proof. intros l. apply Permutation_length, sortBy_perm. Qed.

Lemma sortBy_NoDup : forall l, NoDup l -> NoDup (sortBy compare l).
Proof.
  intros l H. eapply Permutation_NoDup; [apply Permutation_sym, sortBy_perm | exact H].
Qed.

(** An element that goes before everything stays in front. *)
Lemma insertBy_front : forall x l,
  (forall z, In z l -> before x z) -> insertBy compare x l = x :: l.
Proof.
  intros x [|y r] H; simpl; [reflexivity|].
  assert (Hy : before x y) by (apply H; left; reflexivity).
  unfold before in Hy. apply Z.leb_le in Hy. rewrite Hy. reflexivity.
Qed.

(** A sorted array is left as it is. *)
Lemma sortBy_sorted_id : forall l, StronglySorted before l -> sortBy compare l = l.
Proof.
  induction l as [|x r IH]; intros H; simpl; [reflexivity|].
  apply StronglySorted_inv in H. destruct H as [Hr Hx].
  rewrite (IH Hr). apply insertBy_front.
  intros z Hz. rewrite Forall_forall in Hx. apply Hx, Hz.
Qed.

Hypothesis total : forall a b, before a b \/ before b a.

Lemma insertBy_sorted : forall x l,
  Sorted before l -> Sorted before (insertBy compare x l).
Proof.
  intros x l. induction l as [|y r IH]; intros H; simpl.
  - constructor; constructor.
  - destruct (compare x y <=? 0) eqn:E.
    + constructor; [exact H|]. constructor. apply Z.leb_le, E.
    + apply Sorted_inv in H. destruct H as [Hr Hy].
      constructor; [apply IH, Hr|].
      assert (Hyx : before y x).
      { destruct (total x y) as [Hxy|Hyx]; [|exact Hyx].
        unfold before in Hxy. apply Z.leb_le in Hxy. congruence. }
      destruct r as [|z r']; simpl.
      * constructor. exact Hyx.
      * destruct (compare x z <=? 0); constructor.
        -- exact Hyx.
        -- inversion Hy; assumption.
Qed.

Lemma sortBy_sorted : forall l, Sorted before (sortBy compare l).
Proof.
  induction l as [|x r IH]; simpl; [constructor|].
  apply insertBy_sorted, IH.
Qed.

Hypothesis transitive : forall a b c, before a b -> before b c -> before a c.

Lemma sortBy_strongly_sorted : forall l, StronglySorted before (sortBy compare l).
Proof.
  intros l. apply Sorted_StronglySorted.
  - intros a b c. apply transitive.
  - apply sortBy_sorted.
Qed.

(** Filtering commutes with insertion into a sorted array ... *)
Lemma filter_insertBy : forall (keep : A -> bool) x l,
  StronglySorted before l ->
  filter keep (insertBy compare x l)
  = if keep x then insertBy compare x (filter keep l) else filter keep l.
Proof.
  intros keep x l. induction l as [|y r IH]; intros H; simpl.
  - destruct (keep x); reflexivity.
  - apply StronglySorted_inv in H. destruct H as [Hr Hy].
    destruct (compare x y <=? 0) eqn:E; simpl.
    + destruct (keep x) eqn:Kx; [|reflexivity].
      symmetry. apply insertBy_front.
      change (if keep y then y :: filter keep r else filter keep r)
        with (filter keep (y :: r)).
      intros z Hz. apply filter_In in Hz. destruct Hz as [Hz _].
      apply Z.leb_le in E. destruct Hz as [<- | Hz]; [exact E|].
      rewrite Forall_forall in Hy. eapply transitive; [exact E | apply Hy, Hz].
    + rewrite (IH Hr). destruct (keep y) eqn:Ky; destruct (keep x) eqn:Kx;
        simpl; rewrite ?E; reflexivity.
Qed.

(** ... and therefore with sorting: the kept elements come out in the
    order in which sorting them alone would put them. *)
Lemma filter_sortBy : forall (keep : A -> bool) l,
  filter keep (sortBy compare l) = sortBy compare (filter keep l).
Proof.
  intros keep l. induction l as [|x r IH]; simpl; [reflexivity|].
  rewrite filter_insertBy by apply sortBy_strongly_sorted.
  rewrite IH. destruct (keep x); reflexivity.
Qed.

End Sorting.

Section Dedup.

Variable A : Type.
Variable eqb : A -> A -> bool.
Hypothesis eqb_eq : forall a b, eqb a b = true <-> a = b.

Lemma existsb_eqb : forall x l, existsb (eqb x) l = true <-> In x l.
Proof.
  intros x l. rewrite existsb_exists. split.
  - intros [y [Hy E]]. apply eqb_eq in E. subst. exact Hy.
  - intros H. exists x. split; [exact H | apply eqb_eq; reflexivity].
Qed.

Lemma existsb_eqb_false : forall x l, existsb (eqb x) l = false <-> ~ In x l.
Proof.
  intros x l. rewrite <- existsb_eqb. destruct (existsb (eqb x) l); split;
    congruence || (intros H; exfalso; apply H; reflexivity) || discriminate.
Qed.

Lemma dedupAcc_In : forall l seen x,
  In x (dedupAcc eqb seen l) <-> In x l /\ ~ In x seen.
Proof.
  induction l as [|y r IH]; intros seen x; simpl.
  - tauto.
  - destruct (existsb (eqb y) seen) eqn:E.
    + apply existsb_eqb in E. rewrite IH. split.
      * intros [H1 H2]. tauto.
      * intros [[<- | H1] H2]; [contradiction | tauto].
    + apply existsb_eqb_false in E. simpl. rewrite IH. simpl. split.
      * intros [<- | [H1 H2]]; [tauto|]. tauto.
      * intros [[<- | H1] H2]; [tauto|].
        destruct (eqb y x) eqn:Eyx.
        -- apply eqb_eq in Eyx. tauto.
        -- right. split; [exact H1|]. intros [-> | H3]; [|contradiction].
           assert (eqb x x = true) by (apply eqb_eq; reflexivity). congruence.
Qed.

Lemma dedupAcc_NoDup : forall l seen, NoDup (dedupAcc eqb seen l).
Proof.
  induction l as [|y r IH]; intros seen; simpl; [constructor|].
  destruct (existsb (eqb y) seen); [apply IH|].
  constructor; [|apply IH].
  rewrite dedupAcc_In. simpl. tauto.
Qed.

Lemma dedup_In : forall l x, In x (dedup eqb l) <-> In x l.
Proof. intros l x. unfold dedup. rewrite dedupAcc_In. simpl. tauto. Qed.

Lemma dedup_NoDup : forall l, NoDup (dedup eqb l).
Proof. intros l. apply dedupAcc_NoDup. Qed.

(** Filtering by a predicate commutes with de-duplication. *)
Lemma filter_dedupAcc : forall (keep : A -> bool) l seen,
  filter keep (dedupAcc eqb seen l) = dedupAcc eqb (filter keep seen) (filter keep l).
Proof.
  intros keep. induction l as [|y r IH]; intros seen; simpl; [reflexivity|].
  destruct (keep y) eqn:K; simpl.
  - assert (E : existsb (eqb y) (filter keep seen) = existsb (eqb y) seen).
    { destruct (existsb (eqb y) seen) eqn:E1.
      - apply existsb_eqb in E1. apply existsb_eqb. apply filter_In. tauto.
      - apply existsb_eqb_false in E1. apply existsb_eqb_false.
        intros H. apply filter_In in H. tauto. }
    rewrite E. destruct (existsb (eqb y) seen); [apply IH|].
    simpl. rewrite K. rewrite IH. simpl. rewrite K. reflexivity.
  - destruct (existsb (eqb y) seen); [apply IH|].
    simpl. rewrite K. rewrite IH. simpl. rewrite K. reflexivity.
Qed.

Lemma filter_dedup : forall (keep : A -> bool) l,
  filter keep (dedup eqb l) = dedup eqb (filter keep l).
Proof. intros keep l. unfold dedup. rewrite filter_dedupAcc. reflexivity. Qed.

End Dedup.

End ArrayFacts.

(** ** Collation: the comparison is a total preorder *)

Module CollationFacts.

Import Collation.

Lemma lexCompare_antisym : forall a b, lexCompare b a = CompOpp (lexCompare a b).
Proof.
  induction a as [|x a IH]; destruct b as [|y b]; simpl; try reflexivity.
  rewrite (Z.compare_antisym x y). destruct (x ?= y); simpl; auto.
Qed.

Lemma lexCompare_refl : forall a, lexCompare a a = Eq.
Proof.
  induction a as [|x a IH]; simpl; [reflexivity|].
  rewrite Z.compare_refl. exact IH.
Qed.

Lemma lexCompare_eq : forall a b, lexCompare a b = Eq -> a = b.
Proof.
  induction a as [|x a IH]; destruct b as [|y b]; simpl; intros H;
    try reflexivity; try discriminate.
  destruct (x ?= y) eqn:E; try discriminate.
  apply Z.compare_eq in E. subst. f_equal. apply IH, H.
Qed.

Lemma lexCompare_lt_trans : forall a b c,
  lexCompare a b = Lt -> lexCompare b c = Lt -> lexCompare a c = Lt.
Proof.
  induction a as [|x a IH]; destruct b as [|y b]; destruct c as [|z c]; simpl;
    intros H1 H2; try reflexivity; try discriminate.
  destruct (x ?= y) eqn:Exy; try discriminate;
    destruct (y ?= z) eqn:Eyz; try discriminate.
  - apply Z.compare_eq in Exy, Eyz. subst. rewrite Z.compare_refl. eapply IH; eauto.
  - apply Z.compare_eq in Exy. subst. rewrite Eyz. reflexivity.
  - apply Z.compare_eq in Eyz. subst. rewrite Exy. reflexivity.
  - assert (E : (x ?= z) = Lt).
    { rewrite Z.compare_lt_iff in *. lia. }
    rewrite E. reflexivity.
Qed.

(** A comparison is at most [Eq]. *)
Definition notAfter (c : comparison) : Prop := c <> Gt.

Lemma lexCompare_le_trans : forall a b c,
  notAfter (lexCompare a b) -> notAfter (lexCompare b c) -> notAfter (lexCompare a c).
Proof.
  unfold notAfter. intros a b c H1 H2.
  destruct (lexCompare a b) eqn:E1; [| |congruence];
    destruct (lexCompare b c) eqn:E2; try congruence.
  - apply lexCompare_eq in E1. subst. rewrite E2. discriminate.
  - apply lexCompare_eq in E1. subst. rewrite E2. discriminate.
  - apply lexCompare_eq in E2. subst. rewrite E1. discriminate.
  - rewrite (lexCompare_lt_trans _ _ _ E1 E2). discriminate.
Qed.

Lemma collate_antisym : forall s n a b, collate s n b a = CompOpp (collate s n a b).
Proof.
  intros s n a b. unfold collate.
  rewrite (lexCompare_antisym (primaryKey n (Unicode.normalizeNFD a) None)).
  destruct (lexCompare (primaryKey n (Unicode.normalizeNFD a) None)
              (primaryKey n (Unicode.normalizeNFD b) None)); simpl; try reflexivity.
  destruct s; [reflexivity|]. apply lexCompare_antisym.
Qed.

Lemma collate_refl : forall s n a, collate s n a a = Eq.
Proof.
  intros s n a. unfold collate. rewrite lexCompare_refl.
  destruct s; [reflexivity | apply lexCompare_refl].
Qed.

Lemma collate_le_trans : forall s n a b c,
  notAfter (collate s n a b) -> notAfter (collate s n b c) -> notAfter (collate s n a c).
Proof.
  intros s n a b c. unfold collate, notAfter.
  set (pa := primaryKey n (Unicode.normalizeNFD a) None).
  set (pb := primaryKey n (Unicode.normalizeNFD b) None).
  set (pc := primaryKey n (Unicode.normalizeNFD c) None).
  destruct (lexCompare pa pb) eqn:E1; [| |congruence];
    destruct (lexCompare pb pc) eqn:E2; try congruence.
  - apply lexCompare_eq in E1, E2. rewrite E1, E2, lexCompare_refl.
    destruct s; [congruence|]. apply lexCompare_le_trans.
  - apply lexCompare_eq in E1. rewrite E1, E2. discriminate.
  - apply lexCompare_eq in E2. rewrite <- E2, E1. discriminate.
  - rewrite (lexCompare_lt_trans _ _ _ E1 E2). discriminate.
Qed.

Lemma localeCompare_le : forall s n a b,
  localeCompare s n a b <= 0 <-> notAfter (collate s n a b).
Proof.
  intros s n a b. unfold localeCompare, notAfter.
  destruct (collate s n a b); split; intros H; try lia; try discriminate; congruence.
Qed.

Lemma localeCompare_zero : forall s n a b,
  localeCompare s n a b = 0 <-> collate s n a b = Eq.
Proof.
  intros s n a b. unfold localeCompare.
  destruct (collate s n a b); split; intros H; try lia; try discriminate; reflexivity.
Qed.

Lemma localeCompare_total : forall s n a b,
  localeCompare s n a b <= 0 \/ localeCompare s n b a <= 0.
Proof.
  intros s n a b. unfold localeCompare. rewrite (collate_antisym s n a b).
  destruct (collate s n a b); simpl; lia.
Qed.

Lemma localeCompare_trans : forall s n a b c,
  localeCompare s n a b <= 0 -> localeCompare s n b c <= 0 -> localeCompare s n a c <= 0.
Proof.
  intros s n a b c. rewrite !localeCompare_le. apply collate_le_trans.
Qed.

End CollationFacts.

(** ** What the properties ask of the host *)

Module HostLaws.

Definition isAscii (c : codeUnit) : bool := (c <? 128)%N.

(** A-Z to a-z, any other code unit as it is. *)
Definition asciiLower (c : codeUnit) : codeUnit :=
  (if (65 <=? c) && (c <=? 90) then c + 32 else c)%N.

Section Laws.

Context {host : Host.Intl}.

(** On a text of Basic Latin the compatibility decomposition changes
    nothing and the case mapping takes A-Z to a-z. *)
Definition plainOnAscii : Prop :=
  forall s, forallb isAscii s = true ->
    normalizeNFKD s = s /\ toLowerCase s = List.map asciiLower s.

End Laws.

(** A comparison orders: the two ways of comparing two texts have
    opposite signs, and not being after is transitive. *)
Definition orders (compare : jsstring -> jsstring -> Z) : Prop :=
  (forall a b, compare a b < 0 <-> 0 < compare b a)
  /\ (forall a b c, compare a b <= 0 -> compare b c <= 0 -> compare a c <= 0).

Lemma orders_same : forall compare, orders compare -> forall a, compare a a = 0.
Proof. intros compare [H _] a. pose proof (H a a). lia. Qed.

Lemma orders_flip : forall compare, orders compare ->
  forall a b, 0 <= compare a b -> compare b a <= 0.
Proof. intros compare [H _] a b. pose proof (H a b). pose proof (H b a). lia. Qed.

Lemma orders_both : forall compare, orders compare ->
  forall a b, compare a b <= 0 -> compare b a <= 0 -> compare a b = 0.
Proof. intros compare [H _] a b. pose proof (H a b). pose proof (H b a). lia. Qed.

Lemma orders_total : forall compare, orders compare ->
  forall a b, compare a b <= 0 \/ compare b a <= 0.
Proof. intros compare [H _] a b. pose proof (H a b). pose proof (H b a). lia. Qed.

(** *** The Latin-1 host keeps the laws *)

Lemma lookup_outside : forall table compat c,
  forallb (fun e => negb (fst (fst e) =? c)%N) table = true ->
  Unicode.lookup table compat c = [c].
Proof.
  induction table as [|[[k canonical] mapping] table IH]; intros compat c H;
    simpl in *; [reflexivity|].
  apply andb_true_iff in H. destruct H as [Hk Ht].
  apply negb_true_iff in Hk. rewrite Hk. apply IH, Ht.
Qed.

Lemma decompositions_from_160 :
  forallb (fun e => (160 <=? fst (fst e))%N) Unicode.decompositions = true.
Proof. vm_compute. reflexivity. Qed.

Lemma lookup_basic : forall compat c,
  (c < 160)%N -> Unicode.lookup Unicode.decompositions compat c = [c].
Proof.
  intros compat c Hc. apply lookup_outside.
  apply forallb_forall. intros e He.
  pose proof (proj1 (forallb_forall _ _) decompositions_from_160 e He) as H.
  apply N.leb_le in H. apply negb_true_iff, N.eqb_neq. lia.
Qed.

Lemma lowerUnit_ascii : forall c, isAscii c = true -> Unicode.lowerUnit c = asciiLower c.
Proof.
  intros c H. unfold isAscii in H. apply N.ltb_lt in H.
  unfold Unicode.lowerUnit, asciiLower.
  destruct ((65 <=? c) && (c <=? 90))%N; [reflexivity|].
  destruct (N.leb_spec 192 c); [lia | reflexivity].
Qed.

Lemma latin1_plainOnAscii : plainOnAscii (host := latin1).
Proof.
  intros s H. cbn [normalizeNFKD toLowerCase latin1].
  unfold Unicode.normalizeNFKD, Unicode.toLowerCase.
  induction s as [|c s IH]; [split; reflexivity|].
  cbn [forallb] in H. apply andb_true_iff in H. destruct H as [Hc Hs].
  destruct (IH Hs) as [IH1 IH2].
  cbn [flat_map List.map]. rewrite IH1, IH2, (lowerUnit_ascii c Hc).
  rewrite lookup_basic by (unfold isAscii in Hc; apply N.ltb_lt in Hc; lia).
  split; reflexivity.
Qed.

Lemma latin1_orders : forall sensitivity numeric,
  orders (localeCompare (Intl := latin1) sensitivity numeric).
Proof.
  intros sensitivity numeric. cbn [localeCompare latin1]. split.
  - intros a b. unfold Collation.localeCompare.
    rewrite (CollationFacts.collate_antisym sensitivity numeric a b).
    destruct (Collation.collate sensitivity numeric a b); simpl; lia.
  - apply CollationFacts.localeCompare_trans.
Qed.

End HostLaws.

(** ** Filter option lists *)

Module FilterOptionLists.

Import JsArray ArrayFacts MostSoldProducts.

Lemma filterMap_In : forall (A B : Type) (f : A -> option B) l y,
  In y (filterMap f l) <-> exists x, In x l /\ f x = Some y.
Proof.
  intros A B f l y. induction l as [|a l IH]; simpl.
  - split; [tauto | intros [x [[] _]]].
  - destruct (f a) eqn:E; simpl; rewrite IH; split.
    + intros [<- | [x [H1 H2]]]; [exists a; tauto | exists x; tauto].
    + intros [x [[<- | H1] H2]]; [left; congruence | right; exists x; tauto].
    + intros [x [H1 H2]]. exists x. tauto.
    + intros [x [[<- | H1] H2]]; [congruence | exists x; tauto].
Qed.

Lemma pushUnique_In : forall years y x, In x (pushUnique years y) <-> In x years \/ x = y.
Proof.
  intros years y x. unfold pushUnique.
  destruct (existsb (Z.eqb y) years) eqn:E.
  - apply (existsb_eqb _ Z.eqb Z.eqb_eq) in E. split; [tauto|].
    intros [H | ->]; assumption.
  - rewrite in_app_iff. simpl. intuition congruence.
Qed.

Lemma pushUnique_NoDup : forall years y, NoDup years -> NoDup (pushUnique years y).
Proof.
  intros years y H. unfold pushUnique.
  destruct (existsb (Z.eqb y) years) eqn:E; [exact H|].
  apply (existsb_eqb_false _ Z.eqb Z.eqb_eq) in E.
  apply NoDup_rev in H. rewrite <- (rev_involutive (years ++ [y])).
  apply NoDup_rev. rewrite rev_app_distr. simpl. constructor; [|exact H].
  rewrite <- in_rev. exact E.
Qed.

Definition yearStep (normalize : scalar -> option Z) (years : list Z) (year : scalar)
  : list Z :=
  match normalize year with
  | Some normalized => pushUnique years normalized
  | None => years
  end.

Lemma fold_yearStep : forall normalize rows acc,
  NoDup acc ->
  NoDup (fold_left (yearStep normalize) rows acc)
  /\ forall y, In y (fold_left (yearStep normalize) rows acc)
               <-> In y acc \/ exists row, In row rows /\ normalize row = Some y.
Proof.
  intros normalize. induction rows as [|row rows IH]; intros acc Hacc; simpl.
  - split; [exact Hacc|]. intros y. split; [tauto|].
    intros [H | [row [[] _]]]. exact H.
  - assert (Hstep : NoDup (yearStep normalize acc row)).
    { unfold yearStep. destruct (normalize row); [apply pushUnique_NoDup|]; exact Hacc. }
    destruct (IH _ Hstep) as [Hnd Hin]. split; [exact Hnd|].
    intros y. rewrite Hin. unfold yearStep.
    destruct (normalize row) as [n|] eqn:E.
    + rewrite pushUnique_In. split.
      * intros [[H | ->] | [r [H1 H2]]]; [tauto | right; exists row; tauto |
                                           right; exists r; tauto].
      * intros [H | [r [[<- | H1] H2]]]; [tauto | left; right; congruence |
                                          right; exists r; tauto].
    + split.
      * intros [H | [r [H1 H2]]]; [tauto | right; exists r; tauto].
      * intros [H | [r [[<- | H1] H2]]]; [tauto | congruence | right; exists r; tauto].
Qed.

(** A sorted array without duplicates is strictly sorted. *)
Lemma strictly_sorted : forall (A : Type) (R S : A -> A -> Prop) l,
  (forall a b, R a b -> a <> b -> S a b) ->
  StronglySorted R l -> NoDup l -> StronglySorted S l.
Proof.
  intros A R S l H. induction l as [|x r IH]; intros Hs Hn; [constructor|].
  apply StronglySorted_inv in Hs. destruct Hs as [Hr Hx].
  inversion Hn as [|? ? Hnotin Hn']; subst.
  constructor; [apply IH; assumption|].
  rewrite Forall_forall in *. intros z Hz. apply H; [apply Hx, Hz|].
  intros ->. contradiction.
Qed.

Lemma descending_sorted : forall l,
  NoDup l -> StronglySorted Z.gt (sortBy (fun a b => b - a) l).
Proof.
  intros l H.
  apply (strictly_sorted Z (before Z (fun a b => b - a)) Z.gt).
  - unfold before. intros a b H1 H2. lia.
  - apply sortBy_strongly_sorted; unfold before; intros; lia.
  - apply sortBy_NoDup, H.
Qed.

Lemma ascending_sorted : forall l,
  NoDup l -> StronglySorted Z.lt (sortBy (fun a b => a - b) l).
Proof.
  intros l H.
  apply (strictly_sorted Z (before Z (fun a b => a - b)) Z.lt).
  - unfold before. intros a b H1 H2. lia.
  - apply sortBy_strongly_sorted; unfold before; intros; lia.
  - apply sortBy_NoDup, H.
Qed.

Lemma buildYearOptions_spec : forall rows year,
  NoDup (buildYearOptions rows year)
  /\ StronglySorted Z.gt (buildYearOptions rows year)
  /\ forall y, In y (buildYearOptions rows year)
               <-> (exists row, In row rows /\ normalizeYearValue row = Some y)
                   \/ year = YearIs y.
Proof.
  intros rows year. unfold buildYearOptions.
  change (fun years year0 =>
            match normalizeYearValue year0 with
            | Some normalized => pushUnique years normalized
            | None => years
            end) with (yearStep normalizeYearValue).
  destruct (@fold_yearStep normalizeYearValue rows [] (NoDup_nil Z)) as [Hnd Hin].
  set (years := fold_left (yearStep normalizeYearValue) rows []) in *.
  assert (Hnd' : NoDup (match year with YearIs y => pushUnique years y | YearAll => years end)).
  { destruct year; [exact Hnd | apply pushUnique_NoDup, Hnd]. }
  split; [apply sortBy_NoDup, Hnd'|]. split; [apply descending_sorted, Hnd'|].
  intros y. rewrite sortBy_In. destruct year as [|sel].
  - rewrite Hin. simpl. split; [tauto|]. intros [H | H]; [tauto | discriminate].
  - rewrite pushUnique_In, Hin. simpl. split.
    + intros [[[] | H] | ->]; [tauto | right; reflexivity].
    + intros [H | H]; [tauto | injection H as ->; tauto].
Qed.

(** What the sorting of names needs of the host: of two names, one is
    not after the other. *)
Definition comparesAll (compare : jsstring -> jsstring -> Z) : Prop :=
  forall a b, compare a b <= 0 \/ compare b a <= 0.

Lemma latin1_comparesAll : comparesAll (compareBase (host := latin1)).
Proof. intros a b. apply CollationFacts.localeCompare_total. Qed.

(** The option lists of the spec's counterexample: two stored years and
    two stored categories, a selected year 2030 and a selected category
    "Melons" that the store does not hold. *)
Definition storedYears : list scalar := [SNumber (ofZ 2023); SNumber (ofZ 2024)].
Definition storedCategories : list (option jsstring) := [Some (js "Apples"); Some (js "Pears")].

(** C9, as stated, fails: the year options of the commercial-responsibles
    assembler are the stored years in ascending order, without the "all"
    option (the list holds numbers only) and without the selected year
    2030; and the category options of the most-sold-products assembler
    put the selected category "Melons", unknown to the store, in front of
    the sorted names (here on the Latin-1 host, and on any host by the
    theorem below), so the list is not in ascending order. *)
Lemma options_without_selection_or_order :
  CommercialResponsibles.yearFilterPayload storedYears (Some 2030)
  = CommercialResponsibles.mkYearFilter (Some 2030) [2023; 2024]
  /\ ~ In 2030
       (CommercialResponsibles.yearOptions
          (CommercialResponsibles.yearFilterPayload storedYears (Some 2030)))
  /\ buildCategoryOptions (host := latin1) storedCategories (js "Melons")
     = [js "Melons"; js "Apples"; js "Pears"]
  /\ compareBase (host := latin1) (js "Melons") (js "Apples") = 1.
Proof.
  repeat split; try reflexivity.
  vm_compute. intros [H | [H | []]]; discriminate.
Qed.

(** C9 (amended).  On a host whose base-sensitivity comparison never
    puts each of two names after the other: the most-sold-products
    assembler's year and category option lists start with the synthetic
    "all" option and contain the selected value, or for a category a
    stored name that the host compares equal to it.  Its year list holds
    the normalized stored years and the selected year, de-duplicated and
    in strictly descending numeric order; its category list holds the
    non-blank stored names, de-duplicated and ascending in the host's
    comparison, with a selected category other than "all" that compares
    equal to no stored name put in front of them; the selection "all"
    adds nothing.  The commercial-responsibles year options are the
    normalized stored years, de-duplicated and in strictly ascending
    order, whatever year is selected. *)
Theorem filter_options_content :
  forall (host : Host.Intl),
  comparesAll compareBase ->
  (forall rows year,
      options (yearFilterPayload rows year)
      = js "all" :: List.map ofInteger (buildYearOptions rows year)
      /\ In (selected (yearFilterPayload rows year)) (options (yearFilterPayload rows year))
      /\ NoDup (buildYearOptions rows year)
      /\ StronglySorted Z.gt (buildYearOptions rows year)
      /\ forall y, In y (buildYearOptions rows year)
                   <-> (exists row, In row rows /\ normalizeYearValue row = Some y)
                       \/ year = YearIs y)
  /\ (forall rows category,
        options (categoryFilterPayload rows category)
        = js "all" :: buildCategoryOptions rows category
        /\ exists sorted,
             NoDup sorted
             /\ Sorted (fun a b => compareBase a b <= 0) sorted
             /\ (forall c, In c sorted <-> exists row, In row rows /\ keepCategory row = Some c)
             /\ (category = js "all" -> buildCategoryOptions rows category = sorted)
             /\ (category <> js "all" ->
                 (buildCategoryOptions rows category = sorted
                  /\ exists c, In c sorted /\ compareBase c category = 0)
                 \/ (buildCategoryOptions rows category = category :: sorted
                     /\ forall c, In c sorted -> compareBase c category <> 0)))
  /\ (forall rows year,
        CommercialResponsibles.yearOptions (CommercialResponsibles.yearFilterPayload rows year)
        = CommercialResponsibles.loadAvailableYears rows
        /\ NoDup (CommercialResponsibles.loadAvailableYears rows)
        /\ StronglySorted Z.lt (CommercialResponsibles.loadAvailableYears rows)
        /\ forall y, In y (CommercialResponsibles.loadAvailableYears rows)
                     <-> exists row, In row rows
                                     /\ CommercialResponsibles.normalizeYearValue row = Some y).
Proof.
  intros host Htotal. split; [|split].
  - intros rows year. destruct (buildYearOptions_spec rows year) as [Hnd [Hs Hin]].
    split; [reflexivity|]. split; [|tauto].
    unfold yearFilterPayload. simpl. destruct year as [|y].
    + left. reflexivity.
    + right. apply in_map. apply Hin. right. reflexivity.
  - intros rows category. split; [reflexivity|].
    exists (sortBy compareBase (dedup JsString.eqb (filterMap keepCategory rows))).
    split; [apply sortBy_NoDup, dedup_NoDup, StringFacts.eqb_eq|].
    split; [apply (sortBy_sorted _ _ Htotal)|].
    split.
    { intros c. rewrite sortBy_In, (dedup_In _ JsString.eqb StringFacts.eqb_eq).
      apply filterMap_In. }
    unfold buildCategoryOptions. split.
    { intros ->. reflexivity. }
    intros Hall.
    destruct (JsString.eqb category (js "all")) eqn:Ea.
    { apply StringFacts.eqb_eq in Ea. contradiction. }
    cbn [negb andb].
    destruct (existsb _ _) eqn:E; simpl.
    + left. split; [reflexivity|].
      apply existsb_exists in E. destruct E as [c [Hc E]].
      exists c. split; [exact Hc | apply Z.eqb_eq, E].
    + right. split; [reflexivity|].
      intros c Hc Hz.
      assert (existsb (fun category0 => compareBase category0 category =? 0)
                (sortBy compareBase (dedup JsString.eqb (filterMap keepCategory rows)))
              = true).
      { apply existsb_exists. exists c. split; [exact Hc | apply Z.eqb_eq, Hz]. }
      congruence.
  - intros rows year. split; [reflexivity|].
    unfold CommercialResponsibles.loadAvailableYears.
    assert (Hnd : NoDup (dedup Z.eqb (filterMap CommercialResponsibles.normalizeYearValue rows)))
      by apply dedup_NoDup, Z.eqb_eq.
    split; [apply sortBy_NoDup, Hnd|]. split; [apply ascending_sorted, Hnd|].
    intros y. rewrite sortBy_In, (dedup_In _ Z.eqb Z.eqb_eq). apply filterMap_In.
Qed.

(** The theorem on the Latin-1 host, for the stored categories above and
    the selection "Melons"; beside it, what the selection "all" gives
    there, also when it is what [parseCategory] makes of the query text
    " all ": the sorted names as they are. *)
Lemma filter_options_content_on_latin1 :
  comparesAll (compareBase (host := latin1))
  /\ options (categoryFilterPayload (host := latin1) storedCategories (js "all"))
     = [js "all"; js "Apples"; js "Pears"]
  /\ categoryFilterPayload (host := latin1) storedCategories
       (parseCategory (host := latin1) (Some (js " all ")))
     = mkFilter (js "all") [js "all"; js "Apples"; js "Pears"]
  /\ exists sorted,
       NoDup sorted
       /\ Sorted (fun a b => compareBase (host := latin1) a b <= 0) sorted
       /\ (buildCategoryOptions (host := latin1) storedCategories (js "Melons") = sorted
           \/ buildCategoryOptions (host := latin1) storedCategories (js "Melons")
              = js "Melons" :: sorted).
Proof.
  split; [exact latin1_comparesAll|]. split; [reflexivity|]. split; [reflexivity|].
  destruct (filter_options_content latin1 latin1_comparesAll) as [_ [H _]].
  destruct (H storedCategories (js "Melons")) as [_ [sorted [Hn [Hs [_ [_ Hsel]]]]]].
  exists sorted. split; [exact Hn|]. split; [exact Hs|].
  assert (Hne : js "Melons" <> js "all").
  { intros E. vm_compute in E. discriminate E. }
  destruct (Hsel Hne) as [[Hb _] | [Hb _]]; [left | right]; exact Hb.
Defined.

End FilterOptionLists.

(** ** Query-parameter validation *)

Module ParameterValidation.

Import Numbers Routes MostSoldProducts.

(** A year the most-sold-products view accepts. *)
Definition acceptableYear (numeric : number) : bool :=
  isInteger numeric && negb (lt numeric (ofZ 1900)) && negb (gt numeric (ofZ 2200)).

(** C10, as stated, fails: the paging parameters have no validation
    error at all.  The text "abc" for the page gives the default page 1,
    "-3" for the page size is clamped to 1, and "2.5" falls back to the
    default size 50; the route-local parser does the same (and lets the
    fractional 2.5 through).  A limit of "2.7" is truncated to 2 and a
    limit of "100" is clamped to 25, both without an error.  The year
    parsers of the top-partners and commercial-responsibles routes take
    "2024.9" for 2024 and "-5" for -5 without an error (the latter on
    the Latin-1 host, on which the text is lower-cased); the year -5 is
    refused afterwards, by the assembler. *)
Lemma invalid_paging_text_is_coerced :
  parseSalesListQuery (Some (js "abc")) (Some (js "-3")) = mkQuery (ofZ 1) (ofZ 1)
  /\ parseBoundedInteger (Some (js "2.5")) DEFAULT_PAGE_SIZE MIN_PAGE_SIZE MAX_PAGE_SIZE
     = ofZ 50
  /\ parseIntParam (Some (js "abc")) (ofZ 1) (ofZ 1) (ofZ 10000) = ofZ 1
  /\ parseIntParam (Some (js "0")) (ofZ 1) (ofZ 1) (ofZ 10000) = ofZ 1
  /\ parseIntParam (Some (js "2.5")) (ofZ 50) (ofZ 1) (ofZ 500) = 2.5%float
  /\ topPartnersLimit (Some (js "2.7")) = Ok 2
  /\ topPartnersLimit (Some (js "100")) = Ok 25
  /\ parseOptionalYear (Some (js "2024.9")) = Ok (Some 2024)
  /\ parseOptionalYear (Some (js "-5")) = Ok (Some (-5))
  /\ parseCommercialYear (host := latin1) (Some (js "2024.9")) = Ok (Some 2024)
  /\ parseCommercialYear (host := latin1) (Some (js "-5")) = Ok (Some (-5)).
Proof. repeat split; reflexivity. Qed.

Section AnyHost.

Context {host : Host.Intl}.

(** The texts that a parser treats as the literal "all". *)
Definition isAll (v : jsstring) : bool := JsString.eqb (toLowerCase v) (js "all").

Definition monthsAgoMessage : jsstring :=
  js "monthsAgo must be a positive integer (>= 1).".

Definition notFiniteLimitMessage (v : jsstring) : jsstring :=
  js "Invalid numeric parameter. Expected a finite number, received '" ++ v ++ js "'.".

Definition notPositiveLimitMessage (received : jsstring) : jsstring :=
  js "Numeric parameters must be positive integers. Received '" ++ received ++ js "'.".

Definition commercialYearMessage (v : jsstring) : jsstring :=
  js "Invalid year parameter. Expected 'all' or a year number, received '" ++ v ++ js "'.".

Definition optionalYearMessage (v : jsstring) : jsstring :=
  js "Invalid year parameter. Expected a four-digit year, received '" ++ v ++ js "'.".

Definition yearRangeMessage (received : jsstring) : jsstring :=
  js "Year must be between 1900 and 2200. Received " ++ received ++ js ".".

Definition yearBoundsRangeMessage (received : jsstring) : jsstring :=
  js "Year bounds must be between 1900 and 2200. Received " ++ received ++ js ".".

Ltac unfold_parser :=
  unfold parseYear, parseSalesChannel, parseTopPartnersOrderBy, parseView,
    parseCommercialOrderBy, parseCommercialYear, parseOptionalPositiveInteger,
    parseOptionalYear, parseMonthsAgo, parseKind, blank, isAll, acceptableYear,
    monthsAgoMessage, notFiniteLimitMessage, notPositiveLimitMessage,
    commercialYearMessage, optionalYearMessage in *.

Ltac split_ifs :=
  repeat match goal with
    | |- context [if ?b then _ else _] => destruct b eqn:?
    | H : context [if ?b then _ else _] |- _ => destruct b eqn:?
    end.

(** C10 (amended).  For the year of the most-sold-products view and the
    enumeration parameters (salesChannel, orderBy, view) and monthsAgo,
    a text that is not blank and not valid raises a validation error
    with the parameter's own message, and the default is returned only
    for absent or blank input (or the literal "all").  The year parsers
    of the commercial-responsibles and top-partners routes raise, each
    with its own message, only when the text is not a finite number; a
    finite one is truncated toward zero, whatever its range, and it is
    the assembler that refuses, with its own message, a year that is
    then not one of 1900 to 2200.  A limit raises when its text is not a
    finite number or truncates to zero or less; a fractional limit is
    truncated toward zero and a limit above the maximum is clamped to
    it.  The paging parameters never raise: with the shared parser, text
    that is not an integer falls back to the default and integers
    outside the bounds are clamped to them; with the route-local parser,
    text that is not a finite number falls back to the default and any
    finite number, fractional or not, is held between the bounds. *)
Theorem invalid_parameters_rejected_or_clamped :
  (* year of the most-sold-products view *)
  (forall v,
      (blank (Some v) = false -> isAll v = false -> acceptableYear (toNumber v) = false ->
       parseYear (Some v) = Err BadRequestError invalidYearMessage)
      /\ (parseYear (Some v) = Ok YearAll -> blank (Some v) = true \/ isAll v = true)
      /\ (forall y, parseYear (Some v) = Ok (YearIs y) ->
                    acceptableYear (toNumber v) = true /\ y = truncZ (toNumber v)))
  (* enumerations *)
  /\ (forall v,
        (blank (Some v) = false ->
         existsb (JsString.eqb (toLowerCase (trim v))) [js "all"; js "direct"; js "indirect"]
         = false ->
         parseSalesChannel (Some v) = Err RangeError invalidSalesChannelMessage)
        /\ (parseSalesChannel (Some v) = Ok TopPartners.all ->
            blank (Some v) = true \/ toLowerCase (trim v) = js "all"))
  /\ (forall v,
        (falsy v = false ->
         existsb (JsString.eqb (toLowerCase (trim v))) [js "sales"; js "quantity"] = false ->
         parseTopPartnersOrderBy (Some v) = Err RangeError invalidTopOrderByMessage)
        /\ (parseTopPartnersOrderBy (Some v) = Ok TopPartners.sales ->
            falsy v = true \/ toLowerCase (trim v) = js "sales"))
  /\ (forall v,
        (blank (Some v) = false ->
         existsb (JsString.eqb (toLowerCase (trim v))) [js "yearly"; js "monthly"] = false ->
         parseView (Some v) = Err RangeError invalidViewMessage)
        /\ (parseView (Some v) = Ok yearly ->
            blank (Some v) = true \/ toLowerCase (trim v) = js "yearly"))
  /\ (forall v,
        (blank (Some v) = false ->
         existsb (JsString.eqb (toLowerCase (trim v))) [js "sales"; js "quantity"; js "name"]
         = false ->
         parseCommercialOrderBy (Some v) = Err RangeError invalidCommercialOrderByMessage)
        /\ (parseCommercialOrderBy (Some v) = Ok bySales ->
            blank (Some v) = true \/ toLowerCase (trim v) = js "sales"))
  /\ (forall v,
        (falsy v = false ->
         isInteger (toNumber v) = false \/ lt (toNumber v) (ofZ 1) = true ->
         parseMonthsAgo (Some v) = Err PlainError monthsAgoMessage)
        /\ (forall n, parseMonthsAgo (Some v) = Ok n ->
                      falsy v = true /\ n = DEFAULT_MONTHS_AGO
                      \/ isInteger (toNumber v) = true /\ n = truncZ (toNumber v)))
  (* years of the commercial-responsibles and top-partners routes *)
  /\ (forall v,
        (blank (Some v) = false -> JsString.eqb (toLowerCase (trim v)) (js "all") = false ->
         isFinite (toNumber v) = false ->
         parseCommercialYear (Some v) = Err RangeError (commercialYearMessage v))
        /\ (blank (Some v) = false -> JsString.eqb (toLowerCase (trim v)) (js "all") = false ->
            isFinite (toNumber v) = true ->
            parseCommercialYear (Some v) = Ok (Some (truncZ (toNumber v))))
        /\ (parseCommercialYear (Some v) = Ok None ->
            blank (Some v) = true \/ toLowerCase (trim v) = js "all"))
  /\ (forall v,
        (blank (Some v) = false -> isFinite (toNumber v) = false ->
         parseOptionalYear (Some v) = Err RangeError (optionalYearMessage v))
        /\ (blank (Some v) = false -> isFinite (toNumber v) = true ->
            parseOptionalYear (Some v) = Ok (Some (truncZ (toNumber v))))
        /\ (parseOptionalYear (Some v) = Ok None -> blank (Some v) = true))
  /\ (forall y,
        isFinite y = true ->
        (truncZ y < 1900 \/ 2200 < truncZ y ->
         CommercialResponsibles.normalizeYearBound (Some y)
         = Err RangeError (yearRangeMessage (ofIntegral (truncZ y)))
         /\ TopPartners.normalizeYearBound (Some y)
            = Err RangeError (yearBoundsRangeMessage (ofIntegral (truncZ y))))
        /\ (1900 <= truncZ y <= 2200 ->
            CommercialResponsibles.normalizeYearBound (Some y) = Ok (Some (truncZ y))
            /\ TopPartners.normalizeYearBound (Some y) = Ok (Some (truncZ y))))
  (* limits *)
  /\ (forall v,
        (blank (Some v) = false -> isFinite (toNumber v) = false ->
         parseOptionalPositiveInteger (Some v) = Err RangeError (notFiniteLimitMessage v))
        /\ (blank (Some v) = false -> isFinite (toNumber v) = true ->
            truncZ (toNumber v) <= 0 ->
            parseOptionalPositiveInteger (Some v)
            = Err RangeError (notPositiveLimitMessage (ofIntegral (truncZ (toNumber v)))))
        /\ (blank (Some v) = false -> isFinite (toNumber v) = true ->
            0 < truncZ (toNumber v) ->
            parseOptionalPositiveInteger (Some v) = Ok (Some (truncZ (toNumber v))))
        /\ (parseOptionalPositiveInteger (Some v) = Ok None -> blank (Some v) = true))
  /\ (forall l,
        isFinite l = true ->
        TopPartners.normalizeLimit (Some l) = Z.max 1 (Z.min 25 (truncZ l))
        /\ CommercialResponsibles.normalizeLimit (Some l)
           = Some (Z.max 1 (Z.min 250 (truncZ l))))
  (* paging *)
  /\ (forall raw fallback min max,
        (isInteger (toNumber raw) = false ->
         parseBoundedInteger (Some raw) fallback min max = clampInteger fallback min max)
        /\ ((JsString.length (trim raw) =? 0) = false ->
            isInteger (toNumber raw) = true ->
            parseBoundedInteger (Some raw) fallback min max
            = clampInteger (toNumber raw) min max))
  /\ (forall value min max,
        isInteger value = true ->
        clampInteger value min max
        = if lt value min then min else if gt value max then max else value)
  /\ (forall raw fallback min max,
        (isFinite (toNumber raw) = false ->
         parseIntParam (Some raw) fallback min max = fallback)
        /\ (falsy raw = false -> isFinite (toNumber raw) = true ->
            parseIntParam (Some raw) fallback min max
            = JsNumber.min (JsNumber.max (toNumber raw) min) max)).
Proof.
  repeat apply conj.
  - intros v. repeat apply conj.
    + intros Hb Ha Hy. unfold_parser. rewrite Hb, Ha. simpl.
      apply andb_false_iff in Hy. destruct Hy as [Hy | Hy].
      * apply andb_false_iff in Hy. destruct Hy as [Hy | Hy].
        -- rewrite Hy. reflexivity.
        -- apply negb_false_iff in Hy. rewrite Hy, orb_true_r. reflexivity.
      * apply negb_false_iff in Hy. rewrite Hy, !orb_true_r. reflexivity.
    + intros H. unfold_parser.
      destruct (falsy v || (JsString.length (trim v) =? 0)) eqn:Hb; [left; reflexivity|].
      destruct (JsString.eqb (toLowerCase v) (js "all")) eqn:Ha; [right; reflexivity|].
      simpl in H. split_ifs; discriminate.
    + intros y H. unfold_parser.
      destruct (falsy v || (JsString.length (trim v) =? 0)); [discriminate|].
      destruct (JsString.eqb (toLowerCase v) (js "all")); [discriminate|].
      simpl in H.
      destruct (isInteger (toNumber v)); [|discriminate].
      destruct (lt (toNumber v) (ofZ 1900)); [discriminate|].
      destruct (gt (toNumber v) (ofZ 2200)); [discriminate|].
      simpl in H. injection H as <-. split; reflexivity.
  - intros v. split.
    + intros Hb He. unfold_parser. rewrite Hb. simpl in He.
      repeat (apply orb_false_iff in He; destruct He as [? He]).
      repeat match goal with H : JsString.eqb _ _ = false |- _ => rewrite H; clear H end.
      reflexivity.
    + intros H. unfold_parser.
      destruct (falsy v || (JsString.length (trim v) =? 0)); [left; reflexivity|].
      destruct (JsString.eqb (toLowerCase (trim v)) (js "all")) eqn:E.
      * right. apply StringFacts.eqb_eq, E.
      * split_ifs; discriminate.
  - intros v. split.
    + intros Hb He. unfold_parser. rewrite Hb. simpl in He.
      repeat (apply orb_false_iff in He; destruct He as [? He]).
      repeat match goal with H : JsString.eqb _ _ = false |- _ => rewrite H; clear H end.
      reflexivity.
    + intros H. unfold_parser.
      destruct (falsy v); [left; reflexivity|].
      destruct (JsString.eqb (toLowerCase (trim v)) (js "sales")) eqn:E.
      * right. apply StringFacts.eqb_eq, E.
      * split_ifs; discriminate.
  - intros v. split.
    + intros Hb He. unfold_parser. rewrite Hb. simpl in He.
      repeat (apply orb_false_iff in He; destruct He as [? He]).
      repeat match goal with H : JsString.eqb _ _ = false |- _ => rewrite H; clear H end.
      reflexivity.
    + intros H. unfold_parser.
      destruct (falsy v || (JsString.length (trim v) =? 0)); [left; reflexivity|].
      destruct (JsString.eqb (toLowerCase (trim v)) (js "yearly")) eqn:E.
      * right. apply StringFacts.eqb_eq, E.
      * split_ifs; discriminate.
  - intros v. split.
    + intros Hb He. unfold_parser. rewrite Hb. simpl in He.
      repeat (apply orb_false_iff in He; destruct He as [? He]).
      repeat match goal with H : JsString.eqb _ _ = false |- _ => rewrite H; clear H end.
      reflexivity.
    + intros H. unfold_parser.
      destruct (falsy v || (JsString.length (trim v) =? 0)); [left; reflexivity|].
      destruct (JsString.eqb (toLowerCase (trim v)) (js "sales")) eqn:E.
      * right. apply StringFacts.eqb_eq, E.
      * split_ifs; discriminate.
  - intros v. split.
    + intros Hb [H | H]; unfold_parser; rewrite Hb, H; simpl.
      * reflexivity.
      * rewrite orb_true_r. reflexivity.
    + intros n H. unfold_parser.
      destruct (falsy v); [left; injection H as <-; split; reflexivity|].
      destruct (isInteger (toNumber v)); [|discriminate].
      simpl in H. destruct (lt (toNumber v) (ofZ 1)); [discriminate|].
      injection H as <-. right. split; reflexivity.
  - intros v. repeat apply conj.
    + intros Hb Ha Hf. unfold_parser. rewrite Hb, Ha, Hf. reflexivity.
    + intros Hb Ha Hf. unfold_parser. rewrite Hb, Ha, Hf. reflexivity.
    + intros H. unfold_parser.
      destruct (falsy v || (JsString.length (trim v) =? 0)); [left; reflexivity|].
      destruct (JsString.eqb (toLowerCase (trim v)) (js "all")) eqn:E.
      * right. apply StringFacts.eqb_eq, E.
      * simpl in H. split_ifs; discriminate.
  - intros v. repeat apply conj.
    + intros Hb Hf. unfold_parser. rewrite Hb, Hf. reflexivity.
    + intros Hb Hf. unfold_parser. rewrite Hb, Hf. reflexivity.
    + intros H. unfold_parser.
      destruct (falsy v || (JsString.length (trim v) =? 0)); [reflexivity|].
      split_ifs; discriminate.
  - intros y Hf.
    unfold CommercialResponsibles.normalizeYearBound, TopPartners.normalizeYearBound,
      CommercialResponsibles.MIN_ALLOWED_YEAR, CommercialResponsibles.MAX_ALLOWED_YEAR,
      TopPartners.MIN_ALLOWED_YEAR, TopPartners.MAX_ALLOWED_YEAR,
      yearRangeMessage, yearBoundsRangeMessage.
    rewrite Hf. cbn [negb].
    destruct (Z.ltb_spec (truncZ y) 1900) as [L1 | L1];
      destruct (Z.ltb_spec 2200 (truncZ y)) as [L2 | L2];
      cbn [orb]; split; intros R; try lia; split; reflexivity.
  - intros v. repeat apply conj.
    + intros Hb Hf. unfold_parser. rewrite Hb, Hf. reflexivity.
    + intros Hb Hf Hz. unfold_parser. rewrite Hb, Hf. simpl.
      apply Z.leb_le in Hz. rewrite Hz. reflexivity.
    + intros Hb Hf Hz. unfold_parser. rewrite Hb, Hf. simpl.
      apply Z.leb_gt in Hz. rewrite Hz. reflexivity.
    + intros H. unfold_parser.
      destruct (falsy v || (JsString.length (trim v) =? 0)); [reflexivity|].
      split_ifs; discriminate.
  - intros l Hf. unfold TopPartners.normalizeLimit, CommercialResponsibles.normalizeLimit,
      TopPartners.MAX_TOP_LIMIT, CommercialResponsibles.MAX_LIMIT.
    rewrite Hf. simpl. split.
    + destruct (truncZ l <? 1) eqn:E1; [apply Z.ltb_lt in E1; lia|].
      apply Z.ltb_ge in E1.
      destruct (25 <? truncZ l) eqn:E2; [apply Z.ltb_lt in E2 | apply Z.ltb_ge in E2]; lia.
    + destruct (truncZ l <? 1) eqn:E1; [apply Z.ltb_lt in E1; f_equal; lia|].
      apply Z.ltb_ge in E1.
      destruct (250 <? truncZ l) eqn:E2; [apply Z.ltb_lt in E2 | apply Z.ltb_ge in E2];
        f_equal; lia.
  - intros raw fallback min max. split.
    + intros H. unfold parseBoundedInteger. rewrite H. simpl.
      destruct (JsString.length (trim raw) =? 0); reflexivity.
    + intros Hb H. unfold parseBoundedInteger. rewrite Hb, H. reflexivity.
  - intros value min max H. unfold clampInteger. rewrite H. reflexivity.
  - intros raw fallback min max. split.
    + intros H. unfold parseIntParam. rewrite H. destruct (falsy raw); reflexivity.
    + intros Hb H. unfold parseIntParam. rewrite Hb, H. reflexivity.
Qed.

End AnyHost.

End ParameterValidation.

(** ** The calendar: day numbers and civil dates *)

Module CalendarFacts.

Import JsDate.

(** A property checked on every integer of a range. *)
Fixpoint checkRange (count : nat) (from : Z) (check : Z -> bool) : bool :=
  match count with
  | O => true
  | S n => check from && checkRange n (from + 1) check
  end.

Lemma checkRange_sound : forall count from check,
  checkRange count from check = true ->
  forall i, from <= i < from + Z.of_nat count -> check i = true.
Proof.
  induction count as [|n IH]; intros from check H i Hi.
  - simpl in Hi. lia.
  - simpl in H. apply andb_true_iff in H. destruct H as [H0 Hrest].
    destruct (Z.eq_dec i from) as [->|Hne]; [exact H0|].
    apply (IH (from + 1) check Hrest). lia.
Qed.

(** The civil date inside a 400-year era, from the day of the era. *)
Definition eraParts (doe : Z) : Z * Z * Z :=
  let yoe := (doe - doe / 1460 + doe / 36524 - doe / 146096) / 365 in
  let doy := doe - (365 * yoe + yoe / 4 - yoe / 100) in
  let mp := (5 * doy + 2) / 153 in
  (yoe, mp, doy - (153 * mp + 2) / 5 + 1).

Definition eraPartsOk (doe : Z) : bool :=
  let '(yoe, mp, d) := eraParts doe in
  (0 <=? yoe) && (yoe <? 400) && (0 <=? mp) && (mp <? 12) && (1 <=? d)
  && (d <=? daysInMonth (if 10 <=? mp then yoe + 1 else yoe) ((mp + 2) mod 12))
  && (365 * yoe + yoe / 4 - yoe / 100 + (153 * mp + 2) / 5 + d - 1 =? doe).

Lemma eraParts_checked : checkRange (Z.to_nat 146097) 0 eraPartsOk = true.
Proof. vm_compute. reflexivity. Qed.

Lemma eraParts_ok : forall doe, 0 <= doe < 146097 -> eraPartsOk doe = true.
Proof.
  intros doe H. apply (@checkRange_sound _ 0 eraPartsOk eraParts_checked). lia.
Qed.

Lemma isLeapYear_era : forall y era, isLeapYear (y + era * 400) = isLeapYear y.
Proof.
  intros y era. unfold isLeapYear.
  replace ((y + era * 400) mod 4) with (y mod 4)
    by (replace (era * 400) with ((era * 100) * 4) by ring; rewrite Z.mod_add; lia).
  replace ((y + era * 400) mod 100) with (y mod 100)
    by (replace (era * 400) with ((era * 4) * 100) by ring; rewrite Z.mod_add; lia).
  replace ((y + era * 400) mod 400) with (y mod 400) by (rewrite Z.mod_add; lia).
  reflexivity.
Qed.

Lemma daysInMonth_era : forall y m era, daysInMonth (y + era * 400) m = daysInMonth y m.
Proof. intros y m era. unfold daysInMonth. rewrite isLeapYear_era. reflexivity. Qed.

(** The civil date of every day number is a valid date, and [MakeDay]
    brings it back to the day number. *)
Lemma civilFromDays_valid : forall z,
  let '(y, m, d) := civilFromDays z in
  0 <= m < 12 /\ 1 <= d <= daysInMonth y m /\ MakeDay y m d = z.
Proof.
  intros z. unfold civilFromDays.
  set (z' := z + 719468).
  set (era := z' / 146097).
  set (doe := z' mod 146097).
  assert (Hdoe : 0 <= doe < 146097) by (apply Z.mod_pos_bound; lia).
  assert (Hz : z' = 146097 * era + doe) by (apply Z.div_mod; lia).
  pose proof (eraParts_ok doe Hdoe) as Hok.
  unfold eraPartsOk, eraParts in Hok.
  set (yoe := (doe - doe / 1460 + doe / 36524 - doe / 146096) / 365) in *.
  set (doy := doe - (365 * yoe + yoe / 4 - yoe / 100)) in *.
  set (mp := (5 * doy + 2) / 153) in *.
  set (d := doy - (153 * mp + 2) / 5 + 1) in *.
  repeat rewrite andb_true_iff in Hok.
  destruct Hok as [[[[[[Hy0 Hy1] Hm0] Hm1] Hd0] Hd1] Hsum].
  apply Z.leb_le in Hy0, Hm0, Hd0, Hd1. apply Z.ltb_lt in Hy1, Hm1.
  apply Z.eqb_eq in Hsum.
  assert (Hm : 0 <= (mp + 2) mod 12 < 12) by (apply Z.mod_pos_bound; lia).
  split; [exact Hm|]. split.
  - split; [assumption|].
    destruct (10 <=? mp) eqn:E.
    + replace (yoe + era * 400 + 1) with (yoe + 1 + era * 400) by ring.
      rewrite daysInMonth_era. assumption.
    + rewrite daysInMonth_era. assumption.
  - unfold MakeDay.
    assert (Hdiv : (mp + 2) mod 12 / 12 = 0) by (apply Z.div_small; exact Hm).
    rewrite Hdiv, (Z.mod_small _ 12 Hm).
    assert (Hy : (if (mp + 2) mod 12 <? 2 then
                    (if 10 <=? mp then yoe + era * 400 + 1 else yoe + era * 400) + 0 - 1
                  else (if 10 <=? mp then yoe + era * 400 + 1 else yoe + era * 400) + 0)
                 = yoe + era * 400).
    { destruct (10 <=? mp) eqn:E1; [apply Z.leb_le in E1 | apply Z.leb_gt in E1];
        destruct ((mp + 2) mod 12 <? 2) eqn:E2;
        [apply Z.ltb_lt in E2 | apply Z.ltb_ge in E2
         | apply Z.ltb_lt in E2 | apply Z.ltb_ge in E2];
        revert E2; Z.div_mod_to_equations; lia. }
    rewrite Hy.
    assert (Hmp : ((mp + 2) mod 12 + 10) mod 12 = mp)
      by (clear - Hm0 Hm1; Z.div_mod_to_equations; lia).
    rewrite Hmp.
    clearbody yoe mp d. clear - Hy0 Hy1 Hsum Hz. subst z'.
    Z.div_mod_to_equations. lia.
Qed.

End CalendarFacts.


(** ** The calendar: months *)

Module MonthFacts.

Import JsDate CalendarFacts.

(** The day number on which month number [k] begins, months being
    counted from January of year 0. *)
Definition monthStart (k : Z) : Z := MakeDay 0 k 1.

Lemma MakeDay_monthStart : forall y m d,
  MakeDay y m d = monthStart (12 * y + m) + d - 1.
Proof.
  intros y m d. unfold monthStart, MakeDay.
  assert (H1 : (12 * y + m) / 12 = y + m / 12)
    by (Z.div_mod_to_equations; lia).
  assert (H2 : (12 * y + m) mod 12 = m mod 12)
    by (Z.div_mod_to_equations; lia).
  rewrite H1, H2, Z.add_0_l. lia.
Qed.

Lemma monthStart_split : forall q r,
  0 <= r < 12 ->
  monthStart (12 * q + r)
  = let y := if r <? 2 then q - 1 else q in
    365 * y + y / 4 - y / 100 + y / 400 + (153 * ((r + 10) mod 12) + 2) / 5 - 719468.
Proof.
  intros q r Hr. unfold monthStart, MakeDay.
  assert (H1 : (12 * q + r) / 12 = q) by (Z.div_mod_to_equations; lia).
  assert (H2 : (12 * q + r) mod 12 = r) by (Z.div_mod_to_equations; lia).
  rewrite H1, H2, Z.add_0_l. cbv zeta. lia.
Qed.

Ltac compute_closed :=
  repeat match goal with
         | |- context [?a <? 2] =>
             let c := eval vm_compute in (a <? 2) in change (a <? 2) with c
         | |- context [(?a + 10) mod 12] =>
             let v := eval vm_compute in ((a + 10) mod 12) in
             change ((a + 10) mod 12) with v
         | |- context [(153 * ?a + 2) / 5] =>
             let v := eval vm_compute in ((153 * a + 2) / 5) in
             change ((153 * a + 2) / 5) with v
         | |- context [daysInMonth ?y ?m] =>
             let v := eval cbv beta iota delta [daysInMonth Z.eqb Pos.eqb orb]
                      in (daysInMonth y m) in
             change (daysInMonth y m) with v
         end; cbv iota.

Lemma monthStart_step : forall k,
  monthStart (k + 1) - monthStart k = daysInMonth (k / 12) (k mod 12).
Proof.
  intros k.
  set (q := k / 12). set (r := k mod 12).
  assert (Hr : 0 <= r < 12) by (apply Z.mod_pos_bound; lia).
  assert (Hk : k = 12 * q + r) by (apply Z.div_mod; lia).
  rewrite Hk at 1 2.
  assert (Hcases : r = 0 \/ r = 1 \/ r = 2 \/ r = 3 \/ r = 4 \/ r = 5 \/ r = 6
                   \/ r = 7 \/ r = 8 \/ r = 9 \/ r = 10 \/ r = 11) by lia.
  clearbody q r. clear Hk k Hr.
  repeat (destruct Hcases as [-> | Hcases]); [..| subst r];
    try (replace (12 * q + 11 + 1) with (12 * (q + 1) + 0) by ring);
    try (rewrite <- Z.add_assoc);
    rewrite !monthStart_split by lia; cbv zeta;
    compute_closed;
    try (replace (q + 1 - 1) with q by ring);
    try lia.
  (* February: the year changes from the March-based [q - 1] to [q] *)
  unfold isLeapYear.
  destruct (q mod 4 =? 0) eqn:E4; destruct (q mod 100 =? 0) eqn:E100;
    destruct (q mod 400 =? 0) eqn:E400; cbn [andb orb negb];
    repeat match goal with
           | H : (_ =? _) = true |- _ => apply Z.eqb_eq in H
           | H : (_ =? _) = false |- _ => apply Z.eqb_neq in H
           end;
    Z.div_mod_to_equations; lia.
Qed.

End MonthFacts.


(** ** Rendering integers in keys *)

Module RenderFacts.

Import CalendarFacts.

(** The number a string of digits denotes. *)
Definition valueOf (s : jsstring) : Z :=
  fold_left (fun a c => 10 * a + digitValue c) s 0.

Lemma digitsFuel_acc : forall fuel n acc,
  digitsFuel fuel n acc = digitsFuel fuel n [] ++ acc.
Proof.
  induction fuel as [|f IH]; intros n acc; simpl; [reflexivity|].
  destruct (n <? 10); [reflexivity|].
  rewrite (IH (n / 10) (_ :: acc)), (IH (n / 10) [_]).
  rewrite <- app_assoc. reflexivity.
Qed.

Lemma valueOf_app : forall s c, valueOf (s ++ [c]) = 10 * valueOf s + digitValue c.
Proof. intros s c. unfold valueOf. rewrite fold_left_app. reflexivity. Qed.

Lemma digit_of_mod : forall n, 0 <= n -> digitValue (Z.to_N (48 + n mod 10)) = n mod 10.
Proof.
  intros n Hn. unfold digitValue.
  assert (0 <= n mod 10 < 10) by (apply Z.mod_pos_bound; lia).
  rewrite Z2N.id by lia. lia.
Qed.

Lemma isDigit_of_mod : forall n, 0 <= n -> isDigit (Z.to_N (48 + n mod 10)) = true.
Proof.
  intros n Hn. unfold isDigit.
  assert (0 <= n mod 10 < 10) by (apply Z.mod_pos_bound; lia).
  apply andb_true_iff. split; apply N.leb_le; lia.
Qed.

Lemma digitsFuel_value : forall fuel n,
  0 <= n < 2 ^ Z.of_nat (S fuel) ->
  valueOf (digitsFuel (S fuel) n []) = n
  /\ Forall (fun c => isDigit c = true) (digitsFuel (S fuel) n [])
  /\ digitsFuel (S fuel) n [] <> [].
Proof.
  assert (Hsmall : forall fuel n, 0 <= n < 10 ->
            valueOf (digitsFuel (S fuel) n []) = n
            /\ Forall (fun c => isDigit c = true) (digitsFuel (S fuel) n [])
            /\ digitsFuel (S fuel) n [] <> []).
  { intros fuel n Hn. cbn [digitsFuel].
    assert (E : (n <? 10) = true) by (apply Z.ltb_lt; lia). rewrite E.
    split; [|split].
    - unfold valueOf. cbn [fold_left]. rewrite digit_of_mod by lia.
      rewrite Z.mod_small; lia.
    - constructor; [apply isDigit_of_mod; lia | constructor].
    - discriminate. }
  induction fuel as [|f IH]; intros n Hn.
  - apply Hsmall. change (2 ^ Z.of_nat 1) with 2 in Hn. lia.
  - destruct (Z.ltb_spec n 10) as [E|E]; [apply Hsmall; lia|].
    change (digitsFuel (S (S f)) n [])
      with (let acc' := [Z.to_N (48 + n mod 10)] in
            if n <? 10 then acc' else digitsFuel (S f) (n / 10) acc').
    cbv zeta.
    assert (E' : (n <? 10) = false) by (apply Z.ltb_ge; lia). rewrite E'.
    rewrite digitsFuel_acc.
    assert (Hq : 0 <= n / 10 < 2 ^ Z.of_nat (S f)).
    { split; [apply Z.div_pos; lia|].
      rewrite (Nat2Z.inj_succ (S f)), Z.pow_succ_r in Hn by lia.
      apply Z.div_lt_upper_bound; lia. }
    destruct (IH _ Hq) as [Hv [Hd Hne]]. split; [|split].
    + rewrite valueOf_app, Hv, digit_of_mod by lia.
      symmetry. apply Z.div_mod. lia.
    + apply Forall_app. split; [exact Hd|].
      constructor; [apply isDigit_of_mod; lia | constructor].
    + intros H. apply app_eq_nil in H. destruct H as [_ H]. discriminate.
Qed.

Lemma digitsOfNat_value : forall n,
  0 <= n ->
  valueOf (digitsOfNat n) = n
  /\ Forall (fun c => isDigit c = true) (digitsOfNat n)
  /\ digitsOfNat n <> [].
Proof.
  intros n Hn. unfold digitsOfNat. apply digitsFuel_value.
  split; [exact Hn|].
  rewrite Nat2Z.inj_succ, Z2Nat.id by apply Z.log2_nonneg.
  destruct (Z.eq_dec n 0) as [->|Hne]; [reflexivity|].
  apply Z.log2_spec. lia.
Qed.

Lemma digitsOfNat_valueOf : forall n, 0 <= n -> valueOf (digitsOfNat n) = n.
Proof. intros n Hn. apply digitsOfNat_value, Hn. Qed.

Lemma ofInteger_inj : forall a b, ofInteger a = ofInteger b -> a = b.
Proof.
  intros a b. unfold ofInteger.
  destruct (a <? 0) eqn:Ea; destruct (b <? 0) eqn:Eb;
    try apply Z.ltb_lt in Ea; try apply Z.ltb_ge in Ea;
    try apply Z.ltb_lt in Eb; try apply Z.ltb_ge in Eb; intros H.
  - injection H as H. apply (f_equal valueOf) in H.
    rewrite !digitsOfNat_valueOf in H by lia. lia.
  - destruct (digitsOfNat_value b Eb) as [_ [Hd Hne]].
    rewrite <- H in Hd. inversion Hd; subst. discriminate.
  - destruct (digitsOfNat_value a Ea) as [_ [Hd Hne]].
    rewrite H in Hd. inversion Hd; subst. discriminate.
  - apply (f_equal valueOf) in H.
    rewrite !digitsOfNat_valueOf in H by lia. exact H.
Qed.

(** Two digits for the numbers below one hundred. *)
Definition twoDigits (v : Z) : jsstring := [Z.to_N (48 + v / 10); Z.to_N (48 + v mod 10)].

Lemma padStart2_checked :
  checkRange 100 0 (fun v => JsString.eqb (padStart2 (ofInteger v)) (twoDigits v)) = true.
Proof. vm_compute. reflexivity. Qed.

Lemma padStart2_twoDigits : forall v,
  0 <= v < 100 -> padStart2 (ofInteger v) = twoDigits v.
Proof.
  intros v Hv. apply StringFacts.eqb_eq.
  apply (checkRange_sound 100 0 _ padStart2_checked). lia.
Qed.

Lemma pair_list_inj : forall (A : Type) (a b c d : A),
  [a; b] = [c; d] -> a = c /\ b = d.
Proof. intros A a b c d H. injection H as -> ->. tauto. Qed.

Lemma twoDigits_inj : forall a b,
  0 <= a < 100 -> 0 <= b < 100 -> twoDigits a = twoDigits b -> a = b.
Proof.
  intros a b Ha Hb H. unfold twoDigits in H.
  apply pair_list_inj in H. destruct H as [H1 H2].
  assert (0 <= a mod 10 < 10) by (apply Z.mod_pos_bound; lia).
  assert (0 <= b mod 10 < 10) by (apply Z.mod_pos_bound; lia).
  assert (0 <= a / 10 < 10) by (split; [apply Z.div_pos | apply Z.div_lt_upper_bound]; lia).
  assert (0 <= b / 10 < 10) by (split; [apply Z.div_pos | apply Z.div_lt_upper_bound]; lia).
  apply Z2N.inj in H1; try lia. apply Z2N.inj in H2; try lia.
  pose proof (Z.div_mod a 10 ltac:(lia)). pose proof (Z.div_mod b 10 ltac:(lia)). lia.
Qed.

(** Equal concatenations with tails of the same length. *)
Lemma app_inj_same_tail_length : forall (A : Type) (a b c d : list A),
  List.length c = List.length d -> a ++ c = b ++ d -> a = b /\ c = d.
Proof.
  intros A a. induction a as [|x a IH]; intros b c d Hl H.
  - destruct b as [|y b]; [simpl in H; tauto|].
    exfalso. apply (f_equal (@List.length A)) in H.
    simpl in H. rewrite length_app in H. lia.
  - destruct b as [|y b].
    + exfalso. apply (f_equal (@List.length A)) in H.
      simpl in H. rewrite length_app in H. lia.
    + simpl in H. injection H as -> H. destruct (IH _ _ _ Hl H) as [-> ->]. tauto.
Qed.

(** The key of a month and of a day, from the calendar fields. *)
Definition monthKeyOf (y m : Z) : jsstring :=
  ofInteger y ++ js "-" ++ padStart2 (ofInteger (m + 1)).

Definition dateKeyOf (y m d : Z) : jsstring :=
  ofInteger y ++ js "-" ++ padStart2 (ofInteger (m + 1))
  ++ js "-" ++ padStart2 (ofInteger d).

Lemma monthKeyOf_inj : forall y m y' m',
  0 <= m < 12 -> 0 <= m' < 12 -> monthKeyOf y m = monthKeyOf y' m' -> y = y' /\ m = m'.
Proof.
  intros y m y' m' Hm Hm' H. unfold monthKeyOf in H.
  rewrite !padStart2_twoDigits in H by lia.
  apply app_inj_same_tail_length in H; [|reflexivity].
  destruct H as [Hy H]. apply ofInteger_inj in Hy.
  apply app_inv_head in H.
  apply twoDigits_inj in H; lia.
Qed.

Lemma dateKeyOf_inj : forall y m d y' m' d',
  0 <= m < 12 -> 0 <= m' < 12 -> 1 <= d <= 31 -> 1 <= d' <= 31 ->
  dateKeyOf y m d = dateKeyOf y' m' d' -> y = y' /\ m = m' /\ d = d'.
Proof.
  intros y m d y' m' d' Hm Hm' Hd Hd' H. unfold dateKeyOf in H.
  rewrite !padStart2_twoDigits in H by lia.
  apply app_inj_same_tail_length in H; [|reflexivity].
  destruct H as [Hy H]. apply ofInteger_inj in Hy.
  apply app_inv_head in H.
  apply app_inj_same_tail_length in H; [|reflexivity].
  destruct H as [H1 H2]. apply app_inv_head in H2.
  apply twoDigits_inj in H1; try lia. apply twoDigits_inj in H2; lia.
Qed.

End RenderFacts.


(** ** The calendar: order of months and days, fields of a date *)

Module DateFacts.

Import JsDate CalendarFacts MonthFacts.

Lemma daysInMonth_bounds : forall y m, 28 <= daysInMonth y m <= 31.
Proof.
  intros y m. unfold daysInMonth.
  destruct (m =? 1); [destruct (isLeapYear y); lia|].
  destruct ((m =? 3) || (m =? 5) || (m =? 8) || (m =? 10)); lia.
Qed.

Lemma monthStart_next : forall k, monthStart k < monthStart (k + 1).
Proof.
  intros k. pose proof (monthStart_step k).
  pose proof (daysInMonth_bounds (k / 12) (k mod 12)). lia.
Qed.

Lemma monthStart_mono_nat : forall n k, monthStart k <= monthStart (k + Z.of_nat n).
Proof.
  induction n as [|n IH]; intros k.
  - rewrite Z.add_0_r. lia.
  - rewrite Nat2Z.inj_succ.
    replace (k + Z.succ (Z.of_nat n)) with (k + Z.of_nat n + 1) by lia.
    pose proof (IH k). pose proof (monthStart_next (k + Z.of_nat n)). lia.
Qed.

Lemma monthStart_le : forall k k', k <= k' -> monthStart k <= monthStart k'.
Proof.
  intros k k' H. replace k' with (k + Z.of_nat (Z.to_nat (k' - k))) by lia.
  apply monthStart_mono_nat.
Qed.

Lemma monthStart_lt : forall k k', k < k' -> monthStart k < monthStart k'.
Proof.
  intros k k' H. pose proof (monthStart_next k).
  pose proof (monthStart_le (k + 1) k' ltac:(lia)). lia.
Qed.

Lemma monthStart_le_iff : forall k k', monthStart k <= monthStart k' <-> k <= k'.
Proof.
  intros k k'. split; [|apply monthStart_le].
  intros H. destruct (Z.le_gt_cases k k') as [|Hgt]; [assumption|].
  apply monthStart_lt in Hgt. lia.
Qed.

(** The month number (months counted from January of year 0) of a date. *)
Definition monthIndex (y m : Z) : Z := 12 * y + m.

(** A valid civil date is the civil date of its day number. *)
Lemma civilFromDays_MakeDay : forall y m d,
  0 <= m < 12 -> 1 <= d <= daysInMonth y m ->
  civilFromDays (MakeDay y m d) = (y, m, d).
Proof.
  intros y m d Hm Hd.
  pose proof (civilFromDays_valid (MakeDay y m d)) as Hv.
  destruct (civilFromDays (MakeDay y m d)) as [[y2 m2] d2].
  destruct Hv as [Hm2 [Hd2 Heq]].
  rewrite !MakeDay_monthStart in Heq.
  set (k := 12 * y + m) in *. set (k2 := 12 * y2 + m2) in *.
  pose proof (monthStart_step k) as Hs. pose proof (monthStart_step k2) as Hs2.
  assert (Hq : k / 12 = y /\ k mod 12 = m)
    by (subst k; split; Z.div_mod_to_equations; lia).
  assert (Hq2 : k2 / 12 = y2 /\ k2 mod 12 = m2)
    by (subst k2; split; Z.div_mod_to_equations; lia).
  destruct Hq as [Hq Hr]. destruct Hq2 as [Hq2 Hr2].
  rewrite Hq, Hr in Hs. rewrite Hq2, Hr2 in Hs2.
  assert (Hk : k = k2).
  { destruct (Z.lt_trichotomy k k2) as [Hlt | [Heq' | Hgt]]; [|exact Heq'|].
    - pose proof (monthStart_le (k + 1) k2 ltac:(lia)). lia.
    - pose proof (monthStart_le (k2 + 1) k ltac:(lia)). lia. }
  assert (y = y2 /\ m = m2) by (subst k k2; lia).
  destruct H as [-> ->]. rewrite Hk in Heq.
  f_equal. lia.
Qed.

(** The civil date of the first day of a month given by any month number. *)
Lemma civilFromDays_monthStart : forall k,
  civilFromDays (monthStart k) = (k / 12, k mod 12, 1).
Proof.
  intros k.
  assert (Hr : 0 <= k mod 12 < 12) by (apply Z.mod_pos_bound; lia).
  replace (monthStart k) with (MakeDay (k / 12) (k mod 12) 1).
  - apply civilFromDays_MakeDay; [exact Hr|].
    pose proof (daysInMonth_bounds (k / 12) (k mod 12)). lia.
  - rewrite MakeDay_monthStart. rewrite <- Z.div_mod by lia. lia.
Qed.

Lemma MakeDay_fields : forall z,
  MakeDay (YearFromDay z) (MonthFromDay z) (DateFromDay z) = z.
Proof.
  intros z. unfold YearFromDay, MonthFromDay, DateFromDay.
  pose proof (civilFromDays_valid z) as H.
  destruct (civilFromDays z) as [[y m] d]. simpl. tauto.
Qed.

Lemma MakeDay_shift : forall y m d n, MakeDay y m (d + n) = MakeDay y m d + n.
Proof. intros. rewrite !MakeDay_monthStart. lia. Qed.

Lemma fields_of_day : forall z,
  0 <= MonthFromDay z < 12
  /\ 1 <= DateFromDay z <= daysInMonth (YearFromDay z) (MonthFromDay z).
Proof.
  intros z. unfold YearFromDay, MonthFromDay, DateFromDay.
  pose proof (civilFromDays_valid z) as H.
  destruct (civilFromDays z) as [[y m] d]. simpl. tauto.
Qed.

Lemma civil_eta : forall z,
  civilFromDays z = (YearFromDay z, MonthFromDay z, DateFromDay z).
Proof.
  intros z. unfold YearFromDay, MonthFromDay, DateFromDay.
  destruct (civilFromDays z) as [[y m] d]. reflexivity.
Qed.

(** A year that the date constructor takes as it is. *)
Definition plainYear (y : Z) : Prop := y < 0 \/ 99 < y.

Lemma MakeFullYear_plain : forall y, plainYear y -> MakeFullYear y = y.
Proof.
  intros y H. unfold MakeFullYear, plainYear in *.
  destruct (Z.leb_spec 0 y); destruct (Z.leb_spec y 99); cbn [andb]; lia.
Qed.

Lemma MakeFullYear_cases : forall y,
  MakeFullYear y = y \/ 0 <= y <= 99 /\ MakeFullYear y = 1900 + y.
Proof.
  intros y. unfold MakeFullYear.
  destruct (Z.leb_spec 0 y); destruct (Z.leb_spec y 99); cbn [andb]; lia.
Qed.

(** *** Local time *)

(** The local day number of an instant. *)
Definition localDay (tz : Zone) (t : Z) : Z := Day (LocalTime tz t).

Section LocalZone.

Variable tz : Z.

Lemma msPerDay_pos : 0 < msPerDay.
Proof. reflexivity. Qed.

Lemma localDay_of_parts : forall day time,
  0 <= time < msPerDay ->
  localDay tz (UTC tz (MakeDate day time)) = day
  /\ TimeWithinDay (LocalTime tz (UTC tz (MakeDate day time))) = time.
Proof.
  intros day time H. unfold localDay, LocalTime, UTC, MakeDate, Day, TimeWithinDay. cbn [offsetAt offsetOfLocal fixed] in *.
  replace (day * msPerDay + time - tz + tz) with (time + day * msPerDay) by ring.
  rewrite Z.div_add, Z.mod_add by (unfold msPerDay; lia).
  rewrite Z.div_small, Z.mod_small by exact H. lia.
Qed.

Lemma instant_of_parts : forall t,
  t = UTC tz (MakeDate (localDay tz t) (TimeWithinDay (LocalTime tz t))).
Proof.
  intros t. unfold localDay, UTC, MakeDate, Day, TimeWithinDay. cbn [offsetAt offsetOfLocal fixed] in *.
  pose proof (Z.div_mod (LocalTime tz t) msPerDay ltac:(unfold msPerDay; lia)).
  unfold LocalTime in *. cbn [offsetAt offsetOfLocal fixed] in *. lia.
Qed.

Lemma time_bounds : forall t, 0 <= TimeWithinDay t < msPerDay.
Proof. intros t. apply Z.mod_pos_bound. reflexivity. Qed.

(** Midnight instants are ordered as their days. *)
Lemma midnight_le : forall a b,
  UTC tz (MakeDate a 0) <= UTC tz (MakeDate b 0) <-> a <= b.
Proof.
  intros a b. unfold UTC, MakeDate, msPerDay. cbn [offsetAt offsetOfLocal fixed] in *. lia.
Qed.

End LocalZone.

(** *** Zones whose offset changes *)

(** A zone keeps a day when every local time of day on that day, read
    back into an instant, falls on that day: the day is not skipped as
    a whole, and no hour skipped on it reaches over midnight. *)
Definition keepsDay (zone : Zone) (day : Z) : Prop :=
  forall time,
    0 <= time < msPerDay -> localDay zone (UTC zone (MakeDate day time)) = day.

Lemma fixed_keepsDay : forall (tz : Z) day, keepsDay tz day.
Proof. intros tz day time H. apply (localDay_of_parts tz day time H). Qed.

Definition msPerHour : Z := 3600000.

(** A zone that sets its clocks forward by an hour at the instant
    [change]: the offset is [before] until then and an hour more from
    then on.  The local times of the skipped hour are read with the
    offset [before]. *)
Definition springForward (before change : Z) : Zone :=
  mkZone
    (fun t => if t <? change then before else before + msPerHour)
    (fun l => if l <? change + before + msPerHour then before else before + msPerHour).

Lemma Day_unique : forall x day,
  day * msPerDay <= x < day * msPerDay + msPerDay -> Day x = day.
Proof.
  intros x day H. unfold Day. symmetry.
  apply (Z.div_unique x msPerDay day (x - day * msPerDay)); [left|]; lia.
Qed.

(** Such a zone keeps every day when the skipped hour starts at most 22
    hours into a local day. *)
Lemma springForward_keepsDay : forall before change day,
  (change + before) mod msPerDay <= 22 * msPerHour ->
  keepsDay (springForward before change) day.
Proof.
  intros before change day Hc time Ht.
  unfold localDay, LocalTime, UTC, springForward, MakeDate.
  cbn [offsetAt offsetOfLocal].
  pose proof (Z.div_mod (change + before) msPerDay ltac:(unfold msPerDay; lia)) as Hq.
  pose proof (Z.mod_pos_bound (change + before) msPerDay ltac:(unfold msPerDay; lia)) as Hr.
  revert Hq Hr Hc.
  generalize ((change + before) / msPerDay) as q.
  generalize ((change + before) mod msPerDay) as r.
  intros r q Hq Hr Hc.
  apply Day_unique. unfold msPerDay, msPerHour in *.
  destruct (Z.ltb_spec (day * 86400000 + time) (change + before + 3600000));
    match goal with
    | |- context [if ?c then _ else _] => destruct c eqn:E
    end;
    try (apply Z.ltb_lt in E); try (apply Z.ltb_ge in E); lia.
Qed.

(** The clocks of this zone go from 02:00 to 03:00 on 2024-03-31 (at
    01:00 UTC), those of the next one from 00:00 to 01:00 on 2024-09-08
    (at 04:00 UTC), so that this day has no local midnight. *)
Definition centralEurope : Zone := springForward 3600000 1711846800000.
Definition santiago : Zone := springForward (-14400000) 1725768000000.

Lemma centralEurope_keepsDay : forall day, keepsDay centralEurope day.
Proof. intros day. apply springForward_keepsDay. vm_compute. discriminate. Qed.

Lemma santiago_keepsDay : forall day, keepsDay santiago day.
Proof. intros day. apply springForward_keepsDay. vm_compute. discriminate. Qed.

(** A zone that sets its clocks back by an hour at the instant
    [change].  The local times of the repeated hour are read with the
    offset [before], as the first of the two instants they name. *)
Definition fallBack (before change : Z) : Zone :=
  mkZone
    (fun t => if t <? change then before else before - msPerHour)
    (fun l => if l <? change + before then before else before - msPerHour).

(** Such a zone reads every local time back as itself, and so keeps
    every day. *)
Lemma fallBack_keepsDay : forall before change day,
  keepsDay (fallBack before change) day.
Proof.
  intros before change day time Ht.
  unfold localDay, LocalTime, UTC, fallBack, MakeDate.
  cbn [offsetAt offsetOfLocal].
  apply Day_unique. unfold msPerDay, msPerHour in *.
  destruct (Z.ltb_spec (day * 86400000 + time) (change + before));
    match goal with
    | |- context [if ?c then _ else _] => destruct c eqn:E
    end;
    try (apply Z.ltb_lt in E); try (apply Z.ltb_ge in E); lia.
Qed.

(** The clocks of this zone go from 03:00 back to 02:00 on 2024-10-27
    (at 01:00 UTC). *)
Definition centralEuropeAutumn : Zone := fallBack 7200000 1729990800000.

End DateFacts.


(** ** Time bucketing of the net-margin view *)

Module NetMarginFacts.

Import JsDate CalendarFacts MonthFacts RenderFacts DateFacts NetMargin.

(** The key of month number [k] and of day number [n]. *)
Definition monthKeyAt (k : Z) : jsstring := monthKeyOf (k / 12) (k mod 12).

Definition dayKeyAt (n : Z) : jsstring :=
  dateKeyOf (YearFromDay n) (MonthFromDay n) (DateFromDay n).

(** [count] numbers from [first] on, [step] apart. *)
Fixpoint progression (first step : Z) (count : nat) : list Z :=
  match count with
  | O => []
  | S n => first :: progression (first + step) step n
  end.

(** How many periods, [step] apart, lie between [first] and [last]. *)
Definition periodCount (first last step : Z) : nat :=
  Z.to_nat ((last - first) / step + 1).

Definition periodsBetween (first last step : Z) : list Z :=
  progression first step (periodCount first last step).

Lemma progression_In : forall count first step x,
  In x (progression first step count)
  <-> exists i, 0 <= i < Z.of_nat count /\ x = first + i * step.
Proof.
  induction count as [|n IH]; intros first step x; simpl.
  - split; [tauto | intros [i [H _]]; lia].
  - rewrite IH. split.
    + intros [<- | [i [Hi ->]]]; [exists 0; lia | exists (i + 1); lia].
    + intros [i [Hi ->]]. destruct (Z.eq_dec i 0) as [->|Hne]; [left; lia|].
      right. exists (i - 1). lia.
Qed.



Lemma periodCount_zero : forall first last step,
  0 < step -> (periodCount first last step = O <-> last < first).
Proof.
  intros first last step Hs. unfold periodCount. split; intros H.
  - destruct (Z.lt_ge_cases last first) as [|Hge]; [assumption|].
    assert (0 <= (last - first) / step) by (apply Z.div_pos; lia). lia.
  - assert ((last - first) / step < 0) by (apply Z.div_lt_upper_bound; lia). lia.
Qed.

Lemma periodCount_succ : forall first last step,
  0 < step -> first <= last ->
  periodCount first last step = S (periodCount (first + step) last step).
Proof.
  intros first last step Hs H. unfold periodCount.
  replace (last - first) with ((last - (first + step)) + 1 * step) by ring.
  rewrite Z.div_add by lia.
  assert (-1 <= (last - (first + step)) / step).
  { apply Z.div_le_lower_bound; lia. }
  lia.
Qed.


Lemma periodsBetween_member : forall first last step x,
  0 < step -> first <= x <= last -> (x - first) mod step = 0 ->
  In x (periodsBetween first last step).
Proof.
  intros first last step x Hs Hx Hmod. unfold periodsBetween.
  apply progression_In. exists ((x - first) / step). split.
  - unfold periodCount.
    assert (0 <= (x - first) / step) by (apply Z.div_pos; lia).
    assert ((x - first) / step <= (last - first) / step)
      by (apply Z.div_le_mono; lia).
    lia.
  - pose proof (Z.div_mod (x - first) step ltac:(lia)). lia.
Qed.


Lemma monthKeyAt_inj : forall a b, monthKeyAt a = monthKeyAt b -> a = b.
Proof.
  intros a b H. unfold monthKeyAt in H.
  apply monthKeyOf_inj in H; try (apply Z.mod_pos_bound; lia).
  destruct H as [Hq Hr].
  rewrite (Z.div_mod a 12), (Z.div_mod b 12) by lia. congruence.
Qed.

Lemma dayKeyAt_inj : forall a b, dayKeyAt a = dayKeyAt b -> a = b.
Proof.
  intros a b H. unfold dayKeyAt in H.
  destruct (fields_of_day a) as [Ha1 Ha2]. destruct (fields_of_day b) as [Hb1 Hb2].
  pose proof (daysInMonth_bounds (YearFromDay a) (MonthFromDay a)).
  pose proof (daysInMonth_bounds (YearFromDay b) (MonthFromDay b)).
  apply dateKeyOf_inj in H; try lia.
  destruct H as [Ey [Em Ed]].
  rewrite <- (MakeDay_fields a), <- (MakeDay_fields b). congruence.
Qed.


Lemma monthIndex_unfold : forall y m, monthIndex y m = 12 * y + m.
Proof. reflexivity. Qed.

Section LocalZone.

Variable tz : Z.

(** Local midnight at the start of day [n]. *)
Definition midnight (n : Z) : Z := UTC tz (MakeDate n 0).

Lemma zero_in_day : 0 <= 0 < msPerDay.
Proof. unfold msPerDay. lia. Qed.

Lemma localDay_midnight : forall n, localDay tz (midnight n) = n.
Proof. intros n. apply (localDay_of_parts tz n 0 zero_in_day). Qed.

Lemma time_midnight : forall n, TimeWithinDay (LocalTime tz (midnight n)) = 0.
Proof. intros n. apply (localDay_of_parts tz n 0 zero_in_day). Qed.

Lemma midnight_le_iff : forall a b, midnight a <= midnight b <-> a <= b.
Proof. intros a b. unfold midnight, UTC, MakeDate, msPerDay. cbn [offsetAt offsetOfLocal fixed] in *. lia. Qed.

Lemma MakeTime_zero : MakeTime 0 0 0 0 = 0.
Proof. reflexivity. Qed.

Lemma getFullYear_localDay : forall t, getFullYear tz t = YearFromDay (localDay tz t).
Proof. reflexivity. Qed.

Lemma getMonth_localDay : forall t, getMonth tz t = MonthFromDay (localDay tz t).
Proof. reflexivity. Qed.

Lemma getDate_localDay : forall t, getDate tz t = DateFromDay (localDay tz t).
Proof. reflexivity. Qed.

Lemma getDay_localDay : forall t, getDay tz t = WeekDay (localDay tz t).
Proof. reflexivity. Qed.

Lemma setDate_unfold : forall t n,
  setDate tz t n
  = UTC tz (MakeDate (MakeDay (getFullYear tz t) (getMonth tz t) n)
              (TimeWithinDay (LocalTime tz t))).
Proof. reflexivity. Qed.

Lemma setMonth_unfold : forall t m,
  setMonth tz t m
  = UTC tz (MakeDate (MakeDay (getFullYear tz t) m (getDate tz t))
              (TimeWithinDay (LocalTime tz t))).
Proof. reflexivity. Qed.

Lemma newDate_unfold : forall y m d h mi s ms,
  newDate tz y m d h mi s ms
  = UTC tz (MakeDate (MakeDay (MakeFullYear y) m d) (MakeTime h mi s ms)).
Proof. reflexivity. Qed.

Lemma MakeDay_of_fields : forall t,
  MakeDay (getFullYear tz t) (getMonth tz t) (getDate tz t) = localDay tz t.
Proof.
  intros t. rewrite getFullYear_localDay, getMonth_localDay, getDate_localDay.
  apply MakeDay_fields.
Qed.

Lemma monthKey_at : forall t,
  monthKey tz t = monthKeyAt (monthIndex (getFullYear tz t) (getMonth tz t)).
Proof.
  intros t. unfold monthKey, monthKeyAt, monthKeyOf, monthIndex.
  destruct (fields_of_day (localDay tz t)) as [Hm _].
  rewrite <- getMonth_localDay in Hm.
  set (y := getFullYear tz t). set (m := getMonth tz t) in *.
  assert (H1 : (12 * y + m) / 12 = y) by (Z.div_mod_to_equations; lia).
  assert (H2 : (12 * y + m) mod 12 = m) by (Z.div_mod_to_equations; lia).
  rewrite H1, H2. reflexivity.
Qed.

Lemma dateKey_at : forall t, dateKey tz t = dayKeyAt (localDay tz t).
Proof. intros t. reflexivity. Qed.

(** [setDate] moves the local day by the change of the day of month and
    keeps the time of day. *)
Lemma setDate_parts : forall t n,
  setDate tz t n
  = UTC tz (MakeDate (localDay tz t + (n - getDate tz t)) (TimeWithinDay (LocalTime tz t))).
Proof.
  intros t n. rewrite setDate_unfold.
  replace n with (getDate tz t + (n - getDate tz t)) at 1 by ring.
  rewrite MakeDay_shift, MakeDay_of_fields. reflexivity.
Qed.

Lemma setDate_midnight : forall n k,
  setDate tz (midnight n) (getDate tz (midnight n) + k) = midnight (n + k).
Proof.
  intros n k. rewrite setDate_parts, localDay_midnight, time_midnight.
  unfold midnight. f_equal. f_equal. lia.
Qed.

(** *** The day and week loops *)

Lemma dateLoop_step : forall fuel step cur endDay keys,
  dateLoop tz (S fuel) step cur endDay keys
  = if cur <=? endDay
    then dateLoop tz fuel step (setDate tz cur (getDate tz cur + step)) endDay
           (keys ++ [dateKey tz cur])
    else Some keys.
Proof. reflexivity. Qed.

Lemma dateLoop_stop : forall fuel step cur endDay keys,
  (cur <=? endDay) = false -> dateLoop tz fuel step cur endDay keys = Some keys.
Proof.
  intros fuel step cur endDay keys H. destruct fuel as [|f].
  - cbn [dateLoop]. rewrite H. reflexivity.
  - rewrite dateLoop_step, H. reflexivity.
Qed.

Lemma dateLoop_run : forall step last count first keys fuel,
  0 < step ->
  count = periodCount first last step ->
  (count <= fuel)%nat ->
  dateLoop tz fuel step (midnight first) (midnight last) keys
  = Some (keys ++ List.map dayKeyAt (progression first step count)).
Proof.
  intros step last. induction count as [|n IH]; intros first keys fuel Hs Hc Hf.
  - symmetry in Hc. apply periodCount_zero in Hc; [|exact Hs].
    rewrite dateLoop_stop.
    + cbn [progression List.map]. rewrite app_nil_r. reflexivity.
    + apply Z.leb_gt. pose proof (midnight_le_iff first last). lia.
  - assert (Hle : first <= last).
    { destruct (Z.le_gt_cases first last) as [|Hgt]; [assumption|].
      apply (periodCount_zero first last step Hs) in Hgt. congruence. }
    assert (E : (midnight first <=? midnight last) = true).
    { apply Z.leb_le. apply midnight_le_iff. exact Hle. }
    destruct fuel as [|f]; [lia|].
    rewrite dateLoop_step, E, setDate_midnight.
    rewrite (IH (first + step) (keys ++ [dateKey tz (midnight first)]) f Hs).
    + rewrite <- app_assoc. cbn [progression List.map app].
      rewrite dateKey_at, localDay_midnight. reflexivity.
    + rewrite (periodCount_succ first last step Hs Hle) in Hc. congruence.
    + lia.
Qed.

(** *** The month loop *)

(** Local midnight at the start of month number [k]. *)
Definition monthBegin (k : Z) : Z := midnight (monthStart k).

Lemma monthBegin_unfold : forall k, monthBegin k = UTC tz (MakeDate (monthStart k) 0).
Proof. reflexivity. Qed.

Lemma fields_monthBegin : forall k,
  getFullYear tz (monthBegin k) = k / 12
  /\ getMonth tz (monthBegin k) = k mod 12
  /\ getDate tz (monthBegin k) = 1.
Proof.
  intros k. rewrite getFullYear_localDay, getMonth_localDay, getDate_localDay.
  unfold monthBegin. rewrite localDay_midnight.
  unfold YearFromDay, MonthFromDay, DateFromDay.
  rewrite civilFromDays_monthStart. cbn [fst snd]. tauto.
Qed.

Lemma setMonth_monthBegin : forall k,
  setMonth tz (monthBegin k) (getMonth tz (monthBegin k) + 1) = monthBegin (k + 1).
Proof.
  intros k. destruct (fields_monthBegin k) as [Hy [Hm Hd]].
  rewrite setMonth_unfold, Hy, Hm, Hd.
  unfold monthBegin at 1. rewrite time_midnight.
  rewrite MakeDay_monthStart.
  replace (12 * (k / 12) + (k mod 12 + 1)) with (12 * (k / 12) + k mod 12 + 1) by ring.
  rewrite <- Z.div_mod by lia.
  rewrite Z.add_simpl_r. reflexivity.
Qed.

Lemma monthBegin_le : forall a b, monthBegin a <= monthBegin b <-> a <= b.
Proof.
  intros a b. unfold monthBegin. rewrite midnight_le_iff. apply monthStart_le_iff.
Qed.

Lemma monthLoop_step : forall fuel cur endMonth keys,
  monthLoop tz (S fuel) cur endMonth keys
  = if cur <=? endMonth
    then monthLoop tz fuel (setMonth tz cur (getMonth tz cur + 1)) endMonth
           (keys ++ [monthKey tz cur])
    else Some keys.
Proof. reflexivity. Qed.

Lemma monthLoop_stop : forall fuel cur endMonth keys,
  (cur <=? endMonth) = false -> monthLoop tz fuel cur endMonth keys = Some keys.
Proof.
  intros fuel cur endMonth keys H. destruct fuel as [|f].
  - cbn [monthLoop]. rewrite H. reflexivity.
  - rewrite monthLoop_step, H. reflexivity.
Qed.

Lemma monthLoop_run : forall last count first keys fuel,
  count = periodCount first last 1 ->
  (count <= fuel)%nat ->
  monthLoop tz fuel (monthBegin first) (monthBegin last) keys
  = Some (keys ++ List.map monthKeyAt (progression first 1 count)).
Proof.
  intros last. induction count as [|n IH]; intros first keys fuel Hc Hf.
  - symmetry in Hc. apply periodCount_zero in Hc; [|lia].
    rewrite monthLoop_stop.
    + cbn [progression List.map]. rewrite app_nil_r. reflexivity.
    + apply Z.leb_gt. pose proof (monthBegin_le first last). lia.
  - assert (Hle : first <= last).
    { destruct (Z.le_gt_cases first last) as [|Hgt]; [assumption|].
      apply (periodCount_zero first last 1 ltac:(lia)) in Hgt. congruence. }
    assert (E : (monthBegin first <=? monthBegin last) = true).
    { apply Z.leb_le. apply monthBegin_le. exact Hle. }
    destruct fuel as [|f]; [lia|].
    rewrite monthLoop_step, E, setMonth_monthBegin.
    rewrite (IH (first + 1) (keys ++ [monthKey tz (monthBegin first)]) f).
    + rewrite <- app_assoc. cbn [progression List.map app]. rewrite monthKey_at.
      destruct (fields_monthBegin first) as [Hy [Hm _]]. rewrite Hy, Hm.
      unfold monthIndex. rewrite <- Z.div_mod by lia. reflexivity.
    + rewrite (periodCount_succ first last 1 ltac:(lia) Hle) in Hc. congruence.
    + lia.
Qed.

(** [new Date(y, m, d)] of the fields of an instant is the local
    midnight of its day, and [new Date(y, m, 1)] that of its month. *)
Lemma newDate_day : forall t,
  plainYear (getFullYear tz t) ->
  newDate tz (getFullYear tz t) (getMonth tz t) (getDate tz t) 0 0 0 0
  = midnight (localDay tz t).
Proof.
  intros t Hy. rewrite newDate_unfold, (MakeFullYear_plain _ Hy).
  rewrite MakeDay_of_fields, MakeTime_zero. reflexivity.
Qed.

Lemma newDate_month : forall t,
  newDate tz (getFullYear tz t) (getMonth tz t) 1 0 0 0 0
  = monthBegin (monthIndex (MakeFullYear (getFullYear tz t)) (getMonth tz t)).
Proof.
  intros t. rewrite newDate_unfold, MakeDay_monthStart, MakeTime_zero.
  rewrite Z.add_simpl_r, monthBegin_unfold, monthIndex_unfold. reflexivity.
Qed.

End LocalZone.

End NetMarginFacts.


(** ** Week starts, month subtraction and range enumeration *)

Module TimeBucketing.

Import JsDate CalendarFacts MonthFacts RenderFacts DateFacts NetMargin NetMarginFacts.

(** The Monday on or before day number [n]. *)
Definition mondayOf (n : Z) : Z :=
  n + (if WeekDay n =? 0 then -6 else 1 - WeekDay n).

Lemma mondayOf_spec : forall n,
  WeekDay (mondayOf n) = 1
  /\ mondayOf n <= n <= mondayOf n + 6
  /\ (WeekDay n = 0 -> mondayOf n = n - 6).
Proof.
  intros n. unfold mondayOf, WeekDay.
  destruct ((n + 4) mod 7 =? 0) eqn:E;
    [apply Z.eqb_eq in E | apply Z.eqb_neq in E];
    repeat split; try (Z.div_mod_to_equations; lia).
Qed.

Lemma mondayOf_same_week : forall a b,
  mondayOf a <= b -> mondayOf a <= mondayOf b /\ (mondayOf b - mondayOf a) mod 7 = 0.
Proof.
  intros a b H.
  destruct (mondayOf_spec a) as [Ha _]. destruct (mondayOf_spec b) as [Hb [Hb' _]].
  unfold WeekDay in Ha, Hb.
  split; Z.div_mod_to_equations; lia.
Qed.

Lemma timeParts : forall tw,
  0 <= tw < msPerDay ->
  MakeTime (tw / 3600000) ((tw / 60000) mod 60) ((tw / 1000) mod 60) (tw mod 1000) = tw.
Proof.
  intros tw H. unfold MakeTime. unfold msPerDay in H.
  Z.div_mod_to_equations. lia.
Qed.

Lemma MakeTime_bounds : forall h mi s ms,
  0 <= h < 24 -> 0 <= mi < 60 -> 0 <= s < 60 -> 0 <= ms < 1000 ->
  0 <= MakeTime h mi s ms < msPerDay.
Proof. intros. unfold MakeTime, msPerDay. lia. Qed.

(** *** The start of the week, in any zone *)

Section AnyZone.

Variable zone : Zone.

Lemma dateKey_localDay : forall t, dateKey zone t = dayKeyAt (localDay zone t).
Proof. reflexivity. Qed.

Lemma setHoursZero_localDay : forall d,
  keepsDay zone (localDay zone d) ->
  localDay zone (setHoursZero zone d) = localDay zone d.
Proof.
  intros d H. unfold setHoursZero. apply H. unfold msPerDay. lia.
Qed.

Lemma setDate_localDay : forall t n,
  keepsDay zone (localDay zone t + n) ->
  localDay zone (setDate zone t (getDate zone t + n)) = localDay zone t + n.
Proof.
  intros t n H. unfold setDate. cbv zeta.
  change (Day (LocalTime zone t)) with (localDay zone t).
  change (getDate zone t) with (DateFromDay (localDay zone t)).
  rewrite MakeDay_shift, MakeDay_fields. apply H, time_bounds.
Qed.

Lemma weekStartKey_monday : forall d,
  keepsDay zone (localDay zone d) ->
  keepsDay zone (mondayOf (localDay zone d)) ->
  weekStartKey zone d = dayKeyAt (mondayOf (localDay zone d)).
Proof.
  intros d Hd Hm.
  change (weekStartKey zone d)
    with (dateKey zone
            (setDate zone (setHoursZero zone d)
               (getDate zone (setHoursZero zone d)
                + (if getDay zone d =? 0 then -6 else 1 - getDay zone d)))).
  rewrite dateKey_localDay, setDate_localDay; rewrite (setHoursZero_localDay d Hd).
  - reflexivity.
  - exact Hm.
Qed.

(** C7.  For every date [d] whose local day and the Monday on or before
    it are days that the zone keeps (as every day is in a zone of fixed
    offset, and in one that sets its clocks back, or forward over an
    hour that does not reach midnight), the key [weekStartKey d] is the
    date key YYYY-MM-DD of that Monday: a Monday, not after the local
    day of [d] and at most six days before it; for a Sunday it is the
    Monday six days before.  Two such dates have the same key exactly
    when that Monday is the same.  The week of Friday 2024-03-15 starts
    on 2024-03-11. *)
Theorem weekStartKey_is_previous_monday : forall d,
  keepsDay zone (localDay zone d) ->
  keepsDay zone (mondayOf (localDay zone d)) ->
  weekStartKey zone d = dayKeyAt (mondayOf (localDay zone d))
  /\ WeekDay (mondayOf (localDay zone d)) = 1
  /\ mondayOf (localDay zone d) <= localDay zone d <= mondayOf (localDay zone d) + 6
  /\ (getDay zone d = 0 -> mondayOf (localDay zone d) = localDay zone d - 6)
  /\ (forall d',
        keepsDay zone (localDay zone d') ->
        keepsDay zone (mondayOf (localDay zone d')) ->
        (weekStartKey zone d = weekStartKey zone d'
         <-> mondayOf (localDay zone d) = mondayOf (localDay zone d')))
  /\ dayKeyAt (MakeDay 2024 2 11) = js "2024-03-11"
  /\ weekStartKey 0 (newDate 0 2024 2 15 0 0 0 0) = js "2024-03-11".
Proof.
  intros d Hd Hm. destruct (mondayOf_spec (localDay zone d)) as [Hw [Hb Hs]].
  split; [apply weekStartKey_monday; assumption|]. split; [exact Hw|].
  split; [exact Hb|].
  split; [exact Hs|]. split; [|split; vm_compute; reflexivity].
  intros d' Hd' Hm'. rewrite !weekStartKey_monday by assumption. split.
  - apply dayKeyAt_inj.
  - intros ->. reflexivity.
Qed.

End AnyZone.

(** The theorem in a zone with daylight saving: 2024-03-31 at noon UTC
    is a Sunday, the day the clocks are set forward, and its week starts
    on Monday 2024-03-25; 2024-10-27 at noon UTC is a Sunday as well,
    the day the clocks are set back, and its week starts on Monday
    2024-10-21. *)
Lemma weekStartKey_when_the_clocks_change :
  getDay centralEurope 1711886400000 = 0
  /\ weekStartKey centralEurope 1711886400000 = js "2024-03-25"
  /\ getDay centralEuropeAutumn 1730030400000 = 0
  /\ weekStartKey centralEuropeAutumn 1730030400000 = js "2024-10-21".
Proof.
  split; [reflexivity|]. split; [|split; [reflexivity|]].
  - rewrite (proj1 (weekStartKey_is_previous_monday centralEurope 1711886400000
                      (centralEurope_keepsDay _) (centralEurope_keepsDay _))).
    vm_compute. reflexivity.
  - rewrite (proj1 (weekStartKey_is_previous_monday centralEuropeAutumn 1730030400000
                      (fallBack_keepsDay _ _ _) (fallBack_keepsDay _ _ _))).
    vm_compute. reflexivity.
Defined.

Section LocalZone.

Variable tz : Z.

Lemma setHoursZero_midnight : forall t, setHoursZero tz t = midnight tz (localDay tz t).
Proof. reflexivity. Qed.

Lemma weekStartKey_unfold : forall d,
  weekStartKey tz d
  = dateKey tz
      (setDate tz (setHoursZero tz d)
         (getDate tz (setHoursZero tz d)
          + (if getDay tz d =? 0 then -6 else 1 - getDay tz d))).
Proof. reflexivity. Qed.

(** The instant the week of [d] starts: local midnight of its Monday. *)
Definition weekStart (d : Z) : Z := midnight tz (mondayOf (localDay tz d)).

Lemma weekStart_unfold : forall d, weekStart d = midnight tz (mondayOf (localDay tz d)).
Proof. reflexivity. Qed.

Lemma mondayOf_unfold : forall n,
  mondayOf n = n + (if WeekDay n =? 0 then -6 else 1 - WeekDay n).
Proof. reflexivity. Qed.

Lemma weekStartKey_weekStart : forall d, weekStartKey tz d = dateKey tz (weekStart d).
Proof.
  intros d. rewrite weekStartKey_unfold, setHoursZero_midnight, setDate_midnight.
  rewrite weekStart_unfold, mondayOf_unfold, getDay_localDay. reflexivity.
Qed.

Lemma weekStartKey_at : forall d, weekStartKey tz d = dayKeyAt (mondayOf (localDay tz d)).
Proof.
  intros d. rewrite weekStartKey_weekStart, dateKey_at, weekStart_unfold, localDay_midnight.
  reflexivity.
Qed.


(** *** Month subtraction *)

Lemma subMonths_unfold : forall date months,
  subMonths tz date months
  = setDate tz
      (newDate tz (getFullYear tz date) (getMonth tz date - months) 1
         (getHours tz date) (getMinutes tz date) (getSeconds tz date)
         (getMilliseconds tz date))
      (Z.min (getDate tz date)
         (getDate tz
            (newDate tz
               (getFullYear tz
                  (newDate tz (getFullYear tz date) (getMonth tz date - months) 1
                     (getHours tz date) (getMinutes tz date) (getSeconds tz date)
                     (getMilliseconds tz date)))
               (getMonth tz
                  (newDate tz (getFullYear tz date) (getMonth tz date - months) 1
                     (getHours tz date) (getMinutes tz date) (getSeconds tz date)
                     (getMilliseconds tz date)) + 1)
               0 0 0 0 0))).
Proof. reflexivity. Qed.

Lemma timeOfDay_unfold : forall t,
  getHours tz t = TimeWithinDay (LocalTime tz t) / 3600000
  /\ getMinutes tz t = (TimeWithinDay (LocalTime tz t) / 60000) mod 60
  /\ getSeconds tz t = (TimeWithinDay (LocalTime tz t) / 1000) mod 60
  /\ getMilliseconds tz t = TimeWithinDay (LocalTime tz t) mod 1000.
Proof. intros t. repeat split; reflexivity. Qed.

(** An instant given by its local day and time of day. *)
Definition atLocal (day time : Z) : Z := UTC tz (MakeDate day time).

Lemma atLocal_unfold : forall day time, atLocal day time = UTC tz (MakeDate day time).
Proof. reflexivity. Qed.

Lemma atLocal_fields : forall y m d time,
  0 <= m < 12 -> 1 <= d <= daysInMonth y m -> 0 <= time < msPerDay ->
  getFullYear tz (atLocal (MakeDay y m d) time) = y
  /\ getMonth tz (atLocal (MakeDay y m d) time) = m
  /\ getDate tz (atLocal (MakeDay y m d) time) = d
  /\ TimeWithinDay (LocalTime tz (atLocal (MakeDay y m d) time)) = time.
Proof.
  intros y m d time Hm Hd Ht.
  rewrite getFullYear_localDay, getMonth_localDay, getDate_localDay, atLocal_unfold.
  destruct (localDay_of_parts tz (MakeDay y m d) time Ht) as [-> ->].
  unfold YearFromDay, MonthFromDay, DateFromDay.
  rewrite (civilFromDays_MakeDay y m d Hm Hd). cbn [fst snd]. tauto.
Qed.

(** The day before the first of the next month is the last day of the
    month. *)
Lemma MakeDay_last : forall y m,
  0 <= m < 12 -> MakeDay y (m + 1) 0 = MakeDay y m (daysInMonth y m).
Proof.
  intros y m Hm. rewrite !MakeDay_monthStart.
  pose proof (monthStart_step (12 * y + m)) as Hs.
  assert (H1 : (12 * y + m) / 12 = y) by (Z.div_mod_to_equations; lia).
  assert (H2 : (12 * y + m) mod 12 = m) by (Z.div_mod_to_equations; lia).
  rewrite H1, H2 in Hs.
  replace (12 * y + (m + 1)) with (12 * y + m + 1) by ring. lia.
Qed.

(** The instant [subMonths] returns, whatever the year: [k] is the month
    it aims at and [L] the length it clamps the day of month to.  The
    constructor reads a year from 0 to 99 as 1900 and that year. *)
Lemma subMonths_instant : forall date months k L,
  k = 12 * MakeFullYear (getFullYear tz date) + getMonth tz date - months ->
  L = daysInMonth (MakeFullYear (k / 12)) (k mod 12) ->
  subMonths tz date months
  = atLocal (monthStart k + (Z.min (getDate tz date) L - 1))
      (TimeWithinDay (LocalTime tz date)).
Proof.
  intros date months k L Hk HL. rewrite subMonths_unfold.
  destruct (timeOfDay_unfold date) as [-> [-> [-> ->]]].
  assert (Htw : 0 <= TimeWithinDay (LocalTime tz date) < msPerDay) by apply time_bounds.
  revert Hk Htw.
  generalize (TimeWithinDay (LocalTime tz date)) as tw.
  generalize (getFullYear tz date) as Y.
  generalize (getMonth tz date) as M.
  generalize (getDate tz date) as D.
  intros D M Y tw Hk Htw.
  rewrite !newDate_unfold, (timeParts tw Htw), MakeTime_zero.
  assert (Hr : 0 <= k mod 12 < 12) by (apply Z.mod_pos_bound; lia).
  assert (Htarget : MakeDay (MakeFullYear Y) (M - months) 1 = MakeDay (k / 12) (k mod 12) 1).
  { rewrite !MakeDay_monthStart.
    replace (12 * (k / 12) + k mod 12) with (12 * MakeFullYear Y + (M - months));
      [reflexivity|].
    rewrite <- Z.div_mod by lia. lia. }
  rewrite Htarget. rewrite <- !atLocal_unfold.
  pose proof (daysInMonth_bounds (k / 12) (k mod 12)) as Hdim.
  destruct (atLocal_fields (k / 12) (k mod 12) 1 tw Hr ltac:(lia) Htw)
    as [Ey [Em [Ed Et]]].
  rewrite Ey, Em.
  rewrite (MakeDay_last (MakeFullYear (k / 12)) (k mod 12) Hr).
  pose proof (daysInMonth_bounds (MakeFullYear (k / 12)) (k mod 12)) as HdimL.
  destruct (atLocal_fields (MakeFullYear (k / 12)) (k mod 12)
              (daysInMonth (MakeFullYear (k / 12)) (k mod 12)) 0
              Hr ltac:(lia) zero_in_day) as [_ [_ [El _]]].
  rewrite El, <- HL.
  rewrite setDate_unfold, Ey, Em, Et. rewrite <- atLocal_unfold.
  f_equal. rewrite MakeDay_monthStart. rewrite <- Z.div_mod by lia. lia.
Qed.



End LocalZone.



End TimeBucketing.


(** ** Range enumeration *)

Module RangeEnumeration.

Import JsDate CalendarFacts MonthFacts RenderFacts DateFacts NetMargin NetMarginFacts
  TimeBucketing.

(** *** Reading a date key back *)

Definition fourDigits (y : Z) : jsstring :=
  [Z.to_N (48 + y / 1000); Z.to_N (48 + (y / 100) mod 10);
   Z.to_N (48 + (y / 10) mod 10); Z.to_N (48 + y mod 10)].

Lemma ofInteger_checked :
  checkRange (Z.to_nat 9000) 1000 (fun y => JsString.eqb (ofInteger y) (fourDigits y)) = true.
Proof. vm_compute. reflexivity. Qed.

Lemma ofInteger_fourDigits : forall y, 1000 <= y <= 9999 -> ofInteger y = fourDigits y.
Proof.
  intros y Hy. apply StringFacts.eqb_eq.
  apply (checkRange_sound (Z.to_nat 9000) 1000 _ ofInteger_checked). lia.
Qed.

Lemma digit_unit : forall v,
  0 <= v < 10 ->
  isDigit (Z.to_N (48 + v)) = true /\ digitValue (Z.to_N (48 + v)) = v.
Proof.
  intros v Hv. unfold isDigit, digitValue. split.
  - apply andb_true_iff. split; apply N.leb_le; lia.
  - rewrite Z2N.id by lia. lia.
Qed.

Lemma parseIsoDate_shape : forall a b c d e f g h,
  parseIsoDate [a; b; c; d; 45%N; e; f; 45%N; g; h]
  = if forallb isDigit [a; b; c; d; e; f; g; h] && true && true
    then
      if (1 <=? 10 * digitValue e + digitValue f)
         && (10 * digitValue e + digitValue f <=? 12)
         && (1 <=? 10 * digitValue g + digitValue h)
         && (10 * digitValue g + digitValue h
             <=? daysInMonth
                   (1000 * digitValue a + 100 * digitValue b + 10 * digitValue c
                    + digitValue d)
                   (10 * digitValue e + digitValue f - 1))
      then Some (DateUTC
                   (1000 * digitValue a + 100 * digitValue b + 10 * digitValue c
                    + digitValue d)
                   (10 * digitValue e + digitValue f - 1)
                   (10 * digitValue g + digitValue h))
      else None
    else None.
Proof. reflexivity. Qed.

Lemma dash : js "-" = [45%N].
Proof. reflexivity. Qed.

Lemma parseIsoDate_dateKeyOf : forall y m d,
  1000 <= y <= 9999 -> 0 <= m < 12 -> 1 <= d <= daysInMonth y m ->
  parseIsoDate (dateKeyOf y m d) = Some (DateUTC y m d).
Proof.
  intros y m d Hy Hm Hd.
  pose proof (daysInMonth_bounds y m) as Hdim.
  unfold dateKeyOf.
  rewrite ofInteger_fourDigits, !padStart2_twoDigits, dash by lia.
  unfold fourDigits, twoDigits. cbn [app].
  rewrite parseIsoDate_shape.
  assert (B1 : 0 <= y / 1000 < 10) by (Z.div_mod_to_equations; lia).
  assert (B2 : 0 <= (y / 100) mod 10 < 10) by (apply Z.mod_pos_bound; lia).
  assert (B3 : 0 <= (y / 10) mod 10 < 10) by (apply Z.mod_pos_bound; lia).
  assert (B4 : 0 <= y mod 10 < 10) by (apply Z.mod_pos_bound; lia).
  assert (B5 : 0 <= (m + 1) / 10 < 10) by (Z.div_mod_to_equations; lia).
  assert (B6 : 0 <= (m + 1) mod 10 < 10) by (apply Z.mod_pos_bound; lia).
  assert (B7 : 0 <= d / 10 < 10) by (Z.div_mod_to_equations; lia).
  assert (B8 : 0 <= d mod 10 < 10) by (apply Z.mod_pos_bound; lia).
  cbn [forallb].
  rewrite !(proj1 (digit_unit _ B1)), !(proj1 (digit_unit _ B2)),
    !(proj1 (digit_unit _ B3)), !(proj1 (digit_unit _ B4)),
    !(proj1 (digit_unit _ B5)), !(proj1 (digit_unit _ B6)),
    !(proj1 (digit_unit _ B7)), !(proj1 (digit_unit _ B8)).
  rewrite !(proj2 (digit_unit _ B1)), !(proj2 (digit_unit _ B2)),
    !(proj2 (digit_unit _ B3)), !(proj2 (digit_unit _ B4)),
    !(proj2 (digit_unit _ B5)), !(proj2 (digit_unit _ B6)),
    !(proj2 (digit_unit _ B7)), !(proj2 (digit_unit _ B8)).
  cbn [andb].
  assert (Ey : 1000 * (y / 1000) + 100 * ((y / 100) mod 10) + 10 * ((y / 10) mod 10)
               + y mod 10 = y) by (Z.div_mod_to_equations; lia).
  assert (Em : 10 * ((m + 1) / 10) + (m + 1) mod 10 = m + 1)
    by (Z.div_mod_to_equations; lia).
  assert (Ed : 10 * (d / 10) + d mod 10 = d) by (Z.div_mod_to_equations; lia).
  rewrite Ey, Em, Ed, Z.add_simpl_r.
  assert (C1 : (1 <=? m + 1) = true) by (apply Z.leb_le; lia).
  assert (C2 : (m + 1 <=? 12) = true) by (apply Z.leb_le; lia).
  assert (C3 : (1 <=? d) = true) by (apply Z.leb_le; lia).
  assert (C4 : (d <=? daysInMonth y m) = true) by (apply Z.leb_le; lia).
  rewrite C1, C2, C3, C4. reflexivity.
Qed.

Lemma parseIsoDate_dayKeyAt : forall n,
  1000 <= YearFromDay n <= 9999 -> parseIsoDate (dayKeyAt n) = Some (MakeDate n 0).
Proof.
  intros n Hy. unfold dayKeyAt.
  destruct (fields_of_day n) as [Hm Hd].
  rewrite parseIsoDate_dateKeyOf by assumption.
  unfold DateUTC. rewrite MakeDay_fields. reflexivity.
Qed.

(** *** More fuel does not change the outcome of a loop *)

Section LocalZone.

Variable tz : Z.

Lemma monthLoop_more_fuel : forall fuel cur endMonth keys result,
  monthLoop tz fuel cur endMonth keys = Some result ->
  monthLoop tz (S fuel) cur endMonth keys = Some result.
Proof.
  induction fuel as [|f IH]; intros cur endMonth keys result H.
  - rewrite monthLoop_step. cbn [monthLoop] in H.
    destruct (cur <=? endMonth); [discriminate | exact H].
  - rewrite monthLoop_step in *.
    destruct (cur <=? endMonth); [apply IH, H | exact H].
Qed.

Lemma dateLoop_more_fuel : forall fuel step cur endDay keys result,
  dateLoop tz fuel step cur endDay keys = Some result ->
  dateLoop tz (S fuel) step cur endDay keys = Some result.
Proof.
  induction fuel as [|f IH]; intros step cur endDay keys result H.
  - rewrite dateLoop_step. cbn [dateLoop] in H.
    destruct (cur <=? endDay); [discriminate | exact H].
  - rewrite dateLoop_step in *.
    destruct (cur <=? endDay); [apply IH, H | exact H].
Qed.

(** A run is settled by [expected] when enough fuel gives [expected] and
    no amount of fuel gives anything else. *)
Definition settles (run : nat -> option (list jsstring)) (expected : list jsstring) : Prop :=
  (exists enough, forall fuel, (enough <= fuel)%nat -> run fuel = Some expected)
  /\ (forall fuel keys, run fuel = Some keys -> keys = expected).

Lemma settles_intro : forall run expected enough,
  (forall fuel result, run fuel = Some result -> run (S fuel) = Some result) ->
  (forall fuel, (enough <= fuel)%nat -> run fuel = Some expected) ->
  settles run expected.
Proof.
  intros run expected enough Hmore Henough. split; [exists enough; exact Henough|].
  intros fuel keys H.
  assert (Hk : forall k, run (k + fuel)%nat = Some keys).
  { induction k as [|k IHk]; [exact H|]. apply Hmore, IHk. }
  specialize (Hk enough). rewrite Henough in Hk by lia. congruence.
Qed.

Lemma generateMonthRangeInclusive_unfold : forall fuel start end_,
  generateMonthRangeInclusive tz fuel start end_
  = monthLoop tz fuel
      (newDate tz (getFullYear tz start) (getMonth tz start) 1 0 0 0 0)
      (newDate tz (getFullYear tz end_) (getMonth tz end_) 1 0 0 0 0) [].
Proof. reflexivity. Qed.

Lemma generateDateRangeInclusive_unfold : forall fuel start end_,
  generateDateRangeInclusive tz fuel start end_
  = dateLoop tz fuel 1
      (newDate tz (getFullYear tz start) (getMonth tz start) (getDate tz start) 0 0 0 0)
      (newDate tz (getFullYear tz end_) (getMonth tz end_) (getDate tz end_) 0 0 0 0) [].
Proof. reflexivity. Qed.

Lemma generateWeekRangeInclusive_unfold : forall fuel start end_,
  generateWeekRangeInclusive tz fuel start end_
  = match parseIsoDate (weekStartKey tz start) with
    | Some cur =>
        dateLoop tz fuel 7 cur
          (newDate tz (getFullYear tz end_) (getMonth tz end_) (getDate tz end_) 0 0 0 0) []
    | None => Some []
    end.
Proof. reflexivity. Qed.

Lemma months_settled : forall start end_,
  plainYear (getFullYear tz start) -> plainYear (getFullYear tz end_) ->
  settles (fun fuel => generateMonthRangeInclusive tz fuel start end_)
    (List.map monthKeyAt
       (periodsBetween (monthIndex (getFullYear tz start) (getMonth tz start))
          (monthIndex (getFullYear tz end_) (getMonth tz end_)) 1)).
Proof.
  intros start end_ Hs He.
  apply settles_intro
    with (enough := periodCount (monthIndex (getFullYear tz start) (getMonth tz start))
                      (monthIndex (getFullYear tz end_) (getMonth tz end_)) 1).
  - intros fuel result. rewrite !generateMonthRangeInclusive_unfold.
    apply monthLoop_more_fuel.
  - intros fuel Hf. rewrite generateMonthRangeInclusive_unfold, !newDate_month.
    rewrite (MakeFullYear_plain _ Hs), (MakeFullYear_plain _ He).
    rewrite (monthLoop_run tz _ _ _ [] fuel eq_refl Hf). reflexivity.
Qed.

Lemma days_settled : forall start end_,
  plainYear (getFullYear tz start) -> plainYear (getFullYear tz end_) ->
  settles (fun fuel => generateDateRangeInclusive tz fuel start end_)
    (List.map dayKeyAt (periodsBetween (localDay tz start) (localDay tz end_) 1)).
Proof.
  intros start end_ Hs He.
  apply settles_intro
    with (enough := periodCount (localDay tz start) (localDay tz end_) 1).
  - intros fuel result. rewrite !generateDateRangeInclusive_unfold.
    apply dateLoop_more_fuel.
  - intros fuel Hf.
    rewrite generateDateRangeInclusive_unfold, !newDate_day by assumption.
    rewrite (dateLoop_run tz 1 _ _ _ [] fuel ltac:(lia) eq_refl Hf). reflexivity.
Qed.

End LocalZone.

Lemma midnight_utc : forall n, midnight 0 n = MakeDate n 0.
Proof. intros n. unfold midnight, UTC. cbn [offsetAt offsetOfLocal fixed] in *. apply Z.sub_0_r. Qed.

Lemma weeks_settled : forall start end_,
  1000 <= YearFromDay (mondayOf (localDay 0 start)) <= 9999 ->
  plainYear (getFullYear 0 end_) ->
  settles (fun fuel => generateWeekRangeInclusive 0 fuel start end_)
    (List.map dayKeyAt (periodsBetween (mondayOf (localDay 0 start)) (localDay 0 end_) 7)).
Proof.
  intros start end_ Hy He.
  apply settles_intro
    with (enough := periodCount (mondayOf (localDay 0 start)) (localDay 0 end_) 7).
  - intros fuel result. rewrite !generateWeekRangeInclusive_unfold.
    destruct (parseIsoDate (weekStartKey 0 start)); [apply dateLoop_more_fuel | tauto].
  - intros fuel Hf.
    rewrite generateWeekRangeInclusive_unfold, weekStartKey_at.
    rewrite (parseIsoDate_dayKeyAt _ Hy), newDate_day, <- midnight_utc by exact He.
    rewrite (dateLoop_run 0 7 _ _ _ [] fuel ltac:(lia) eq_refl Hf). reflexivity.
Qed.

(** *** The periods of a range *)

(** The month number of an instant, and the periods from the period of
    [start] to the one of [end_]: month numbers, day numbers, and the
    Mondays from the week of [start] up to the day of [end_]. *)
Definition monthNumber (tz : Zone) (t : Z) : Z :=
  monthIndex (getFullYear tz t) (getMonth tz t).

Definition monthRange (tz : Zone) (start end_ : Z) : list Z :=
  periodsBetween (monthNumber tz start) (monthNumber tz end_) 1.

Definition dayRange (tz : Zone) (start end_ : Z) : list Z :=
  periodsBetween (localDay tz start) (localDay tz end_) 1.

Definition weekRange (tz : Zone) (start end_ : Z) : list Z :=
  periodsBetween (mondayOf (localDay tz start)) (localDay tz end_) 7.







End RangeEnumeration.

(** ** The ranking of the most-sold products *)

(** ** The order of numeric values in the store *)

Module NumericOrder.

Import Store.

(** The place of a value in the order of the store: NULL (a NaN here)
    first, then the numbers from minus infinity to plus infinity, the two
    zeros together. *)
Definition rank (x : spec_float) : Z :=
  match x with
  | S754_nan => 0
  | S754_infinity true => 1
  | S754_finite true _ _ => 2
  | S754_zero _ => 3
  | S754_finite false _ _ => 4
  | S754_infinity false => 5
  end.

Definition exponent (x : spec_float) : Z :=
  match x with
  | S754_finite true _ e => - e
  | S754_finite false _ e => e
  | _ => 0
  end.

Definition mantissa (x : spec_float) : Z :=
  match x with
  | S754_finite true m _ => - Zpos m
  | S754_finite false m _ => Zpos m
  | _ => 0
  end.

Definition below (x y : spec_float) : Prop :=
  rank x < rank y
  \/ (rank x = rank y
      /\ (exponent x < exponent y
          \/ (exponent x = exponent y /\ mantissa x < mantissa y))).

Definition level (x y : spec_float) : Prop :=
  rank x = rank y /\ exponent x = exponent y /\ mantissa x = mantissa y.

Definition sfCompare (x y : spec_float) : comparison :=
  match SFcompare x y with
  | Some c => c
  | None =>
      match x, y with
      | S754_nan, S754_nan => Eq
      | S754_nan, _ => Lt
      | _, _ => Gt
      end
  end.

Lemma sfCompare_spec : forall x y,
  match sfCompare x y with
  | Lt => below x y
  | Eq => level x y
  | Gt => below y x
  end.
Proof.
  intros [sx|sx| |sx mx ex] [sy|sy| |sy my ey]; unfold sfCompare, below, level;
    try (destruct sx); try (destruct sy); cbn -[Z.lt Z.opp]; try lia;
    change (Pos.compare_cont Eq mx my) with (Pos.compare mx my);
    destruct (Z.compare_spec ex ey); cbn -[Z.lt Z.opp]; try lia;
    destruct (Pos.compare_spec mx my); cbn -[Z.lt Z.opp]; lia.
Qed.

Lemma isNaN_reading : forall a,
  isNaN a = match Prim2SF a with S754_nan => true | _ => false end.
Proof.
  intros a. unfold isNaN, is_nan. rewrite FloatAxioms.eqb_spec. unfold SFeqb.
  destruct (Prim2SF a) as [s|s| |s m e]; cbn; try reflexivity.
  - destruct s; reflexivity.
  - rewrite Z.compare_refl, Pos.compare_cont_refl. destruct s; reflexivity.
Qed.

Lemma numericCompare_sf : forall a b,
  numericCompare a b = sfCompare (Prim2SF a) (Prim2SF b).
Proof.
  intros a b. unfold numericCompare, sfCompare.
  rewrite FloatAxioms.compare_spec, !isNaN_reading.
  destruct (SFcompare (Prim2SF a) (Prim2SF b)) as [[]|] eqn:E; cbn; try reflexivity.
  destruct (Prim2SF a) as [s|s| |s m e], (Prim2SF b) as [s'|s'| |s' m' e'];
    cbn in *; try reflexivity; discriminate.
Qed.

Lemma numericCompare_antisym : forall a b,
  numericCompare b a = CompOpp (numericCompare a b).
Proof.
  intros a b. rewrite !numericCompare_sf.
  pose proof (sfCompare_spec (Prim2SF a) (Prim2SF b)) as H1.
  pose proof (sfCompare_spec (Prim2SF b) (Prim2SF a)) as H2.
  unfold below, level in *.
  destruct (sfCompare (Prim2SF a) (Prim2SF b)), (sfCompare (Prim2SF b) (Prim2SF a));
    cbn; try reflexivity; exfalso; lia.
Qed.

Lemma numericCompare_trans : forall x y z,
  numericCompare x y <> Gt -> numericCompare y z <> Gt -> numericCompare x z <> Gt.
Proof.
  intros x y z. rewrite !numericCompare_sf.
  pose proof (sfCompare_spec (Prim2SF x) (Prim2SF y)) as H1.
  pose proof (sfCompare_spec (Prim2SF y) (Prim2SF z)) as H2.
  pose proof (sfCompare_spec (Prim2SF x) (Prim2SF z)) as H3.
  unfold below, level in *.
  destruct (sfCompare (Prim2SF x) (Prim2SF y)), (sfCompare (Prim2SF y) (Prim2SF z)),
    (sfCompare (Prim2SF x) (Prim2SF z));
    intros; try congruence; exfalso; lia.
Qed.

(** What the comparison says in the words of the program's own
    comparisons of numbers. *)
Lemma numericCompare_Lt : forall a b,
  numericCompare a b = Lt
  <-> lt a b = true \/ (isNaN a = true /\ isNaN b = false).
Proof.
  intros a b. rewrite numericCompare_sf. unfold lt, sfCompare.
  rewrite FloatAxioms.ltb_spec, !isNaN_reading. unfold SFltb.
  destruct (SFcompare (Prim2SF a) (Prim2SF b)) as [[]|] eqn:E.
  - split; [discriminate|]. intros [H | [H1 H2]]; [discriminate|].
    destruct (Prim2SF a); try discriminate.
  - split; [left; reflexivity | reflexivity].
  - split; [discriminate|]. intros [H | [H1 H2]]; [discriminate|].
    destruct (Prim2SF a); try discriminate.
  - destruct (Prim2SF a) as [s|s| |s m e], (Prim2SF b) as [s'|s'| |s' m' e'];
      cbn in *; try discriminate; split; intros H; try discriminate; try reflexivity;
      try (right; split; reflexivity);
      try (destruct H as [H | [H1 H2]]; discriminate).
Qed.

Lemma numericCompare_Eq : forall a b,
  numericCompare a b = Eq
  <-> strictEq a b = true \/ (isNaN a = true /\ isNaN b = true).
Proof.
  intros a b. rewrite numericCompare_sf. unfold strictEq, sfCompare.
  rewrite FloatAxioms.eqb_spec, !isNaN_reading. unfold SFeqb.
  destruct (SFcompare (Prim2SF a) (Prim2SF b)) as [[]|] eqn:E.
  - split; [left; reflexivity | reflexivity].
  - split; [discriminate|]. intros [H | [H1 H2]]; [discriminate|].
    destruct (Prim2SF a); try discriminate.
  - split; [discriminate|]. intros [H | [H1 H2]]; [discriminate|].
    destruct (Prim2SF a); try discriminate.
  - destruct (Prim2SF a) as [s|s| |s m e], (Prim2SF b) as [s'|s'| |s' m' e'];
      cbn in *; try discriminate; split; intros H; try discriminate; try reflexivity;
      try (right; split; reflexivity);
      try (destruct H as [H | [H1 H2]]; discriminate).
Qed.

End NumericOrder.

(** ** The ranking of the most sold products *)

Module RankingFacts.

Import Store JsArray ArrayFacts MostSoldProducts NumericOrder.

(** *** Comparisons that are total preorders *)

Section Comparisons.

Variable A : Type.

Definition orderLike (c : A -> A -> comparison) : Prop :=
  (forall a b, c b a = CompOpp (c a b))
  /\ (forall x y z, c x y <> Gt -> c y z <> Gt -> c x z <> Gt).

(** [ORDER BY k1, k2]: the second key decides where the first one ties. *)
Definition thenBy (c1 c2 : A -> A -> comparison) (a b : A) : comparison :=
  match c1 a b with Eq => c2 a b | r => r end.

Lemma orderLike_thenBy : forall c1 c2,
  orderLike c1 -> orderLike c2 -> orderLike (thenBy c1 c2).
Proof.
  intros c1 c2 [A1 T1] [A2 T2]. split.
  - intros a b. unfold thenBy. rewrite (A1 a b), (A2 a b).
    destruct (c1 a b); reflexivity.
  - intros x y z. unfold thenBy.
    pose proof (T1 x y z) as Hxz.
    pose proof (T1 z x y) as Hzy.
    pose proof (T1 y z x) as Hyx.
    rewrite (A1 x z) in Hzy, Hyx. rewrite (A1 y z) in Hzy. rewrite (A1 x y) in Hyx.
    pose proof (T2 x y z) as H2.
    destruct (c1 x y), (c1 y z), (c1 x z); simpl in *; intuition congruence.
Qed.

Lemma signOf_le : forall c, signOf c <= 0 <-> c <> Gt.
Proof. intros []; simpl; split; intros H; try lia; congruence. Qed.

Lemma orderLike_total : forall c, orderLike c ->
  forall a b, signOf (c a b) <= 0 \/ signOf (c b a) <= 0.
Proof.
  intros c [A1 _] a b. rewrite (A1 a b). destruct (c a b); simpl; lia.
Qed.

Lemma orderLike_trans : forall c, orderLike c ->
  forall x y z, signOf (c x y) <= 0 -> signOf (c y z) <= 0 -> signOf (c x z) <= 0.
Proof. intros c [_ T1] x y z. rewrite !signOf_le. apply T1. Qed.

End Comparisons.

(** Texts in the order of their code points, said without the
    comparison of the program: a text comes before another when it is a
    proper prefix of it, or has the smaller code point at the first
    place where the two differ. *)
Inductive pointsBefore : list Z -> list Z -> Prop :=
| prefix_before : forall y l, pointsBefore [] (y :: l)
| smaller_before : forall x y l l', x < y -> pointsBefore (x :: l) (y :: l')
| later_before : forall x l l', pointsBefore l l' -> pointsBefore (x :: l) (x :: l').

Lemma lexCompare_Lt : forall a b,
  Collation.lexCompare a b = Lt <-> pointsBefore a b.
Proof.
  induction a as [|x a IH]; destruct b as [|y b]; simpl.
  - split; [discriminate | intros H; inversion H].
  - split; [intros _; constructor | reflexivity].
  - split; [discriminate | intros H; inversion H].
  - destruct (Z.compare_spec x y) as [E | L | G].
    + subst y. rewrite IH. split; [intros H; constructor 3; exact H|].
      intros H. inversion H; subst; [lia | assumption].
    + split; [intros _; constructor 2; exact L | reflexivity].
    + split; [discriminate|]. intros H. inversion H; subst; lia.
Qed.

(** NULL first, then the texts in the order of their code points. *)
Definition textNotAfter (a b : option jsstring) : Prop :=
  match a, b with
  | None, _ => True
  | Some _, None => False
  | Some x, Some y =>
      codePoints x = codePoints y \/ pointsBefore (codePoints x) (codePoints y)
  end.

Lemma compareNullable_notAfter : forall a b,
  compareNullable a b <> Gt <-> textNotAfter a b.
Proof.
  intros [x|] [y|]; simpl; try (split; [intros _; exact I | discriminate]).
  - unfold binaryCompare.
    destruct (Collation.lexCompare (codePoints x) (codePoints y)) eqn:E.
    + apply CollationFacts.lexCompare_eq in E. split; [auto | discriminate].
    + apply lexCompare_Lt in E. split; [auto | discriminate].
    + split; [congruence|]. intros [H | H].
      * rewrite H, CollationFacts.lexCompare_refl in E. discriminate.
      * apply lexCompare_Lt in H. congruence.
  - split; [congruence | intros []].
Qed.

Lemma compareNullable_orderLike : orderLike _ compareNullable.
Proof.
  split.
  - intros [a|] [b|]; simpl; try reflexivity.
    apply CollationFacts.lexCompare_antisym.
  - intros [x|] [y|] [z|]; simpl; try congruence.
    apply CollationFacts.lexCompare_le_trans.
Qed.

Lemma compareNullable_refl : forall a, compareNullable a a = Eq.
Proof. intros [a|]; simpl; [apply CollationFacts.lexCompare_refl | reflexivity]. Qed.

Lemma orderLike_on : forall (A B : Type) (f : A -> B) c,
  orderLike B c -> orderLike A (fun a b => c (f a) (f b)).
Proof.
  intros A B f c [A1 T1]. split.
  - intros a b. apply A1.
  - intros x y z. apply T1.
Qed.

Definition byQuantityDesc (a b : ProductGroup) : comparison :=
  numericCompare (g_total_quantity b) (g_total_quantity a).

Definition byReference (a b : ProductGroup) : comparison :=
  compareNullable (g_reference a) (g_reference b).

Definition byCategory (a b : ProductGroup) : comparison :=
  compareNullable (g_category a) (g_category b).

Lemma byQuantityDesc_orderLike : orderLike _ byQuantityDesc.
Proof.
  unfold byQuantityDesc. split.
  - intros a b. apply numericCompare_antisym.
  - intros x y z H1 H2. apply (numericCompare_trans _ (g_total_quantity y)); assumption.
Qed.

Lemma windowOrder_thenBy : forall a b,
  windowOrder a b = signOf (thenBy _ byQuantityDesc byReference a b).
Proof.
  intros a b. unfold windowOrder, thenBy, byQuantityDesc, byReference.
  destruct (numericCompare (g_total_quantity b) (g_total_quantity a)); reflexivity.
Qed.

Lemma resultOrder_thenBy : forall a b,
  resultOrder a b
  = signOf (thenBy _ byQuantityDesc (thenBy _ byCategory byReference) (r_group a) (r_group b)).
Proof.
  intros a b. unfold resultOrder, thenBy, byQuantityDesc, byReference, byCategory.
  cbv zeta.
  destruct (numericCompare (g_total_quantity (r_group b)) (g_total_quantity (r_group a)));
    try reflexivity.
  destruct (compareNullable (g_category (r_group a)) (g_category (r_group b)));
    reflexivity.
Qed.

Lemma windowKeys_orderLike : orderLike _ (thenBy _ byQuantityDesc byReference).
Proof.
  apply orderLike_thenBy; [apply byQuantityDesc_orderLike|].
  apply (orderLike_on _ _ g_reference), compareNullable_orderLike.
Qed.

Lemma resultKeys_orderLike :
  orderLike _ (thenBy _ byQuantityDesc (thenBy _ byCategory byReference)).
Proof.
  apply orderLike_thenBy; [apply byQuantityDesc_orderLike|].
  apply orderLike_thenBy.
  - apply (orderLike_on _ _ g_category), compareNullable_orderLike.
  - apply (orderLike_on _ _ g_reference), compareNullable_orderLike.
Qed.

Lemma windowOrder_total : forall a b, before _ windowOrder a b \/ before _ windowOrder b a.
Proof.
  intros a b. unfold before. rewrite !windowOrder_thenBy.
  apply orderLike_total, windowKeys_orderLike.
Qed.

Lemma windowOrder_trans : forall a b c,
  before _ windowOrder a b -> before _ windowOrder b c -> before _ windowOrder a c.
Proof.
  intros a b c. unfold before. rewrite !windowOrder_thenBy.
  apply orderLike_trans, windowKeys_orderLike.
Qed.

Lemma resultOrder_total : forall a b, before _ resultOrder a b \/ before _ resultOrder b a.
Proof.
  intros a b. unfold before. rewrite !resultOrder_thenBy.
  apply (orderLike_total _ _ resultKeys_orderLike).
Qed.

Lemma resultOrder_trans : forall a b c,
  before _ resultOrder a b -> before _ resultOrder b c -> before _ resultOrder a c.
Proof.
  intros a b c. unfold before. rewrite !resultOrder_thenBy.
  apply (orderLike_trans _ _ resultKeys_orderLike).
Qed.

(** Inside one category the order of the result is the order of the
    window. *)
Lemma resultOrder_same_category : forall a b,
  g_category (r_group a) = g_category (r_group b) ->
  resultOrder a b = windowOrder (r_group a) (r_group b).
Proof.
  intros a b E. rewrite resultOrder_thenBy, windowOrder_thenBy.
  unfold thenBy at 1 3. unfold thenBy, byCategory.
  rewrite E, compareNullable_refl. reflexivity.
Qed.

(** The order of the claim, said with the comparisons of numbers and
    without those of the query: the product that sold more comes first
    (a total that is NULL, a NaN here, counting as the least), and of
    two that sold as much the one whose reference is not after the
    other's. *)
Definition soldMore (a b : ProductGroup) : Prop :=
  lt (g_total_quantity b) (g_total_quantity a) = true
  \/ (isNaN (g_total_quantity b) = true /\ isNaN (g_total_quantity a) = false).

Definition soldAsMuch (a b : ProductGroup) : Prop :=
  strictEq (g_total_quantity b) (g_total_quantity a) = true
  \/ (isNaN (g_total_quantity b) = true /\ isNaN (g_total_quantity a) = true).

Definition rankedBefore (a b : ProductGroup) : Prop :=
  soldMore a b
  \/ (soldAsMuch a b /\ textNotAfter (g_reference a) (g_reference b)).

Lemma windowOrder_rankedBefore : forall a b,
  before _ windowOrder a b <-> rankedBefore a b.
Proof.
  intros a b. unfold before, rankedBefore, windowOrder, soldMore, soldAsMuch.
  rewrite <- numericCompare_Lt, <- numericCompare_Eq, <- compareNullable_notAfter.
  destruct (numericCompare (g_total_quantity b) (g_total_quantity a)).
  - rewrite signOf_le. split; [intros H; right; auto|].
    intros [H | [_ H]]; [discriminate | exact H].
  - simpl. split; [intros _; left; reflexivity | lia].
  - simpl. split; [lia|]. intros [H | [H _]]; discriminate.
Qed.

(** *** Lists *)

Lemma StronglySorted_impl : forall (A : Type) (R S : A -> A -> Prop) l,
  (forall a b, R a b -> S a b) -> StronglySorted R l -> StronglySorted S l.
Proof.
  intros A R S l HRS H. induction H as [|x l Hl IH Hx]; constructor.
  - exact IH.
  - eapply Forall_impl; [|exact Hx]. intros b. apply HRS.
Qed.

Lemma StronglySorted_app_l : forall (A : Type) (R : A -> A -> Prop) l1 l2,
  StronglySorted R (l1 ++ l2) -> StronglySorted R l1.
Proof.
  intros A R l1 l2. induction l1 as [|x l1 IH]; simpl; intros H.
  - constructor.
  - inversion H as [|? ? Hl Hx]; subst. constructor.
    + apply IH, Hl.
    + apply Forall_app in Hx. apply Hx.
Qed.

Lemma StronglySorted_firstn : forall (A : Type) (R : A -> A -> Prop) n l,
  StronglySorted R l -> StronglySorted R (firstn n l).
Proof.
  intros A R n l H. rewrite <- (firstn_skipn n l) in H.
  apply StronglySorted_app_l in H. exact H.
Qed.

Lemma filter_flat_map_each : forall (A B : Type) (keep : B -> bool) (f : A -> list B) l,
  filter keep (flat_map f l) = flat_map (fun x => filter keep (f x)) l.
Proof.
  intros A B keep f l. induction l as [|x l IH]; simpl; [reflexivity|].
  rewrite filter_app, IH. reflexivity.
Qed.

Lemma filter_constant : forall (A : Type) (keep : A -> bool) (b : bool) l,
  (forall x, In x l -> keep x = b) -> filter keep l = if b then l else [].
Proof.
  intros A keep b l. induction l as [|x l IH]; simpl; intros H.
  - destruct b; reflexivity.
  - rewrite (H x (or_introl eq_refl)), IH by (intros y Hy; apply H; right; exact Hy).
    destruct b; reflexivity.
Qed.

Lemma filter_swap : forall (A : Type) (f g : A -> bool) l,
  filter f (filter g l) = filter g (filter f l).
Proof.
  intros A f g l. induction l as [|x l IH]; simpl; [reflexivity|].
  destruct (f x) eqn:Ef, (g x) eqn:Eg; simpl; rewrite ?Ef, ?Eg, IH; reflexivity.
Qed.

Lemma filter_both : forall (A : Type) (f g : A -> bool) l,
  filter f (filter g l) = filter (fun x => g x && f x) l.
Proof.
  intros A f g l. induction l as [|x l IH]; simpl; [reflexivity|].
  destruct (g x) eqn:Eg; simpl; [destruct (f x)|]; rewrite IH; reflexivity.
Qed.

Lemma filter_of_map : forall (A B : Type) (keep : B -> bool) (f : A -> B) l,
  filter keep (List.map f l) = List.map f (filter (fun x => keep (f x)) l).
Proof.
  intros A B keep f l. induction l as [|x l IH]; simpl; [reflexivity|].
  destruct (keep (f x)); simpl; rewrite IH; reflexivity.
Qed.

(** One entry of a list without duplicates selects one block. *)
Lemma flat_map_single : forall (A B : Type) (eqb : A -> A -> bool) (F : A -> list B) c l,
  (forall a b, eqb a b = true <-> a = b) ->
  NoDup l ->
  flat_map (fun x => if eqb x c then F x else []) l
  = if existsb (fun x => eqb x c) l then F c else [].
Proof.
  intros A B eqb F c l Heq Hnd. induction Hnd as [|x l Hx Hnd IH]; simpl; [reflexivity|].
  rewrite IH. destruct (eqb x c) eqn:E; simpl; [|reflexivity].
  apply Heq in E. subst x.
  assert (Hn : existsb (fun x => eqb x c) l = false).
  { destruct (existsb (fun x => eqb x c) l) eqn:Ex; [|reflexivity].
    apply existsb_exists in Ex. destruct Ex as [y [Hy Ey]].
    apply Heq in Ey. subst y. contradiction. }
  rewrite Hn. apply app_nil_r.
Qed.

Section DedupOfMap.

Variables A B : Type.
Variable eqbA : A -> A -> bool.
Variable eqbB : B -> B -> bool.
Variable f : A -> B.
Hypothesis same : forall a b, eqbB (f a) (f b) = eqbA a b.

Lemma existsb_of_map : forall x l,
  existsb (eqbB (f x)) (List.map f l) = existsb (eqbA x) l.
Proof.
  intros x l. induction l as [|y l IH]; simpl; [reflexivity|].
  rewrite same, IH. reflexivity.
Qed.

Lemma dedupAcc_of_map : forall l seen,
  dedupAcc eqbB (List.map f seen) (List.map f l) = List.map f (dedupAcc eqbA seen l).
Proof.
  induction l as [|x l IH]; intros seen; simpl; [reflexivity|].
  rewrite existsb_of_map. destruct (existsb (eqbA x) seen).
  - apply IH.
  - simpl. f_equal. apply (IH (x :: seen)).
Qed.

Lemma dedup_of_map : forall l,
  dedup eqbB (List.map f l) = List.map f (dedup eqbA l).
Proof. intros l. apply (dedupAcc_of_map l []). Qed.

End DedupOfMap.

Section WithEngine.

Context {engine : Engine}.

(** *** Numbering *)

Lemma number_from_groups : forall l i total,
  List.map r_group (number_from i total l) = l.
Proof.
  induction l as [|g l IH]; intros i total; simpl; [reflexivity|].
  rewrite IH. reflexivity.
Qed.

Lemma number_from_ranks : forall l s total,
  List.map rn (number_from (Z.of_nat s) total l)
  = List.map Z.of_nat (seq s (List.length l)).
Proof.
  induction l as [|g l IH]; intros s total; simpl; [reflexivity|].
  f_equal. rewrite <- (IH (S s) total). f_equal. f_equal. lia.
Qed.

Lemma number_from_total : forall l i total,
  Forall (fun r => r_category_total_quantity r = total) (number_from i total l).
Proof.
  induction l as [|g l IH]; intros i total; simpl; constructor; [reflexivity | apply IH].
Qed.

Lemma number_from_length : forall l i total,
  List.length (number_from i total l) = List.length l.
Proof.
  intros l i total. rewrite <- (number_from_groups l i total) at 2.
  symmetry. apply length_map.
Qed.

(** The rows numbered up to [cutoff] are the first rows. *)
Lemma number_from_cutoff : forall cutoff l i total,
  filter (fun r => rn r <=? cutoff) (number_from i total l)
  = number_from i total (firstn (Z.to_nat (cutoff + 1 - i)) l).
Proof.
  intros cutoff. induction l as [|g l IH]; intros i total.
  - rewrite firstn_nil. reflexivity.
  - simpl. rewrite IH. destruct (Z.leb_spec i cutoff) as [L | L].
    + replace (Z.to_nat (cutoff + 1 - i)) with (S (Z.to_nat (cutoff + 1 - (i + 1)))) by lia.
      reflexivity.
    + replace (Z.to_nat (cutoff + 1 - i)) with 0%nat by lia.
      replace (Z.to_nat (cutoff + 1 - (i + 1))) with 0%nat by lia.
      reflexivity.
Qed.

Lemma number_from_sorted : forall l i total c,
  Forall (fun g => g_category g = c) l ->
  StronglySorted (before _ windowOrder) l ->
  StronglySorted (before _ resultOrder) (number_from i total l).
Proof.
  induction l as [|g l IH]; intros i total c Hc Hs; simpl; [constructor|].
  inversion Hc as [|? ? Hg Hl]; subst. inversion Hs as [|? ? Hs' Hx]; subst.
  constructor; [apply (IH _ _ (g_category g)); assumption|].
  apply Forall_forall. intros r Hr.
  assert (Hin : In (r_group r) l).
  { rewrite <- (number_from_groups l (i + 1) total). apply in_map, Hr. }
  unfold before. rewrite resultOrder_same_category.
  - simpl. rewrite Forall_forall in Hx. apply Hx, Hin.
  - simpl. rewrite Forall_forall in Hl. symmetry. apply Hl, Hin.
Qed.

(** *** The partitions of the ranking *)

Definition categoryTotal (part : list ProductGroup) : number :=
  SUM (List.map g_total_quantity part).

Definition ofCategory (c : option jsstring) (r : RankedRow) : bool :=
  inCategory c (r_group r).

Lemma rankPartition_groups : forall part,
  List.map r_group (rankPartition part) = sortBy windowOrder part.
Proof. intros part. apply number_from_groups. Qed.

Lemma inCategory_true : forall c g, inCategory c g = true <-> g_category g = c.
Proof. intros c g. apply StringFacts.textEqb_eq. Qed.

Lemma partition_of_category : forall groups c,
  filter (ofCategory c) (ranked groups) = rankPartition (filter (inCategory c) groups).
Proof.
  intros groups c. unfold ranked. rewrite filter_flat_map_each.
  rewrite (flat_map_ext _
             (fun c' => if textEqb c' c
                        then rankPartition (filter (inCategory c') groups) else [])).
  - rewrite (flat_map_single _ _ textEqb _ c _ StringFacts.textEqb_eq)
      by (apply dedup_NoDup, StringFacts.textEqb_eq).
    destruct (existsb (fun x => textEqb x c) _) eqn:Ex; [reflexivity|].
    replace (filter (inCategory c) groups) with (@nil ProductGroup); [reflexivity|].
    symmetry. rewrite (filter_constant _ _ false); [reflexivity|].
    intros g Hg. destruct (inCategory c g) eqn:E; [|reflexivity].
    apply inCategory_true in E.
    assert (Hc : In c (dedup textEqb (List.map g_category groups))).
    { apply (dedup_In _ textEqb StringFacts.textEqb_eq). rewrite <- E. apply in_map, Hg. }
    assert (Hex : existsb (fun x => textEqb x c)
                    (dedup textEqb (List.map g_category groups)) = true).
    { apply existsb_exists. exists c. split; [exact Hc | apply StringFacts.textEqb_eq; reflexivity]. }
    congruence.
  - intros c'. apply filter_constant. intros r Hr.
    assert (Hin : In (r_group r) (filter (inCategory c') groups)).
    { apply (sortBy_In _ windowOrder). rewrite <- rankPartition_groups. apply in_map, Hr. }
    apply filter_In in Hin. destruct Hin as [_ Hin]. apply inCategory_true in Hin.
    unfold ofCategory, inCategory. rewrite Hin. reflexivity.
Qed.

(** The rows of one category in the result: the first five groups of
    the category in the order of the window, numbered from one. *)
Lemma category_rows : forall whereSql table c,
  filter (ofCategory c) (topProductsQuery whereSql table)
  = number_from 1
      (categoryTotal (filter (inCategory c) (filtered whereSql table)))
      (firstn 5 (sortBy windowOrder (filter (inCategory c) (filtered whereSql table)))).
Proof.
  intros whereSql table c. unfold topProductsQuery.
  rewrite (filter_sortBy _ _ resultOrder_total resultOrder_trans).
  rewrite filter_swap, partition_of_category. unfold rankPartition.
  rewrite number_from_cutoff. change (Z.to_nat (5 + 1 - 1)) with 5%nat.
  apply sortBy_sorted_id.
  apply (number_from_sorted _ _ _ c).
  - apply Forall_forall. intros g Hg.
    assert (Hin : In g (sortBy windowOrder (filter (inCategory c) (filtered whereSql table)))).
    { rewrite <- (firstn_skipn 5). apply in_or_app. left. exact Hg. }
    apply sortBy_In, filter_In in Hin. apply inCategory_true, Hin.
  - apply StronglySorted_firstn.
    apply (sortBy_strongly_sorted _ _ windowOrder_total windowOrder_trans).
Qed.

(** *** The products of a category *)

Definition Product : Type := option jsstring * option jsstring.

Definition productOf (r : FactRow) : Product := (product_family r, product_reference r).

Definition productEqb (a b : Product) : bool :=
  textEqb (fst a) (fst b) && textEqb (snd a) (snd b).

(** The distinct products, family and reference, sold in category [c]. *)
Definition productsOf (c : option jsstring) (dataset : list FactRow) : list Product :=
  dedup productEqb
    (List.map productOf (filter (fun r => textEqb (product_category r) c) dataset)).

Definition groupProduct (g : ProductGroup) : Product := (g_family g, g_reference g).

Definition categoryGroups (whereSql : FactRow -> bool) (table : list FactRow)
  (c : option jsstring) : list ProductGroup :=
  filter (inCategory c) (filtered whereSql table).

Lemma keyEqb_eq : forall a b, keyEqb a b = true <-> a = b.
Proof.
  intros [[c1 f1] r1] [[c2 f2] r2]. unfold keyEqb.
  rewrite !andb_true_iff, !StringFacts.textEqb_eq. split.
  - intros [[-> ->] ->]. reflexivity.
  - intros H. injection H as -> -> ->. auto.
Qed.

Lemma textEqb_refl : forall a, textEqb a a = true.
Proof. intros a. apply StringFacts.textEqb_eq. reflexivity. Qed.

Lemma categoryGroups_products : forall whereSql table c,
  List.map groupProduct (categoryGroups whereSql table c)
  = productsOf c (filter whereSql table).
Proof.
  intros whereSql table c. unfold categoryGroups, filtered, productsOf.
  rewrite filter_of_map, map_map.
  rewrite (filter_ext _ (fun k : ProductKey => textEqb (fst (fst k)) c))
    by (intros [[c' f'] r']; reflexivity).
  rewrite (filter_dedup _ keyEqb keyEqb_eq).
  rewrite filter_of_map.
  rewrite (map_ext _ (fun k : ProductKey => (snd (fst k), snd k)))
    by (intros [[c' f'] r']; reflexivity).
  set (rows := filter (fun x => textEqb (fst (fst (productKey x))) c) (filter whereSql table)).
  assert (Hrows : List.map productKey rows
                  = List.map (fun p : Product => (c, fst p, snd p)) (List.map productOf rows)).
  { rewrite map_map. apply map_ext_in. intros r Hr.
    apply filter_In in Hr. destruct Hr as [_ Hr]. simpl in Hr.
    apply StringFacts.textEqb_eq in Hr. unfold productKey, productOf. simpl.
    rewrite Hr. reflexivity. }
  rewrite Hrows.
  rewrite (dedup_of_map _ _ productEqb keyEqb (fun p : Product => (c, fst p, snd p))).
  - rewrite map_map.
    rewrite (map_ext _ (fun p : Product => p)) by (intros [f' r']; reflexivity).
    rewrite map_id. reflexivity.
  - intros [f1 r1] [f2 r2]. unfold keyEqb, productEqb. simpl.
    rewrite textEqb_refl. reflexivity.
Qed.

(** The quantity sold by a fact row, and the fact rows of a product. *)
Definition soldQuantity (r : FactRow) : number :=
  match quantity r with Some q => q | None => zero end.

Definition rowsOf (g : ProductGroup) (dataset : list FactRow) : list FactRow :=
  filter
    (fun row =>
       textEqb (product_category row) (g_category g)
       && textEqb (product_family row) (g_family g)
       && textEqb (product_reference row) (g_reference g))
    dataset.

Lemma valuesOf_quantity : forall rows,
  valuesOf (Coalesce (Col col_quantity) (Lit 0)) rows = List.map soldQuantity rows.
Proof.
  induction rows as [|r rows IH]; [reflexivity|].
  unfold valuesOf in *. cbn [flat_map List.map]. rewrite IH.
  unfold soldQuantity. cbn [eval column]. destruct (quantity r); reflexivity.
Qed.

(** The quantity of a group is the sum of the quantities of its rows. *)
Lemma filtered_quantities : forall whereSql table,
  Forall (fun g => g_total_quantity g
                   = SUM (List.map soldQuantity (rowsOf g (filter whereSql table))))
    (filtered whereSql table).
Proof.
  intros whereSql table. unfold filtered. apply Forall_forall. intros g Hg.
  apply in_map_iff in Hg. destruct Hg as [[[c f] r] [Hg _]]. subst g.
  cbn [g_total_quantity]. unfold sumOf. rewrite valuesOf_quantity. reflexivity.
Qed.

Lemma Forall_filter : forall (A : Type) (P : A -> Prop) (keep : A -> bool) l,
  Forall P l -> Forall P (filter keep l).
Proof.
  intros A P keep l H. rewrite Forall_forall in *. intros x Hx.
  apply filter_In in Hx. apply H, Hx.
Qed.

(** Seven products in one category and three in another; two of the
    three sold as much as each other and stand in the table against the
    order of their references. *)
Definition sale (category reference : string) (sold : number) : FactRow :=
  mkFact 0 None (js "Stock") None None (Some (js category)) None (Some (js reference))
    None (Some sold) None None.

Definition sampleSales : list FactRow :=
  [ sale "Fruit" "F1" 10%float; sale "Fruit" "F2" 20%float; sale "Fruit" "F3" 30%float;
    sale "Fruit" "F4" 40%float; sale "Fruit" "F5" 50%float; sale "Fruit" "F6" 60%float;
    sale "Fruit" "F7" 70%float; sale "Fruit" "F7" 5.5%float;
    sale "Tools" "T2" 7%float; sale "Tools" "T1" 7%float; sale "Tools" "T3" 9%float ].

Definition rankedLine (r : RankedRow) : jsstring * jsstring * number * Z :=
  (match g_category (r_group r) with Some c => c | None => [] end,
   match g_reference (r_group r) with Some c => c | None => [] end,
   g_total_quantity (r_group r), rn r).

(** C1.  For every filtered dataset and every product category, the rows
    of the ranking in that category are exactly min(5, number of
    distinct products of the category) rows, a product being a pair of
    family and reference, with the total quantity the engine sums over
    the fact rows of the product; they are the first rows of the
    category's products ordered by total quantity descending, ties
    broken by the product reference ascending in the order of code
    points, and they carry the ranks 1, 2, ... in that order.  The
    cutoff applies to each category on its own: with seven products in
    one category and three in another the ranking has eight rows, five
    of the first and three of the second, and of the two products that
    sold 7 the one with the smaller reference is ranked first, against
    the order of the table. *)
Theorem top_five_per_category :
  (forall whereSql table c,
      List.length (filter (ofCategory c) (topProductsQuery whereSql table))
      = Nat.min 5 (List.length (productsOf c (filter whereSql table)))
      /\ List.map rn (filter (ofCategory c) (topProductsQuery whereSql table))
         = List.map Z.of_nat
             (seq 1 (List.length (filter (ofCategory c) (topProductsQuery whereSql table))))
      /\ List.map groupProduct (categoryGroups whereSql table c)
         = productsOf c (filter whereSql table)
      /\ Forall (fun g => g_total_quantity g
                          = SUM (List.map soldQuantity (rowsOf g (filter whereSql table))))
           (categoryGroups whereSql table c)
      /\ exists rest,
           Permutation (categoryGroups whereSql table c)
             (List.map r_group (filter (ofCategory c) (topProductsQuery whereSql table))
              ++ rest)
           /\ StronglySorted rankedBefore
                (List.map r_group (filter (ofCategory c) (topProductsQuery whereSql table))
                 ++ rest))
  /\ List.map rankedLine (topProductsQuery (engine := leftToRight) (fun _ => true) sampleSales)
     = [ (js "Fruit", js "F7", 75.5%float, 1); (js "Fruit", js "F6", 60%float, 2);
         (js "Fruit", js "F5", 50%float, 3); (js "Fruit", js "F4", 40%float, 4);
         (js "Fruit", js "F3", 30%float, 5);
         (js "Tools", js "T3", 9%float, 1); (js "Tools", js "T1", 7%float, 2);
         (js "Tools", js "T2", 7%float, 3) ].
Proof.
  split; [|vm_compute; reflexivity].
  intros whereSql table c. rewrite category_rows.
  fold (categoryGroups whereSql table c).
  rewrite number_from_length, length_firstn, sortBy_length.
  rewrite <- categoryGroups_products, length_map.
  split; [reflexivity|]. split.
  { change 1 with (Z.of_nat 1). rewrite number_from_ranks.
    rewrite length_firstn, sortBy_length. reflexivity. }
  split; [reflexivity|]. split.
  { apply Forall_filter, filtered_quantities. }
  rewrite number_from_groups.
  exists (skipn 5 (sortBy windowOrder (categoryGroups whereSql table c))).
  rewrite firstn_skipn. split.
  - apply Permutation_sym, sortBy_perm.
  - apply (StronglySorted_impl _ (before _ windowOrder)).
    + intros a b. apply windowOrder_rankedBefore.
    + apply (sortBy_strongly_sorted _ _ windowOrder_total windowOrder_trans).
Qed.

End WithEngine.

End RankingFacts.

(** ** Partner buckets: canonical keys and display names *)

Module PartnerBuckets.

Import Store Numbers JsArray TopPartners HostLaws.

(** *** The canonical key of a canonical key *)

Lemma isLowerAlnum_range : forall c,
  isLowerAlnum c = true -> (97 <= c <= 122 \/ 48 <= c <= 57)%N.
Proof.
  intros c. unfold isLowerAlnum.
  rewrite orb_true_iff, !andb_true_iff, !N.leb_le. tauto.
Qed.

Lemma asciiLower_lowerAlnum : forall c, isLowerAlnum c = true -> asciiLower c = c.
Proof.
  intros c H. apply isLowerAlnum_range in H. unfold asciiLower.
  destruct (N.leb_spec 65 c), (N.leb_spec c 90); simpl; try reflexivity; lia.
Qed.

Lemma isAscii_lowerAlnum : forall c, isLowerAlnum c = true -> isAscii c = true.
Proof.
  intros c H. apply isLowerAlnum_range in H. unfold isAscii. apply N.ltb_lt. lia.
Qed.

Lemma isCombiningMark_lowerAlnum : forall c,
  isLowerAlnum c = true -> isCombiningMark c = false.
Proof.
  intros c H. apply isLowerAlnum_range in H. unfold isCombiningMark.
  destruct (N.leb_spec 768 c); simpl; [lia | reflexivity].
Qed.

Lemma forallb_weaken : forall (A : Type) (f g : A -> bool) l,
  (forall x, f x = true -> g x = true) -> forallb f l = true -> forallb g l = true.
Proof.
  intros A f g l H. rewrite !forallb_forall. intros Hf x Hx. apply H, Hf, Hx.
Qed.

Lemma filter_all : forall (A : Type) (f : A -> bool) l,
  forallb f l = true -> filter f l = l.
Proof.
  intros A f l. induction l as [|x l IH]; simpl; [reflexivity|].
  intros H. apply andb_true_iff in H. destruct H as [Hx Hl].
  rewrite Hx, (IH Hl). reflexivity.
Qed.

Lemma map_fixed : forall (A : Type) (f : A -> A) (keep : A -> bool) l,
  (forall x, keep x = true -> f x = x) -> forallb keep l = true -> List.map f l = l.
Proof.
  intros A f keep l H. induction l as [|x l IH]; simpl; [reflexivity|].
  intros Hl. apply andb_true_iff in Hl. destruct Hl as [Hx Hl].
  rewrite (H x Hx), (IH Hl). reflexivity.
Qed.

Section AnyHost.

Context {host : Host.Intl}.

Hypothesis host_plainOnAscii : plainOnAscii.

Hypothesis host_orders : orders (localeCompare accent true).

Lemma canonicalizePartnerKey_fixed : forall s,
  forallb isLowerAlnum s = true -> canonicalizePartnerKey s = s.
Proof.
  intros s H. unfold canonicalizePartnerKey.
  destruct (host_plainOnAscii s (forallb_weaken _ _ _ s isAscii_lowerAlnum H)) as [-> _].
  rewrite (filter_all _ (fun c => negb (isCombiningMark c)) s).
  - destruct (host_plainOnAscii s (forallb_weaken _ _ _ s isAscii_lowerAlnum H)) as [_ ->].
    rewrite (map_fixed _ asciiLower isLowerAlnum s asciiLower_lowerAlnum H).
    apply filter_all, H.
  - apply (forallb_weaken _ isLowerAlnum); [|exact H].
    intros c Hc. rewrite (isCombiningMark_lowerAlnum c Hc). reflexivity.
Qed.

Lemma forallb_filter_same : forall (A : Type) (f : A -> bool) l,
  forallb f (filter f l) = true.
Proof.
  intros A f l. induction l as [|x l IH]; simpl; [reflexivity|].
  destruct (f x) eqn:E; simpl; [rewrite E|]; exact IH.
Qed.

Lemma canonicalizePartnerKey_lowerAlnum : forall s,
  forallb isLowerAlnum (canonicalizePartnerKey s) = true.
Proof. intros s. apply forallb_filter_same. Qed.

(** *** The map of buckets *)

Lemma mapGet_mapSet : forall m k b k',
  mapGet (mapSet m k b) k' = if JsString.eqb k k' then Some b else mapGet m k'.
Proof.
  induction m as [|[k0 b0] m IH]; intros k b k'; simpl; [reflexivity|].
  destruct (JsString.eqb k0 k) eqn:E0; simpl.
  - apply StringFacts.eqb_eq in E0. subst k0.
    destruct (JsString.eqb k k'); reflexivity.
  - rewrite IH. destruct (JsString.eqb k0 k') eqn:E1; [|reflexivity].
    apply StringFacts.eqb_eq in E1. subst k0.
    destruct (JsString.eqb k k') eqn:E2; [|reflexivity].
    apply StringFacts.eqb_eq in E2. subst k'.
    rewrite StringFacts.eqb_refl in E0. discriminate.
Qed.

(** The name and the key under which a row is folded, if it is. *)
Definition entry (row : AggregateRow) : option (jsstring * jsstring) :=
  match normalizePartnerName (partner_name row) with
  | None => None
  | Some partnerName =>
      if falsy (canonicalizePartnerKey partnerName) then None
      else Some (partnerName, canonicalizePartnerKey partnerName)
  end.

Lemma foldRow_skip : forall m i row, entry row = None -> foldRow m i row = m.
Proof.
  intros m i row. unfold entry, foldRow.
  destruct (normalizePartnerName (partner_name row)) as [n|]; [|reflexivity].
  cbv zeta. destruct (falsy (canonicalizePartnerKey n)); [reflexivity | discriminate].
Qed.

Lemma foldRow_entry : forall m i row n k,
  entry row = Some (n, k) ->
  exists b,
    foldRow m i row = mapSet m k b
    /\ canonicalKey b = match mapGet m k with Some b0 => canonicalKey b0 | None => k end
    /\ displayName b
       = match mapGet m k with
         | Some b0 => choosePreferredDisplayName (displayName b0) n
         | None => n
         end
    /\ variants b
       = match mapGet m k with Some b0 => setAdd (variants b0) n | None => [n] end.
Proof.
  intros m i row n k. unfold entry, foldRow.
  destruct (normalizePartnerName (partner_name row)) as [n'|]; [|discriminate].
  cbv zeta. destruct (falsy (canonicalizePartnerKey n')); [discriminate|].
  intros H. injection H as -> <-.
  eexists. split; [reflexivity|].
  destruct (mapGet m (canonicalizePartnerKey n)); simpl; auto.
Qed.

(** What the claim looks at in a bucket: its display name and variants. *)
Definition view (b : CanonicalBucket) : jsstring * list jsstring :=
  (displayName b, variants b).

Definition addName (state : option (jsstring * list jsstring)) (n : jsstring)
  : option (jsstring * list jsstring) :=
  Some match state with
       | None => (n, [n])
       | Some (d, vs) => (choosePreferredDisplayName d n, setAdd vs n)
       end.

Definition nameOf (k : jsstring) (row : AggregateRow) : list jsstring :=
  match entry row with
  | Some (n, k') => if JsString.eqb k' k then [n] else []
  | None => []
  end.

(** The names folded under the key [k], in the order of the rows. *)
Definition namesOf (k : jsstring) (rows : list AggregateRow) : list jsstring :=
  flat_map (nameOf k) rows.

Definition keyed (m : BucketMap) (k : jsstring) : Prop :=
  forall b, mapGet m k = Some b -> canonicalKey b = k.

Lemma foldRow_view : forall m i row k,
  keyed m k ->
  option_map view (mapGet (foldRow m i row) k)
  = fold_left addName (nameOf k row) (option_map view (mapGet m k))
  /\ keyed (foldRow m i row) k.
Proof.
  intros m i row k Hinv. unfold nameOf.
  destruct (entry row) as [[n k']|] eqn:E.
  - destruct (foldRow_entry m i row n k' E) as [b [Hf [Hk [Hd Hv]]]].
    unfold keyed. rewrite Hf, mapGet_mapSet.
    destruct (JsString.eqb k' k) eqn:Ek.
    + apply StringFacts.eqb_eq in Ek. subst k'. simpl. split.
      * unfold view, addName. rewrite Hd, Hv. destruct (mapGet m k); reflexivity.
      * intros b' Hb'. injection Hb' as <-. rewrite Hk.
        destruct (mapGet m k) eqn:Em; [apply Hinv, Em | reflexivity].
    + simpl. split; [reflexivity | exact Hinv].
  - rewrite (foldRow_skip m i row E). simpl. split; [reflexivity | exact Hinv].
Qed.

Lemma foldRowsFrom_view : forall rows m i k,
  keyed m k ->
  option_map view (mapGet (foldRowsFrom m i rows) k)
  = fold_left addName (namesOf k rows) (option_map view (mapGet m k))
  /\ keyed (foldRowsFrom m i rows) k.
Proof.
  induction rows as [|row rows IH]; intros m i k Hinv; simpl.
  - split; [reflexivity | exact Hinv].
  - destruct (foldRow_view m i row k Hinv) as [Hv Hk].
    destruct (IH (foldRow m i row) (i + 1) k Hk) as [Hv' Hk'].
    split; [|exact Hk'].
    rewrite Hv', Hv. unfold namesOf. rewrite fold_left_app. reflexivity.
Qed.

Lemma collectBuckets_view : forall rows k,
  option_map view (mapGet (collectBuckets rows) k) = fold_left addName (namesOf k rows) None
  /\ keyed (collectBuckets rows) k.
Proof.
  intros rows k. apply (foldRowsFrom_view rows [] 0 k).
  intros b H. discriminate.
Qed.

(** *** The preferred name *)

(** [prefers d v]: [d] is longer than [v], or as long and not after it
    in the comparison. *)
Definition prefers (d v : jsstring) : Prop :=
  JsString.length v < JsString.length d
  \/ (JsString.length v = JsString.length d
      /\ localeCompare accent true d v <= 0).

Lemma prefers_refl : forall d, prefers d d.
Proof.
  intros d. right. split; [reflexivity|]. rewrite (orders_same _ host_orders). lia.
Qed.

Lemma prefers_trans : forall a b c, prefers a b -> prefers b c -> prefers a c.
Proof.
  intros a b c [H1 | [H1 C1]] [H2 | [H2 C2]]; try (left; lia).
  right. split; [lia|].
  apply (proj2 host_orders a b c); assumption.
Qed.

(** Two names that are each preferred to the other have the same length
    and compare equal. *)
Lemma prefers_both : forall a b,
  prefers a b -> prefers b a ->
  JsString.length a = JsString.length b /\ localeCompare accent true a b = 0.
Proof.
  intros a b [H1 | [H1 C1]] [H2 | [H2 C2]]; try lia.
  split; [lia|].
  apply (orders_both _ host_orders); assumption.
Qed.

Lemma choosePreferredDisplayName_spec : forall existing candidate,
  falsy existing = false -> falsy candidate = false ->
  (choosePreferredDisplayName existing candidate = existing
   \/ choosePreferredDisplayName existing candidate = candidate)
  /\ prefers (choosePreferredDisplayName existing candidate) existing
  /\ prefers (choosePreferredDisplayName existing candidate) candidate.
Proof.
  intros e c He Hc. unfold choosePreferredDisplayName. rewrite He, Hc.
  destruct (Z.ltb_spec (JsString.length e) (JsString.length c)) as [L1 | L1].
  { split; [right; reflexivity|]. split; [left; exact L1 | apply prefers_refl]. }
  destruct (Z.ltb_spec (JsString.length c) (JsString.length e)) as [L2 | L2].
  { split; [left; reflexivity|]. split; [apply prefers_refl | left; exact L2]. }
  cbv zeta.
  destruct (Z.ltb_spec (localeCompare accent true c e) 0) as [L3 | L3].
  - split; [right; reflexivity|]. split; [|apply prefers_refl].
    right. split; lia.
  - split; [left; reflexivity|]. split; [apply prefers_refl|].
    right. split; [lia|]. apply (orders_flip _ host_orders), L3.
Qed.

Lemma setAdd_In : forall vs n v, In v (setAdd vs n) <-> In v vs \/ v = n.
Proof.
  intros vs n v. unfold setAdd.
  destruct (existsb (JsString.eqb n) vs) eqn:E.
  - split; [tauto|]. intros [H | ->]; [exact H|].
    apply (ArrayFacts.existsb_eqb _ JsString.eqb StringFacts.eqb_eq) in E. exact E.
  - rewrite in_app_iff. simpl. split.
    + intros [H | [<- | []]]; auto.
    + intros [H | ->]; auto.
Qed.

(** The state of a bucket after the names [S] have been folded in. *)
Definition summarises (S : list jsstring) (state : option (jsstring * list jsstring))
  : Prop :=
  match state with
  | None => S = []
  | Some (d, vs) =>
      (forall v, In v vs <-> In v S) /\ In d S /\ (forall v, In v S -> prefers d v)
  end.

Definition nonEmpty (n : jsstring) : Prop := falsy n = false.

Lemma addName_summarises : forall S state n,
  Forall nonEmpty S -> nonEmpty n ->
  summarises S state -> summarises (S ++ [n]) (addName state n).
Proof.
  intros S state n HS Hn Hst. unfold addName.
  destruct state as [[d vs]|]; unfold summarises in *.
  - destruct Hst as [Hvs [Hd Hbest]].
    assert (Hdn : nonEmpty d) by (rewrite Forall_forall in HS; apply HS, Hd).
    destruct (choosePreferredDisplayName_spec d n Hdn Hn) as [Hc [Pd Pn]].
    split; [|split].
    + intros v. rewrite setAdd_In, in_app_iff, Hvs. simpl.
      split; intros [H | H];
        [ left; exact H | right; left; symmetry; exact H | left; exact H
        | destruct H as [H | []]; right; symmetry; exact H ].
    + apply in_or_app. destruct Hc as [-> | ->]; [left; exact Hd | right; left; reflexivity].
    + intros v Hv. apply in_app_or in Hv. destruct Hv as [Hv | [<- | []]].
      * apply (prefers_trans _ d); [exact Pd | apply Hbest, Hv].
      * exact Pn.
  - subst S. simpl. split; [|split].
    + intros v. tauto.
    + left. reflexivity.
    + intros v [<- | []]. apply prefers_refl.
Qed.

Lemma fold_addName_summarises : forall names S state,
  Forall nonEmpty S -> Forall nonEmpty names ->
  summarises S state -> summarises (S ++ names) (fold_left addName names state).
Proof.
  induction names as [|n names IH]; intros S state HS Hnames Hst; simpl.
  - rewrite app_nil_r. exact Hst.
  - inversion Hnames as [|? ? Hn Hrest]; subst.
    replace (S ++ n :: names) with ((S ++ [n]) ++ names)
      by (rewrite <- app_assoc; reflexivity).
    apply IH.
    + apply Forall_app. split; [exact HS | constructor; [exact Hn | constructor]].
    + exact Hrest.
    + apply addName_summarises; assumption.
Qed.

Lemma normalizePartnerName_nonEmpty : forall name n,
  normalizePartnerName name = Some n -> nonEmpty n.
Proof.
  intros [s|] n; simpl; [|discriminate].
  destruct (Z.ltb_spec 0 (JsString.length (trim s))) as [L | L]; [|discriminate].
  intros H. injection H as <-. unfold nonEmpty.
  destruct (trim s); [unfold JsString.length in L; simpl in L; lia | reflexivity].
Qed.

Lemma namesOf_In : forall k rows v,
  In v (namesOf k rows)
  <-> exists row, In row rows
                  /\ normalizePartnerName (partner_name row) = Some v
                  /\ canonicalizePartnerKey v = k
                  /\ falsy k = false.
Proof.
  intros k rows v. unfold namesOf. rewrite in_flat_map.
  split; intros [row [Hrow H]]; exists row; (split; [exact Hrow|]).
  - unfold nameOf, entry in H.
    destruct (normalizePartnerName (partner_name row)) as [n|]; [|destruct H].
    destruct (falsy (canonicalizePartnerKey n)) eqn:Ef; [destruct H|].
    destruct (JsString.eqb (canonicalizePartnerKey n) k) eqn:Ek; [|destruct H].
    apply StringFacts.eqb_eq in Ek. destruct H as [<- | []].
    subst k. auto.
  - destruct H as [Hn [Hk Hf]]. unfold nameOf, entry. rewrite Hn, Hk, Hf.
    rewrite StringFacts.eqb_refl. left. reflexivity.
Qed.

Lemma namesOf_nonEmpty : forall k rows, Forall nonEmpty (namesOf k rows).
Proof.
  intros k rows. apply Forall_forall. intros v Hv.
  apply namesOf_In in Hv. destruct Hv as [row [_ [Hn _]]].
  apply (normalizePartnerName_nonEmpty _ _ Hn).
Qed.

Lemma namesOf_perm : forall k rows rows',
  Permutation rows rows' -> Permutation (namesOf k rows) (namesOf k rows').
Proof.
  intros k rows rows' H. unfold namesOf.
  induction H as [| x l l' H IH | x y l | l l' l'' H1 IH1 H2 IH2]; simpl.
  - constructor.
  - apply Permutation_app_head, IH.
  - rewrite !app_assoc. apply Permutation_app_tail, Permutation_app_comm.
  - eapply Permutation_trans; eassumption.
Qed.

(** The bucket of a key sums up the names folded under it. *)
Lemma bucket_summarises : forall rows k,
  summarises (namesOf k rows) (option_map view (mapGet (collectBuckets rows) k)).
Proof.
  intros rows k. rewrite (proj1 (collectBuckets_view rows k)).
  apply (fold_addName_summarises (namesOf k rows) [] None).
  - constructor.
  - apply namesOf_nonEmpty.
  - reflexivity.
Qed.

End AnyHost.

(** *** Three variants of one name *)

Definition partnerRow (name : jsstring) (sold : number) : AggregateRow :=
  mkAggregate (Some name) (UNumber sold) (UNumber zero).

(** "Dûpont", with U+00FB. *)
Definition dupontCircumflex : jsstring := (68 :: 251 :: js "pont")%N.

(** The number 0.1. *)
Definition tenth : number := PrimFloat.div 1 10.

Definition variantsInOrder : list AggregateRow :=
  [ partnerRow dupontCircumflex tenth; partnerRow (js "dupont") (tenth + tenth)%float;
    partnerRow (js "DUPONT ") (PrimFloat.div 3 10) ].

Definition sameQuantity (a b : option CanonicalBucket) : bool :=
  match a, b with
  | Some x, Some y => strictEq (totalQuantity x) (totalQuantity y)
  | None, None => true
  | _, _ => false
  end.

(** C2, as stated, fails on the three variants of its own example, here
    on the Latin-1 host.  Folded in the order "Dûpont", "dupont",
    "DUPONT " the bucket of the key "dupont" shows the name "dupont";
    folded in the reverse order it shows "DUPONT", because the
    comparison takes the two as equal and an equal candidate never
    replaces the name already there.  The comparison is not
    accent-insensitive either: it puts "dupont" before "Dûpont".  And
    the summed quantities 0.1, 0.2 and 0.3 differ between the two orders
    in the last digit. *)
Lemma display_name_depends_on_order :
  Permutation variantsInOrder (rev variantsInOrder)
  /\ option_map view
       (mapGet (collectBuckets (host := latin1) variantsInOrder) (js "dupont"))
     = Some (js "dupont", [dupontCircumflex; js "dupont"; js "DUPONT"])
  /\ option_map view
       (mapGet (collectBuckets (host := latin1) (rev variantsInOrder)) (js "dupont"))
     = Some (js "DUPONT", [js "DUPONT"; js "dupont"; dupontCircumflex])
  /\ localeCompare (Intl := latin1) accent true (js "DUPONT") (js "dupont") = 0
  /\ localeCompare (Intl := latin1) accent true (js "dupont") dupontCircumflex = -1
  /\ sameQuantity (mapGet (collectBuckets (host := latin1) variantsInOrder) (js "dupont"))
       (mapGet (collectBuckets (host := latin1) (rev variantsInOrder)) (js "dupont"))
     = false.
Proof.
  split; [apply Permutation_rev|].
  repeat apply conj; vm_compute; reflexivity.
Qed.

Section AnyLawfulHost.

Context {host : Host.Intl}.

Hypothesis host_plainOnAscii : plainOnAscii.

Hypothesis host_orders : orders (localeCompare accent true).

(** C2 (amended).  On a host that leaves Basic Latin text as it is when
    it decomposes it, maps A-Z to a-z on such text, and whose comparison
    (accent sensitivity, numeric) orders the names: canonicalization is
    idempotent.  The bucket of a key holds as variants exactly the
    trimmed names of the rows whose canonical key is that key, so two
    names fall into the same bucket iff their canonical keys are equal
    (names whose key is empty are in no bucket).  The display name of a
    bucket is one of its variants, at least as long as every variant and
    not after any variant of the same length in the host's comparison.
    Folding the same rows in another order gives, under each key, a
    bucket with the same key, the same set of variants, and a display
    name of the same length that the host compares equal to the first
    one. *)
Theorem buckets_by_canonical_key :
  (forall name,
      canonicalizePartnerKey (canonicalizePartnerKey name) = canonicalizePartnerKey name)
  /\ (forall rows k b,
        mapGet (collectBuckets rows) k = Some b ->
        canonicalKey b = k
        /\ falsy k = false
        /\ (forall v, In v (variants b)
                      <-> exists row, In row rows
                                      /\ normalizePartnerName (partner_name row) = Some v
                                      /\ canonicalizePartnerKey v = k)
        /\ In (displayName b) (variants b)
        /\ (forall v, In v (variants b) -> prefers (displayName b) v))
  /\ (forall rows row v,
        In row rows ->
        normalizePartnerName (partner_name row) = Some v ->
        falsy (canonicalizePartnerKey v) = false ->
        exists b, mapGet (collectBuckets rows) (canonicalizePartnerKey v) = Some b
                  /\ In v (variants b))
  /\ (forall rows rows' k,
        Permutation rows rows' ->
        match mapGet (collectBuckets rows) k, mapGet (collectBuckets rows') k with
        | Some b, Some b' =>
            canonicalKey b = canonicalKey b'
            /\ (forall v, In v (variants b) <-> In v (variants b'))
            /\ JsString.length (displayName b) = JsString.length (displayName b')
            /\ localeCompare accent true (displayName b) (displayName b') = 0
        | None, None => True
        | _, _ => False
        end).
Proof.
  split; [|split; [|split]].
  - intros name.
    apply (canonicalizePartnerKey_fixed host_plainOnAscii),
      canonicalizePartnerKey_lowerAlnum.
  - intros rows k b Hb.
    pose proof (bucket_summarises host_orders rows k) as Hs.
    pose proof (proj2 (collectBuckets_view rows k) b Hb) as Hk.
    rewrite Hb in Hs. simpl in Hs. destruct Hs as [Hvs [Hd Hbest]].
    assert (Hf : falsy k = false).
    { apply namesOf_In in Hd. destruct Hd as [row [_ [_ [_ Hf]]]]. exact Hf. }
    split; [exact Hk|]. split; [exact Hf|]. split; [|split].
    + intros v. rewrite Hvs, namesOf_In.
      split; intros [row [Hrow H]]; exists row; tauto.
    + apply Hvs, Hd.
    + intros v Hv. apply Hbest, Hvs, Hv.
  - intros rows row v Hrow Hn Hf.
    pose proof (bucket_summarises host_orders rows (canonicalizePartnerKey v)) as Hs.
    assert (Hin : In v (namesOf (canonicalizePartnerKey v) rows)).
    { apply namesOf_In. exists row. auto. }
    destruct (mapGet (collectBuckets rows) (canonicalizePartnerKey v)) as [b|]; simpl in Hs.
    + exists b. split; [reflexivity|]. apply Hs, Hin.
    + rewrite Hs in Hin. destruct Hin.
  - intros rows rows' k Hperm.
    pose proof (bucket_summarises host_orders rows k) as Hs.
    pose proof (bucket_summarises host_orders rows' k) as Hs'.
    pose proof (proj2 (collectBuckets_view rows k)) as Hk.
    pose proof (proj2 (collectBuckets_view rows' k)) as Hk'.
    unfold keyed in Hk, Hk'.
    pose proof (namesOf_perm k rows rows' Hperm) as Hp.
    assert (Hsame : forall v, In v (namesOf k rows) <-> In v (namesOf k rows')).
    { intros v. split; apply Permutation_in; [exact Hp | apply Permutation_sym, Hp]. }
    destruct (mapGet (collectBuckets rows) k) as [b|];
      destruct (mapGet (collectBuckets rows') k) as [b'|]; simpl in Hs, Hs'.
    + destruct Hs as [Hvs [Hd Hbest]]. destruct Hs' as [Hvs' [Hd' Hbest']].
      rewrite (Hk b eq_refl), (Hk' b' eq_refl).
      split; [reflexivity|]. split.
      { intros v. rewrite Hvs, Hvs'. apply Hsame. }
      apply (prefers_both host_orders).
      * apply Hbest, Hsame, Hd'.
      * apply Hbest', Hsame, Hd.
    + destruct Hs as [_ [Hd _]]. apply Hsame in Hd. rewrite Hs' in Hd. destruct Hd.
    + destruct Hs' as [_ [Hd' _]]. apply Hsame in Hd'. rewrite Hs in Hd'. destruct Hd'.
    + exact I.
Qed.

End AnyLawfulHost.

(** The theorem on the Latin-1 host, for the three variants above: the
    key of "Dûpont" is its own key, and the three names are the variants
    of one bucket, whose display name is one of them, as long as any of
    them. *)
Lemma buckets_of_dupont :
  canonicalizePartnerKey (host := latin1) dupontCircumflex = js "dupont"
  /\ canonicalizePartnerKey (host := latin1) (js "dupont") = js "dupont"
  /\ exists b,
       mapGet (collectBuckets (host := latin1) variantsInOrder) (js "dupont") = Some b
       /\ In (displayName b) (variants b)
       /\ (forall v, In v (variants b) -> JsString.length v <= JsString.length (displayName b))
       /\ (forall v, In v (variants b)
                     <-> In v [dupontCircumflex; js "dupont"; js "DUPONT"]).
Proof.
  destruct (buckets_by_canonical_key (host := latin1) latin1_plainOnAscii
              (latin1_orders accent true)) as [Hkey [Hbucket _]].
  split; [reflexivity|]. split.
  { exact (Hkey dupontCircumflex). }
  destruct (mapGet (collectBuckets (host := latin1) variantsInOrder) (js "dupont"))
    as [b|] eqn:Hb; [|vm_compute in Hb; discriminate Hb].
  exists b. split; [reflexivity|].
  destruct (Hbucket variantsInOrder (js "dupont") b Hb) as [_ [_ [_ [Hd Hbest]]]].
  split; [exact Hd|]. split.
  - intros v Hv. destruct (Hbest v Hv) as [H | [H _]]; lia.
  - intros v. vm_compute in Hb. injection Hb as <-. reflexivity.
Defined.

End PartnerBuckets.
(** ** The number converters *)

Module ConverterFacts.

Import Numbers.

(** *** [trim] is idempotent *)

Definition clean (s : jsstring) : Prop :=
  match s with
  | c :: _ => isWhiteSpace c = false
  | [] => True
  end.

Lemma trimStart_clean : forall s, clean (trimStart s).
Proof.
  induction s as [|c s IH]; simpl; [exact I|].
  destruct (isWhiteSpace c) eqn:E; [exact IH | simpl; exact E].
Qed.

Lemma trimStart_fixed : forall s, clean s -> trimStart s = s.
Proof. intros [|c s] H; simpl in *; [reflexivity | rewrite H; reflexivity]. Qed.

Lemma trimStart_suffix : forall s, exists ws, s = ws ++ trimStart s.
Proof.
  induction s as [|c s [ws IH]]; [exists []; reflexivity|].
  simpl. destruct (isWhiteSpace c).
  - exists (c :: ws). simpl. f_equal. exact IH.
  - exists []. reflexivity.
Qed.

Lemma trimEnd_prefix : forall s, exists ws, s = trimEnd s ++ ws.
Proof.
  intros s. unfold trimEnd. destruct (trimStart_suffix (rev s)) as [ws H].
  exists (rev ws). apply (f_equal (@rev codeUnit)) in H.
  rewrite rev_involutive, rev_app_distr in H. exact H.
Qed.

Lemma trimEnd_clean : forall s, clean s -> clean (trimEnd s).
Proof.
  intros s H. destruct (trimEnd_prefix s) as [ws E].
  destruct (trimEnd s) as [|c r]; [exact I|].
  rewrite E in H. exact H.
Qed.

Lemma trimEnd_idem : forall s, trimEnd (trimEnd s) = trimEnd s.
Proof.
  intros s. unfold trimEnd. rewrite rev_involutive.
  rewrite (trimStart_fixed (trimStart (rev s))) by apply trimStart_clean.
  reflexivity.
Qed.

Lemma trim_idem : forall s, trim (trim s) = trim s.
Proof.
  intros s. unfold trim.
  rewrite (trimStart_fixed (trimEnd (trimStart s)))
    by (apply trimEnd_clean, trimStart_clean).
  apply trimEnd_idem.
Qed.

Lemma toNumber_trim : forall s, toNumber (trim s) = toNumber s.
Proof. intros s. unfold toNumber. rewrite trim_idem. reflexivity. Qed.

Lemma toNumber_blank : forall s, JsString.length (trim s) = 0 -> toNumber s = zero.
Proof.
  intros s H. unfold toNumber. destruct (trim s); [reflexivity|].
  unfold JsString.length in H. simpl in H. lia.
Qed.

(** *** The shared helpers *)

(** The number a value is read as, before the test for finiteness. *)
Definition reading (value : unknown) : option number :=
  match value with
  | UNumber x => Some x
  | UBigint n => Some (ofZ n)
  | UString s =>
      match s with
      | [] => None
      | _ => if JsString.length (trim s) =? 0 then None else Some (toNumber (trim s))
      end
  | UDecimal r => r
  | _ => None
  end.

Lemma toFiniteNumber_reading : forall value fallback,
  toFiniteNumber value fallback
  = match reading value with
    | Some x => if isFinite x then x else fallback
    | None => fallback
    end.
Proof.
  intros value fallback.
  destruct value as [| | x | n | [|c s] | [x|] |]; simpl; try reflexivity.
  destruct (JsString.length (trim (c :: s)) =? 0); reflexivity.
Qed.

Lemma toNullableNumber_reading : forall value,
  toNullableNumber value
  = match reading value with
    | Some x => if isFinite x then Some x else None
    | None => None
    end.
Proof.
  intros value. unfold toNullableNumber. rewrite toFiniteNumber_reading.
  destruct (reading value) as [x|]; [|reflexivity].
  destruct (isFinite x) eqn:E; cbv zeta; [rewrite E|]; reflexivity.
Qed.

(** X1.  [toNullableNumber] mirrors [toFiniteNumber]: when it returns a
    number, that number is finite and [toFiniteNumber] returns it
    whatever the fallback; when it returns null, [toFiniteNumber]
    returns the fallback.  With a finite fallback the result of
    [toFiniteNumber] is always finite. *)
Theorem nullable_number_mirrors_finite_number :
  (forall value,
      match toNullableNumber value with
      | Some x =>
          isFinite x = true /\ forall fallback, toFiniteNumber value fallback = x
      | None => forall fallback, toFiniteNumber value fallback = fallback
      end)
  /\ (forall value fallback,
        isFinite fallback = true -> isFinite (toFiniteNumber value fallback) = true).
Proof.
  split.
  - intros value. rewrite toNullableNumber_reading.
    destruct (reading value) as [x|] eqn:R.
    + destruct (isFinite x) eqn:E.
      * split; [exact E|]. intros fallback.
        rewrite toFiniteNumber_reading, R, E. reflexivity.
      * intros fallback. rewrite toFiniteNumber_reading, R, E. reflexivity.
    + intros fallback. rewrite toFiniteNumber_reading, R. reflexivity.
  - intros value fallback H. rewrite toFiniteNumber_reading.
    destruct (reading value) as [x|]; [|exact H].
    destruct (isFinite x) eqn:E; [exact E | exact H].
Qed.

(** X2.  The converters written again in the upload parser, the two
    routes and the dashboard summary agree with the shared helpers on
    null, undefined, numbers and strings, with these exceptions: none of
    them converts a bigint; the two route converters hand on the number
    of a Decimal without testing that it is finite; and the converter of
    the sales route reads a string of white space only as 0, not as
    null. *)
Theorem local_converters_agree_with_shared : forall value,
  match value with
  | UBigint _ =>
      SalesUpload.numOrNull value = None
      /\ SalesRoute.toNumber value = None
      /\ NetMarginRoute.toNumber value = zero
      /\ DashboardSummary.safeNumber value = zero
  | UDecimal (Some x) =>
      SalesUpload.numOrNull value = toNullableNumber value
      /\ SalesRoute.toNumber value = Some x
      /\ NetMarginRoute.toNumber value = x
      /\ DashboardSummary.safeNumber value = toFiniteNumber0 value
  | UString s =>
      SalesUpload.numOrNull value = toNullableNumber value
      /\ SalesRoute.toNumber value
         = (if negb (falsy s) && (JsString.length (trim s) =? 0) then Some zero
            else toNullableNumber value)
      /\ NetMarginRoute.toNumber value = toFiniteNumber0 value
      /\ DashboardSummary.safeNumber value = toFiniteNumber0 value
  | _ =>
      SalesUpload.numOrNull value = toNullableNumber value
      /\ SalesRoute.toNumber value = toNullableNumber value
      /\ NetMarginRoute.toNumber value = toFiniteNumber0 value
      /\ DashboardSummary.safeNumber value = toFiniteNumber0 value
  end.
Proof.
  intros value. unfold toFiniteNumber0.
  destruct value as [| | x | n | s | [x|] |];
    rewrite ?toNullableNumber_reading, ?toFiniteNumber_reading;
    try (repeat apply conj; reflexivity).
  destruct s as [|c s]; [repeat apply conj; reflexivity|].
  cbn [reading SalesUpload.numOrNull SalesRoute.toNumber NetMarginRoute.toNumber
         DashboardSummary.safeNumber falsy negb andb].
  destruct (JsString.length (trim (c :: s)) =? 0) eqn:B.
  - apply Z.eqb_eq in B. rewrite (toNumber_blank _ B).
    repeat apply conj; reflexivity.
  - rewrite toNumber_trim.
    destruct (isFinite (toNumber (c :: s))); repeat apply conj; reflexivity.
Qed.

(** *** Order of numbers *)

Lemma SFcompare_antisym : forall a b,
  SFcompare b a = option_map CompOpp (SFcompare a b).
Proof.
  intros [sa|sa| |sa ma ea] [sb|sb| |sb mb eb]; simpl; try reflexivity;
    try (destruct sa; reflexivity); try (destruct sb; reflexivity);
    try (destruct sa, sb; reflexivity).
  destruct sa, sb; try reflexivity;
    rewrite (Z.compare_antisym ea eb); destruct (ea ?= eb); simpl; try reflexivity;
    rewrite (Pos.compare_cont_antisym ma mb Eq); simpl;
    rewrite ?CompOpp_involutive; reflexivity.
Qed.

Definition isNumber (x : number) : Prop := Prim2SF x <> S754_nan.

Lemma SFcompare_numbers : forall a b,
  a <> S754_nan -> b <> S754_nan -> exists c, SFcompare a b = Some c.
Proof.
  intros [sa|sa| |sa ma ea] [sb|sb| |sb mb eb] Ha Hb; simpl;
    try congruence; eexists; reflexivity.
Qed.

Lemma SFcompare_refl : forall a, a <> S754_nan -> SFcompare a a = Some Eq.
Proof.
  intros [sa|sa| |sa ma ea] Ha; simpl; try congruence; try reflexivity.
  - destruct sa; reflexivity.
  - rewrite Z.compare_refl, Pos.compare_cont_refl. destruct sa; reflexivity.
Qed.

Lemma isInteger_isNumber : forall x, isInteger x = true -> isNumber x.
Proof.
  intros x H E. unfold isInteger in H. rewrite E in H. discriminate.
Qed.

Lemma isFinite_isNumber : forall x, isFinite x = true -> isNumber x.
Proof.
  intros x H E. unfold isFinite, is_finite, is_nan in H.
  rewrite (FloatAxioms.eqb_spec x x), E in H. simpl in H. discriminate.
Qed.

Lemma le_refl : forall x, isNumber x -> le x x = true.
Proof.
  intros x H. unfold le. rewrite leb_spec. unfold SFleb.
  rewrite (SFcompare_refl _ H). reflexivity.
Qed.

(** For numbers, [not (a < b)] is [b <= a]. *)
Lemma not_lt_le : forall a b,
  isNumber a -> isNumber b -> lt a b = false -> le b a = true.
Proof.
  intros a b Ha Hb. unfold lt, le. rewrite ltb_spec, leb_spec.
  unfold SFltb, SFleb. rewrite (SFcompare_antisym (Prim2SF a) (Prim2SF b)).
  destruct (SFcompare_numbers _ _ Ha Hb) as [c Hc]. rewrite Hc.
  destruct c; simpl; congruence.
Qed.

Lemma isNumber_isNaN : forall x, isNumber x -> isNaN x = false.
Proof.
  intros x H. rewrite NumericOrder.isNaN_reading. unfold isNumber in H.
  destruct (Prim2SF x); try reflexivity. congruence.
Qed.

(** [Math.max] and [Math.min] of two numbers return one of them. *)
Lemma max_cases : forall a b,
  isNumber a -> isNumber b ->
  JsNumber.max a b = b \/ (JsNumber.max a b = a /\ lt a b = false).
Proof.
  intros a b Ha Hb. unfold JsNumber.max, lt.
  rewrite (isNumber_isNaN a Ha), (isNumber_isNaN b Hb). cbn [orb].
  destruct (PrimFloat.ltb a b) eqn:L; [left; reflexivity|].
  destruct (PrimFloat.ltb b a); [right; split; reflexivity|].
  destruct (isNegative a); [left; reflexivity | right; split; reflexivity].
Qed.

Lemma min_cases : forall a b,
  isNumber a -> isNumber b ->
  JsNumber.min a b = b \/ (JsNumber.min a b = a /\ lt b a = false).
Proof.
  intros a b Ha Hb. unfold JsNumber.min, lt.
  rewrite (isNumber_isNaN a Ha), (isNumber_isNaN b Hb). cbn [orb].
  destruct (PrimFloat.ltb b a) eqn:L; [left; reflexivity|].
  destruct (PrimFloat.ltb a b); [right; split; reflexivity|].
  destruct (isNegative a); [right; split; reflexivity | left; reflexivity].
Qed.

Lemma clampInteger_bounds : forall value min max,
  isInteger value = true -> isInteger min = true -> isInteger max = true ->
  le min max = true ->
  isInteger (clampInteger value min max) = true
  /\ le min (clampInteger value min max) = true
  /\ le (clampInteger value min max) max = true.
Proof.
  intros value min max Hv Hmin Hmax Hle. unfold clampInteger. rewrite Hv.
  pose proof (isInteger_isNumber _ Hv) as Nv.
  pose proof (isInteger_isNumber _ Hmin) as Nmin.
  pose proof (isInteger_isNumber _ Hmax) as Nmax.
  destruct (lt value min) eqn:L.
  - repeat apply conj; [exact Hmin | apply le_refl, Nmin | exact Hle].
  - destruct (gt value max) eqn:G.
    + repeat apply conj; [exact Hmax | exact Hle | apply le_refl, Nmax].
    + repeat apply conj; [exact Hv | apply not_lt_le; assumption |].
      apply not_lt_le; assumption.
Qed.

Lemma parseBoundedInteger_bounds : forall raw fallback min max,
  isInteger fallback = true -> isInteger min = true -> isInteger max = true ->
  le min max = true ->
  isInteger (parseBoundedInteger raw fallback min max) = true
  /\ le min (parseBoundedInteger raw fallback min max) = true
  /\ le (parseBoundedInteger raw fallback min max) max = true.
Proof.
  intros raw fallback min max Hf Hmin Hmax Hle. unfold parseBoundedInteger.
  destruct raw as [s|]; [|apply clampInteger_bounds; assumption].
  destruct (JsString.length (trim s) =? 0); [apply clampInteger_bounds; assumption|].
  cbv zeta. destruct (isInteger (toNumber s)) eqn:E; simpl;
    apply clampInteger_bounds; assumption.
Qed.

(** X3.  Whatever the text of the [page] and [pageSize] parameters, the
    parsed listing query holds an integer page between 1 and 10000 and
    an integer page size between 1 and 500.  The parser of the route
    returns its fallback or a number between the bounds it is given,
    for numbers [min <= max] and a fallback between them; that number
    is not always an integer. *)
Theorem paging_stays_within_bounds :
  (forall pageParam pageSizeParam,
      isInteger (Routes.page (Routes.parseSalesListQuery pageParam pageSizeParam)) = true
      /\ le Routes.MIN_PAGE
           (Routes.page (Routes.parseSalesListQuery pageParam pageSizeParam)) = true
      /\ le (Routes.page (Routes.parseSalesListQuery pageParam pageSizeParam))
           Routes.MAX_PAGE = true
      /\ isInteger (Routes.pageSize (Routes.parseSalesListQuery pageParam pageSizeParam))
         = true
      /\ le Routes.MIN_PAGE_SIZE
           (Routes.pageSize (Routes.parseSalesListQuery pageParam pageSizeParam)) = true
      /\ le (Routes.pageSize (Routes.parseSalesListQuery pageParam pageSizeParam))
           Routes.MAX_PAGE_SIZE = true)
  /\ (forall raw fallback min max,
        isNumber min -> isNumber max -> le min max = true ->
        le min fallback = true -> le fallback max = true ->
        le min (Routes.parseIntParam raw fallback min max) = true
        /\ le (Routes.parseIntParam raw fallback min max) max = true)
  /\ Routes.parseIntParam (Some (js "2.5")) (ofZ 1) (ofZ 1) (ofZ 10000)
     = PrimFloat.div (ofZ 5) (ofZ 2).
Proof.
  split; [|split].
  - intros pageParam pageSizeParam. unfold Routes.parseSalesListQuery. simpl.
    destruct (parseBoundedInteger_bounds pageParam Routes.DEFAULT_PAGE Routes.MIN_PAGE
                Routes.MAX_PAGE eq_refl eq_refl eq_refl eq_refl) as [H1 [H2 H3]].
    destruct (parseBoundedInteger_bounds pageSizeParam Routes.DEFAULT_PAGE_SIZE
                Routes.MIN_PAGE_SIZE Routes.MAX_PAGE_SIZE eq_refl eq_refl eq_refl eq_refl)
      as [H4 [H5 H6]].
    repeat apply conj; assumption.
  - intros raw fallback min max Nmin Nmax Hle Hlo Hhi. unfold Routes.parseIntParam.
    destruct raw as [r|]; [|split; assumption].
    destruct (falsy r); [split; assumption|].
    cbv zeta. destruct (isFinite (toNumber r)) eqn:F; simpl; [|split; assumption].
    pose proof (isFinite_isNumber _ F) as Nn.
    destruct (max_cases (toNumber r) min Nn Nmin) as [-> | [-> L1]].
    + destruct (min_cases min max Nmin Nmax) as [-> | [-> L2]].
      * split; [exact Hle | apply le_refl, Nmax].
      * split; [apply le_refl, Nmin | exact Hle].
    + destruct (min_cases (toNumber r) max Nn Nmax) as [-> | [-> L2]].
      * split; [exact Hle | apply le_refl, Nmax].
      * split; apply not_lt_le; assumption.
  - vm_compute. reflexivity.
Qed.

End ConverterFacts.
(** ** Top partners: bounds, limits and the structure of the bucket map *)

Module TopPartnersFacts.

Import Store Numbers JsArray TopPartners HostLaws PartnerBuckets.

(** *** Year bounds *)

(** A bound that [normalizeYearBound] refuses. *)
Definition rejected (year : option number) : Prop :=
  match year with
  | Some v => isFinite v = false \/ truncZ v < MIN_ALLOWED_YEAR \/ MAX_ALLOWED_YEAR < truncZ v
  | None => False
  end.

Definition truncated (year : option number) : option Z :=
  match year with
  | Some v => Some (truncZ v)
  | None => None
  end.

Definition inRange (year : option Z) : Prop :=
  match year with
  | Some y => MIN_ALLOWED_YEAR <= y <= MAX_ALLOWED_YEAR
  | None => True
  end.

Lemma normalizeYearBound_spec : forall year,
  match normalizeYearBound year with
  | Ok r => r = truncated year /\ inRange r
  | Err c _ => c = RangeError /\ rejected year
  end.
Proof.
  intros [v|]; simpl; [|split; [reflexivity | exact I]].
  destruct (isFinite v) eqn:F; simpl; [|split; [reflexivity | left; reflexivity]].
  destruct (Z.ltb_spec (truncZ v) MIN_ALLOWED_YEAR) as [L | L]; simpl.
  { split; [reflexivity | right; left; exact L]. }
  destruct (Z.ltb_spec MAX_ALLOWED_YEAR (truncZ v)) as [G | G]; simpl.
  { split; [reflexivity | right; right; exact G]. }
  split; [reflexivity | split; assumption].
Qed.

Lemma DateUTC_january : forall y, JsDate.DateUTC y 0 1 = MonthFacts.monthStart (12 * y) * JsDate.msPerDay.
Proof.
  intros y. unfold JsDate.DateUTC, JsDate.MakeDate, JsDate.msPerDay.
  rewrite MonthFacts.MakeDay_monthStart.
  replace (12 * y + 0) with (12 * y) by lia. lia.
Qed.

Lemma DateUTC_years : forall a b, a <= b -> JsDate.DateUTC a 0 1 < JsDate.DateUTC (b + 1) 0 1.
Proof.
  intros a b H. rewrite !DateUTC_january.
  pose proof (DateFacts.monthStart_lt (12 * a) (12 * (b + 1)) ltac:(lia)).
  unfold JsDate.msPerDay. lia.
Qed.

(** X4.  The check of the two year bounds accepts them exactly when each
    is absent or a finite number whose integer part lies between 1900
    and 2200, and the lower one is not above the upper one.  Accepted
    bounds are the integer parts of the numbers given, and the window of
    delivery dates they give, from January 1 of the lower year to
    January 1 after the upper year (UTC), is not empty.  Every refusal is
    a RangeError. *)
Theorem year_bounds_accepted_or_refused : forall minYear maxYear,
  match checkYearBounds minYear maxYear with
  | Ok (lo, hi) =>
      lo = truncated minYear /\ hi = truncated maxYear
      /\ inRange lo /\ inRange hi
      /\ (forall a b, lo = Some a -> hi = Some b -> a <= b)
      /\ (forall s e, startDate lo = Some s -> endDate hi = Some e -> s < e)
  | Err c _ =>
      c = RangeError
      /\ (rejected minYear \/ rejected maxYear
          \/ exists a b, truncated minYear = Some a /\ truncated maxYear = Some b /\ b < a)
  end.
Proof.
  intros minYear maxYear. unfold checkYearBounds, bind.
  pose proof (normalizeYearBound_spec minYear) as Hlo.
  pose proof (normalizeYearBound_spec maxYear) as Hhi.
  destruct (normalizeYearBound minYear) as [lo | c m];
    [|destruct Hlo as [-> R]; split; [reflexivity | left; exact R]].
  destruct (normalizeYearBound maxYear) as [hi | c m];
    [|destruct Hhi as [-> R]; split; [reflexivity | right; left; exact R]].
  destruct Hlo as [Elo Rlo]. destruct Hhi as [Ehi Rhi].
  destruct lo as [a|]; destruct hi as [b|];
    try (split; [exact Elo|]; split; [exact Ehi|]; split; [exact Rlo|];
         split; [exact Rhi|]; split; intros; discriminate).
  destruct (Z.ltb_spec b a) as [L | L].
  - split; [reflexivity|]. right. right. exists a, b. auto.
  - split; [exact Elo|]. split; [exact Ehi|]. split; [exact Rlo|].
    split; [exact Rhi|]. split.
    + intros a' b' Ha Hb. injection Ha as <-. injection Hb as <-. exact L.
    + intros s e Hs He. simpl in Hs, He. injection Hs as <-. injection He as <-.
      apply DateUTC_years, L.
Qed.

(** X5.  Whatever limit is asked for, also none, a NaN or an infinity,
    the limit in force lies between 1 and 25 (5 when none is usable), and
    the aggregate query fetches exactly four times as many raw rows. *)
Theorem limit_in_force_and_rows_fetched : forall limit,
  1 <= normalizeLimit limit <= MAX_TOP_LIMIT
  /\ rawLimit (normalizeLimit limit) = RAW_LIMIT_MULTIPLIER * normalizeLimit limit
  /\ (match limit with
      | Some l => isFinite l = false -> normalizeLimit limit = DEFAULT_TOP_LIMIT
      | None => normalizeLimit limit = DEFAULT_TOP_LIMIT
      end).
Proof.
  intros limit.
  assert (H : 1 <= normalizeLimit limit <= MAX_TOP_LIMIT).
  { unfold normalizeLimit, MAX_TOP_LIMIT, DEFAULT_TOP_LIMIT.
    destruct limit as [l|]; [|lia].
    destruct (isFinite l); simpl; [|lia].
    destruct (Z.ltb_spec (truncZ l) 1); [lia|].
    destruct (Z.ltb_spec 25 (truncZ l)); lia. }
  split; [exact H|]. split.
  - unfold rawLimit, RAW_LIMIT_MULTIPLIER, MAX_TOP_LIMIT in *. lia.
  - destruct limit as [l|]; [|reflexivity].
    intros F. unfold normalizeLimit. rewrite F. reflexivity.
Qed.

Section AnyHost.

Context {host : Host.Intl}.

(** *** The keys of the bucket map *)

Definition keyOf (row : AggregateRow) : list jsstring :=
  match entry row with
  | Some (_, k) => [k]
  | None => []
  end.

(** The canonical keys of the rows that are folded, in row order. *)
Definition keysOf (rows : list AggregateRow) : list jsstring := flat_map keyOf rows.

Definition pushKey (ks : list jsstring) (k : jsstring) : list jsstring :=
  if existsb (JsString.eqb k) ks then ks else ks ++ [k].

Lemma eqb_sym : forall a b, JsString.eqb a b = JsString.eqb b a.
Proof.
  intros a b. destruct (JsString.eqb a b) eqn:E1, (JsString.eqb b a) eqn:E2;
    try reflexivity.
  - apply StringFacts.eqb_eq in E1. subst b. rewrite StringFacts.eqb_refl in E2.
    discriminate.
  - apply StringFacts.eqb_eq in E2. subst b. rewrite StringFacts.eqb_refl in E1.
    discriminate.
Qed.

Lemma keys_mapSet : forall m k b, List.map fst (mapSet m k b) = pushKey (List.map fst m) k.
Proof.
  induction m as [|[k0 b0] m IH]; intros k b; [reflexivity|].
  simpl. unfold pushKey. simpl. rewrite (eqb_sym k k0).
  destruct (JsString.eqb k0 k) eqn:E; simpl.
  - apply StringFacts.eqb_eq in E. subst k0. reflexivity.
  - rewrite IH. unfold pushKey.
    destruct (existsb (JsString.eqb k) (List.map fst m)); reflexivity.
Qed.

Lemma foldRow_keys : forall m i row,
  List.map fst (foldRow m i row) = fold_left pushKey (keyOf row) (List.map fst m).
Proof.
  intros m i row. unfold keyOf. destruct (entry row) as [[n k]|] eqn:E.
  - destruct (foldRow_entry m i row n k E) as [b [-> _]]. apply keys_mapSet.
  - rewrite (foldRow_skip m i row E). reflexivity.
Qed.

Lemma foldRowsFrom_keys : forall rows m i,
  List.map fst (foldRowsFrom m i rows) = fold_left pushKey (keysOf rows) (List.map fst m).
Proof.
  induction rows as [|row rows IH]; intros m i; simpl; [reflexivity|].
  rewrite IH, foldRow_keys. unfold keysOf. rewrite fold_left_app. reflexivity.
Qed.

Lemma fold_pushKey_dedup : forall l ks seen,
  (forall x, In x seen <-> In x ks) ->
  fold_left pushKey l ks = ks ++ dedupAcc JsString.eqb seen l.
Proof.
  induction l as [|a l IH]; intros ks seen H; simpl; [rewrite app_nil_r; reflexivity|].
  assert (E : existsb (JsString.eqb a) ks = existsb (JsString.eqb a) seen).
  { destruct (existsb (JsString.eqb a) ks) eqn:E1, (existsb (JsString.eqb a) seen) eqn:E2;
      try reflexivity.
    - apply (ArrayFacts.existsb_eqb _ JsString.eqb StringFacts.eqb_eq) in E1.
      apply (ArrayFacts.existsb_eqb_false _ JsString.eqb StringFacts.eqb_eq) in E2.
      apply H in E1. contradiction.
    - apply (ArrayFacts.existsb_eqb _ JsString.eqb StringFacts.eqb_eq) in E2.
      apply (ArrayFacts.existsb_eqb_false _ JsString.eqb StringFacts.eqb_eq) in E1.
      apply H in E2. contradiction. }
  unfold pushKey at 2. rewrite E.
  destruct (existsb (JsString.eqb a) seen).
  - apply IH, H.
  - rewrite (IH (ks ++ [a]) (a :: seen)).
    + rewrite <- app_assoc. reflexivity.
    + intros x. simpl. rewrite in_app_iff, H. simpl. tauto.
Qed.

Lemma collectBuckets_keys : forall rows,
  List.map fst (collectBuckets rows) = dedup JsString.eqb (keysOf rows).
Proof.
  intros rows. unfold collectBuckets. rewrite foldRowsFrom_keys.
  apply (fold_pushKey_dedup (keysOf rows) [] []). tauto.
Qed.

Lemma mapGet_first : forall m k b,
  NoDup (List.map fst m) -> In (k, b) m -> mapGet m k = Some b.
Proof.
  induction m as [|[k0 b0] m IH]; intros k b Hnd Hin; [destruct Hin|].
  simpl in *. inversion Hnd as [|? ? Hk0 Hnd']; subst.
  destruct Hin as [Heq | Hin].
  - injection Heq as -> ->. rewrite StringFacts.eqb_refl. reflexivity.
  - destruct (JsString.eqb k0 k) eqn:E.
    + apply StringFacts.eqb_eq in E. subst k0. exfalso. apply Hk0.
      apply (in_map fst) in Hin. exact Hin.
    + apply IH; assumption.
Qed.

(** *** The ordinal and the totals of a bucket *)

Definition memberOf (k : jsstring) (i : Z) (row : AggregateRow) : list (Z * AggregateRow) :=
  match entry row with
  | Some (_, k') => if JsString.eqb k' k then [(i, row)] else []
  | None => []
  end.

(** The rows folded under the key [k], each with its index, the first
    row of the list having index [i]. *)
Fixpoint membersFrom (k : jsstring) (i : Z) (rows : list AggregateRow)
  : list (Z * AggregateRow) :=
  match rows with
  | [] => []
  | row :: rest => memberOf k i row ++ membersFrom k (i + 1) rest
  end.

Definition quantityOf (member : Z * AggregateRow) : number :=
  toFiniteNumber0 (total_quantity (snd member)).

Definition salesOf (member : Z * AggregateRow) : number :=
  toFiniteNumber0 (total_sales (snd member)).

Definition summary (b : CanonicalBucket) : Z * number * number :=
  (ordinal b, totalQuantity b, totalSalesValue b).

Definition addMember (state : option (Z * number * number)) (member : Z * AggregateRow)
  : option (Z * number * number) :=
  Some match state with
       | None =>
           (fst member, PrimFloat.add zero (quantityOf member),
            PrimFloat.add zero (salesOf member))
       | Some (o, q, s) =>
           (Z.min o (fst member), PrimFloat.add q (quantityOf member),
            PrimFloat.add s (salesOf member))
       end.

Lemma foldRow_summary : forall m i row k,
  option_map summary (mapGet (foldRow m i row) k)
  = fold_left addMember (memberOf k i row) (option_map summary (mapGet m k)).
Proof.
  intros m i row k. unfold memberOf.
  destruct (entry row) as [[n k']|] eqn:E.
  - assert (Hf : exists b,
               foldRow m i row = mapSet m k' b
               /\ summary b
                  = match mapGet m k' with
                    | Some b0 =>
                        (Z.min (ordinal b0) i,
                         PrimFloat.add (totalQuantity b0) (toFiniteNumber0 (total_quantity row)),
                         PrimFloat.add (totalSalesValue b0) (toFiniteNumber0 (total_sales row)))
                    | None =>
                        (i, PrimFloat.add zero (toFiniteNumber0 (total_quantity row)),
                         PrimFloat.add zero (toFiniteNumber0 (total_sales row)))
                    end).
    { revert E. unfold entry, foldRow.
      destruct (normalizePartnerName (partner_name row)) as [n'|]; [|discriminate].
      cbv zeta. destruct (falsy (canonicalizePartnerKey n')); [discriminate|].
      intros H. injection H as -> <-.
      eexists. split; [reflexivity|].
      destruct (mapGet m (canonicalizePartnerKey n)); reflexivity. }
    destruct Hf as [b [-> Hs]]. rewrite mapGet_mapSet.
    destruct (JsString.eqb k' k) eqn:Ek; [|reflexivity].
    apply StringFacts.eqb_eq in Ek. subst k'. simpl. rewrite Hs.
    unfold addMember, quantityOf, salesOf, summary. simpl.
    destruct (mapGet m k); reflexivity.
  - rewrite (foldRow_skip m i row E). reflexivity.
Qed.

Lemma foldRowsFrom_summary : forall rows m i k,
  option_map summary (mapGet (foldRowsFrom m i rows) k)
  = fold_left addMember (membersFrom k i rows) (option_map summary (mapGet m k)).
Proof.
  induction rows as [|row rows IH]; intros m i k; simpl; [reflexivity|].
  rewrite IH, foldRow_summary, fold_left_app. reflexivity.
Qed.

Lemma membersFrom_indices : forall k rows i member,
  In member (membersFrom k i rows) -> i <= fst member.
Proof.
  intros k. induction rows as [|row rows IH]; intros i member H; [destruct H|].
  simpl in H. apply in_app_or in H. destruct H as [H | H].
  - unfold memberOf in H. destruct (entry row) as [[n k']|]; [|destruct H].
    destruct (JsString.eqb k' k); [|destruct H].
    destruct H as [<- | []]. simpl. lia.
  - apply IH in H. lia.
Qed.

Lemma fold_addMember : forall members o q s,
  (forall member, In member members -> o <= fst member) ->
  fold_left addMember members (Some (o, q, s))
  = Some (o, fold_left PrimFloat.add (List.map quantityOf members) q,
          fold_left PrimFloat.add (List.map salesOf members) s).
Proof.
  induction members as [|member members IH]; intros o q s H; [reflexivity|].
  cbn [fold_left List.map].
  change (addMember (Some (o, q, s)) member)
    with (Some (Z.min o (fst member), PrimFloat.add q (quantityOf member),
                PrimFloat.add s (salesOf member))).
  rewrite Z.min_l by (apply H; left; reflexivity).
  apply IH. intros x Hx. apply H. right. exact Hx.
Qed.

Lemma membersFrom_sorted : forall k rows i member rest,
  membersFrom k i rows = member :: rest ->
  forall x, In x rest -> fst member <= fst x.
Proof.
  intros k. induction rows as [|row rows IH]; intros i member rest H x Hx; [discriminate|].
  simpl in H. unfold memberOf in H.
  destruct (entry row) as [[n k']|]; [destruct (JsString.eqb k' k)|]; simpl in H.
  - injection H as <- <-. apply membersFrom_indices in Hx. simpl. lia.
  - apply (IH _ _ _ H x Hx).
  - apply (IH _ _ _ H x Hx).
Qed.

Lemma membersFrom_In : forall k rows i member,
  In member (membersFrom k i rows) ->
  In (snd member) rows
  /\ exists n, normalizePartnerName (partner_name (snd member)) = Some n
               /\ canonicalizePartnerKey n = k.
Proof.
  intros k. induction rows as [|row rows IH]; intros i member H; [destruct H|].
  simpl in H. apply in_app_or in H. destruct H as [H | H].
  - unfold memberOf, entry in H.
    destruct (normalizePartnerName (partner_name row)) as [n|] eqn:En; [|destruct H].
    destruct (falsy (canonicalizePartnerKey n)); [destruct H|].
    destruct (JsString.eqb (canonicalizePartnerKey n) k) eqn:Ek; [|destruct H].
    destruct H as [<- | []]. simpl. split; [left; reflexivity|].
    exists n. split; [exact En | apply StringFacts.eqb_eq, Ek].
  - destruct (IH _ _ H) as [H1 H2]. split; [right; exact H1 | exact H2].
Qed.

(** X6.  The bucket map holds one bucket for each distinct canonical key
    of the rows folded, in the order in which the keys first appear; a
    lookup by key finds every bucket of the map, and there are no more
    buckets than rows.  The ordinal of a bucket is the index of the first
    row folded into it, and its two totals are the sums, taken from zero
    in row order, of the quantities and sales values of its rows, each
    read as a finite number. *)
Theorem bucket_map_structure : forall rows,
  List.map fst (collectBuckets rows) = dedup JsString.eqb (keysOf rows)
  /\ NoDup (List.map fst (collectBuckets rows))
  /\ (List.length (collectBuckets rows) <= List.length rows)%nat
  /\ (forall k b, In (k, b) (collectBuckets rows) -> mapGet (collectBuckets rows) k = Some b)
  /\ (forall k b,
        mapGet (collectBuckets rows) k = Some b ->
        exists first rest,
          membersFrom k 0 rows = first :: rest
          /\ ordinal b = fst first
          /\ (forall member, In member rest -> fst first < fst member)
          /\ totalQuantity b
             = fold_left PrimFloat.add (List.map quantityOf (first :: rest)) zero
          /\ totalSalesValue b
             = fold_left PrimFloat.add (List.map salesOf (first :: rest)) zero).
Proof.
  intros rows.
  assert (Hk : List.map fst (collectBuckets rows) = dedup JsString.eqb (keysOf rows))
    by apply collectBuckets_keys.
  assert (Hnd : NoDup (List.map fst (collectBuckets rows))).
  { rewrite Hk. apply (ArrayFacts.dedup_NoDup _ JsString.eqb StringFacts.eqb_eq). }
  split; [exact Hk|]. split; [exact Hnd|]. split; [|split].
  - rewrite <- (length_map fst), Hk.
    apply Nat.le_trans with (List.length (keysOf rows)).
    + apply NoDup_incl_length.
      * apply (ArrayFacts.dedup_NoDup _ JsString.eqb StringFacts.eqb_eq).
      * intros x Hx.
        apply (proj1 (ArrayFacts.dedup_In _ JsString.eqb StringFacts.eqb_eq _ _)), Hx.
    + unfold keysOf. clear. induction rows as [|row rows IH]; simpl; [lia|].
      rewrite length_app. unfold keyOf at 1.
      destruct (entry row) as [[n k]|]; simpl; lia.
  - intros k b. apply mapGet_first, Hnd.
  - intros k b Hb.
    pose proof (foldRowsFrom_summary rows [] 0 k) as Hs.
    fold (collectBuckets rows) in Hs. rewrite Hb in Hs. simpl in Hs.
    destruct (membersFrom k 0 rows) as [|first rest] eqn:Em; [discriminate|].
    exists first, rest. split; [reflexivity|].
    simpl in Hs. unfold addMember at 2 in Hs.
    assert (Hstrict : forall member, In member rest -> fst first < fst member).
    { clear Hs Hb. revert Em. generalize 0 as i. clear.
      induction rows as [|row rows IH]; intros i Em member Hm; [discriminate|].
      simpl in Em. unfold memberOf in Em.
      destruct (entry row) as [[n k']|]; [destruct (JsString.eqb k' k)|]; simpl in Em.
      - injection Em as <- <-. apply membersFrom_indices in Hm. simpl. lia.
      - apply (IH _ Em member Hm).
      - apply (IH _ Em member Hm). }
    rewrite fold_addMember in Hs
      by (intros member Hm; apply Hstrict in Hm; lia).
    injection Hs as Ho Hq Hsales.
    repeat apply conj; auto.
Qed.

(** *** The canonical key *)

(** The letters and digits of a text, in order, the letters in lower
    case. *)
Definition lettersAndDigits (name : jsstring) : jsstring :=
  filter isLowerAlnum (List.map asciiLower name).

Lemma isCombiningMark_ascii : forall c, isAscii c = true -> isCombiningMark c = false.
Proof.
  intros c H. unfold isAscii in H. apply N.ltb_lt in H. unfold isCombiningMark.
  destruct (N.leb_spec 768 c); simpl; [lia | reflexivity].
Qed.

(** X7.  The canonical key of a name holds only the characters a to z
    and 0 to 9.  On a host that leaves Basic Latin text as it is when it
    decomposes it and maps A-Z to a-z on such text, the key of a name
    written in Basic Latin is its letters and digits, in order, the
    letters in lower case: spaces and punctuation are dropped wherever
    they stand, and letter case does not matter. *)
Theorem canonical_key_shape :
  plainOnAscii ->
  (forall name, forallb isLowerAlnum (canonicalizePartnerKey name) = true)
  /\ (forall name,
        forallb isAscii name = true ->
        canonicalizePartnerKey name = lettersAndDigits name)
  /\ (forall a b,
        forallb isAscii a = true -> forallb isAscii b = true ->
        canonicalizePartnerKey (a ++ b)
        = canonicalizePartnerKey a ++ canonicalizePartnerKey b)
  /\ (forall name,
        forallb isAscii name = true ->
        canonicalizePartnerKey (List.map asciiLower name) = canonicalizePartnerKey name)
  /\ lettersAndDigits (js "Acme & Co. (2)") = js "acmeco2"
  /\ lettersAndDigits (js " -.,&'/()") = [].
Proof.
  intros Hascii.
  assert (Hkey : forall name, forallb isAscii name = true ->
                              canonicalizePartnerKey name = lettersAndDigits name).
  { intros name H. unfold canonicalizePartnerKey, lettersAndDigits.
    destruct (Hascii name H) as [-> _].
    rewrite (filter_all _ (fun c => negb (isCombiningMark c)) name).
    - destruct (Hascii name H) as [_ ->]. reflexivity.
    - apply (forallb_weaken _ isAscii); [|exact H].
      intros c Hc. rewrite (isCombiningMark_ascii c Hc). reflexivity. }
  assert (Hlower : forall name, forallb isAscii name = true ->
                                forallb isAscii (List.map asciiLower name) = true).
  { intros name H. rewrite forallb_forall in *. intros c Hc.
    apply in_map_iff in Hc. destruct Hc as [c0 [<- Hc0]].
    specialize (H c0 Hc0). unfold isAscii, asciiLower in *. apply N.ltb_lt in H.
    apply N.ltb_lt.
    destruct (N.leb_spec 65 c0), (N.leb_spec c0 90); simpl; lia. }
  split; [apply canonicalizePartnerKey_lowerAlnum|]. split; [exact Hkey|].
  split; [|split; [|split; reflexivity]].
  - intros a b Ha Hb.
    rewrite (Hkey (a ++ b)) by (rewrite forallb_app, Ha, Hb; reflexivity).
    rewrite (Hkey a Ha), (Hkey b Hb). unfold lettersAndDigits.
    rewrite map_app, filter_app. reflexivity.
  - intros name H. rewrite (Hkey _ (Hlower name H)), (Hkey name H).
    unfold lettersAndDigits. f_equal. rewrite map_map. apply map_ext.
    intros c. unfold asciiLower.
    destruct ((65 <=? c) && (c <=? 90))%N eqn:E; [|rewrite E; reflexivity].
    apply andb_true_iff in E. destruct E as [E1 E2].
    apply N.leb_le in E1. apply N.leb_le in E2.
    destruct (N.leb_spec 65 (c + 32)), (N.leb_spec (c + 32) 90); simpl;
      try reflexivity; lia.
Qed.

End AnyHost.

(** The theorem on the Latin-1 host. *)
Lemma canonical_key_of_acme :
  canonicalizePartnerKey (host := latin1) (js "Acme & Co. (2)") = js "acmeco2"
  /\ canonicalizePartnerKey (host := latin1) (js "ACME&CO2") = js "acmeco2".
Proof.
  destruct (canonical_key_shape (host := latin1) latin1_plainOnAscii)
    as [_ [Hkey _]].
  split; rewrite Hkey by reflexivity; reflexivity.
Defined.

End TopPartnersFacts.
(** ** Commercial responsibles: channels and period series *)

Module CommercialSeriesFacts.

Import Store Numbers JsArray CommercialResponsibles CommercialSeries.
Import MostSoldProducts(scalar, SNull, SNumber, SBigint, SString).

(** *** The channels *)

Definition QUANTITY_EXPRESSION : ValueExpr := Coalesce (Col col_quantity) (Lit 0).

Definition valueOrZero (c : ValueColumn) (r : FactRow) : number :=
  match column c r with Some v => v | None => zero end.

Lemma eval_coalesce_zero : forall c r,
  eval (Coalesce (Col c) (Lit 0)) r = Some (valueOrZero c r).
Proof. intros c r. unfold valueOrZero. simpl. destruct (column c r); reflexivity. Qed.

Lemma eval_all : forall r,
  eval SALES_VALUE_ALL_EXPRESSION r
  = Some (if isIndirectSql r
          then valueOrZero col_direct_sales r else valueOrZero col_sales_altona r).
Proof.
  intros r. unfold SALES_VALUE_ALL_EXPRESSION. cbn [eval].
  change (holds (OrderTypeIn INDIRECT_ORDER_TYPES) r) with (isIndirectSql r).
  destruct (isIndirectSql r); apply eval_coalesce_zero.
Qed.

Lemma eval_direct : forall r,
  eval SALES_VALUE_DIRECT_EXPRESSION r = Some (valueOrZero col_sales_altona r).
Proof. intros r. apply eval_coalesce_zero. Qed.

Lemma eval_indirect : forall r,
  eval SALES_VALUE_INDIRECT_EXPRESSION r = Some (valueOrZero col_direct_sales r).
Proof. intros r. apply eval_coalesce_zero. Qed.

(** X8.  The channel filters split the rows in two: every row passes the
    filter of exactly one of the channels direct and indirect, the
    indirect ones being those whose order type is one of the indirect
    order types, and the channel all keeps every row.  The sales value
    a row counts for under all is the value it counts for under its own
    channel: its direct_sales when it is indirect, its sales_altona when
    it is direct, a missing value counting as zero. *)
Theorem channels_split_the_total : forall rows,
  Permutation rows (channelRows direct rows ++ channelRows indirect rows)
  /\ channelRows all rows = rows
  /\ (forall r, In r (channelRows indirect rows)
                <-> In r rows /\ In (order_type r) INDIRECT_ORDER_TYPES)
  /\ (forall r, In r (channelRows direct rows)
                <-> In r rows /\ ~ In (order_type r) INDIRECT_ORDER_TYPES)
  /\ (forall r, In r (channelRows indirect rows) ->
                eval (resolveSalesValueExpression all) r
                = eval (resolveSalesValueExpression indirect) r
                /\ eval (resolveSalesValueExpression indirect) r
                   = Some (match direct_sales r with Some v => v | None => zero end))
  /\ (forall r, In r (channelRows direct rows) ->
                eval (resolveSalesValueExpression all) r
                = eval (resolveSalesValueExpression direct) r
                /\ eval (resolveSalesValueExpression direct) r
                   = Some (match sales_altona r with Some v => v | None => zero end)).
Proof.
  intros rows.
  assert (Hind : forall r, In r (channelRows indirect rows)
                           <-> In r rows /\ isIndirectSql r = true).
  { intros r. unfold channelRows. cbn [buildSalesChannelFilter]. apply filter_In. }
  assert (Hdir : forall r, In r (channelRows direct rows)
                           <-> In r rows /\ isIndirectSql r = false).
  { intros r. unfold channelRows. cbn [buildSalesChannelFilter].
    rewrite filter_In, negb_true_iff. reflexivity. }
  split; [|split; [reflexivity|split; [|split; [|split]]]].
  - unfold channelRows. cbn [buildSalesChannelFilter].
    induction rows as [|r rows IH]; [constructor|].
    cbn [filter]. destruct (isIndirectSql r); cbn [negb].
    + apply Permutation_cons_app. apply IH.
      * intros x. unfold channelRows. cbn [buildSalesChannelFilter]. apply filter_In.
      * intros x. unfold channelRows. cbn [buildSalesChannelFilter].
        rewrite filter_In, negb_true_iff. reflexivity.
    + simpl. apply perm_skip. apply IH.
      * intros x. unfold channelRows. cbn [buildSalesChannelFilter]. apply filter_In.
      * intros x. unfold channelRows. cbn [buildSalesChannelFilter].
        rewrite filter_In, negb_true_iff. reflexivity.
  - intros r. rewrite Hind. unfold isIndirectSql.
    rewrite (ArrayFacts.existsb_eqb _ JsString.eqb StringFacts.eqb_eq). reflexivity.
  - intros r. rewrite Hdir. unfold isIndirectSql.
    rewrite (ArrayFacts.existsb_eqb_false _ JsString.eqb StringFacts.eqb_eq). reflexivity.
  - intros r Hr. apply Hind in Hr. destruct Hr as [_ Hr].
    unfold resolveSalesValueExpression. rewrite eval_all, eval_indirect, Hr.
    split; reflexivity.
  - intros r Hr. apply Hdir in Hr. destruct Hr as [_ Hr].
    unfold resolveSalesValueExpression. rewrite eval_all, eval_direct, Hr.
    split; reflexivity.
Qed.

(** *** Maps with string keys *)

Section StringMaps.

Variable V : Type.

Lemma stringMap_get_set : forall (m : list (jsstring * V)) k v k',
  mapGet (mapSet m k v) k' = if JsString.eqb k k' then Some v else mapGet m k'.
Proof.
  induction m as [|[k0 v0] m IH]; intros k v k'; simpl; [reflexivity|].
  destruct (JsString.eqb k0 k) eqn:E0; simpl.
  - apply StringFacts.eqb_eq in E0. subst k0.
    destruct (JsString.eqb k k'); reflexivity.
  - rewrite IH. destruct (JsString.eqb k0 k') eqn:E1; [|reflexivity].
    apply StringFacts.eqb_eq in E1. subst k0.
    destruct (JsString.eqb k k') eqn:E2; [|reflexivity].
    apply StringFacts.eqb_eq in E2. subst k'.
    rewrite StringFacts.eqb_refl in E0. discriminate.
Qed.

Variable W : Type.

Lemma mapGet_values : forall (f : V -> W) (m : list (jsstring * V)) k,
  mapGet (List.map (fun entry => (fst entry, f (snd entry))) m) k
  = option_map f (mapGet m k).
Proof.
  intros f m k. induction m as [|[k0 v0] m IH]; simpl; [reflexivity|].
  destruct (JsString.eqb k0 k); [reflexivity | exact IH].
Qed.

End StringMaps.

(** *** The buckets of a name *)

(** The name and the bucket a period row gives, if it is not skipped. *)
Definition entryOf (view : Routes.CommercialTimeView) (row : PeriodRow)
  : option (jsstring * PeriodEntry) :=
  match normalizeName (pr_commercial_responsible row),
        normalizeYearValue (pr_year row) with
  | Some name, Some year =>
      let salesValue := toFiniteNumber0 (pr_total_sales row) in
      let quantity := toFiniteNumber0 (pr_total_quantity row) in
      match view with
      | Routes.yearly => Some (name, mkEntry (ofInteger year) year None salesValue quantity)
      | Routes.monthly =>
          match normalizeMonthValue (pr_month row) with
          | Some m =>
              Some (name,
                    mkEntry (ofInteger year ++ js "-" ++ padStart2 (ofInteger m))
                      year (Some m) salesValue quantity)
          | None => None
          end
      end
  | _, _ => None
  end.

Lemma addPeriodRow_entryOf : forall view m row,
  addPeriodRow view m row
  = match entryOf view row with
    | Some (name, e) =>
        mapSet m name (match mapGet m name with Some l => l | None => [] end ++ [e])
    | None => m
    end.
Proof.
  intros view m row. unfold addPeriodRow, entryOf.
  destruct (normalizeName (pr_commercial_responsible row)) as [name|]; [|reflexivity].
  destruct (normalizeYearValue (pr_year row)) as [year|]; [|reflexivity].
  destruct view; [reflexivity|].
  destruct (normalizeMonthValue (pr_month row)); reflexivity.
Qed.

Definition entryFor (view : Routes.CommercialTimeView) (name : jsstring) (row : PeriodRow)
  : list PeriodEntry :=
  match entryOf view row with
  | Some (n, e) => if JsString.eqb n name then [e] else []
  | None => []
  end.

(** The buckets of the rows of [name], in row order. *)
Definition entriesOf (view : Routes.CommercialTimeView) (name : jsstring)
  (rows : list PeriodRow) : list PeriodEntry :=
  flat_map (entryFor view name) rows.

Definition appendTo (state : option (list PeriodEntry)) (es : list PeriodEntry)
  : option (list PeriodEntry) :=
  match es with
  | [] => state
  | _ => Some (match state with Some l => l | None => [] end ++ es)
  end.

Lemma appendTo_app : forall state a b,
  appendTo (appendTo state a) b = appendTo state (a ++ b).
Proof.
  intros state [|x a] [|y b]; simpl; try reflexivity.
  - rewrite app_nil_r. reflexivity.
  - rewrite <- app_assoc. reflexivity.
Qed.

Lemma addPeriodRow_lookup : forall view m row name,
  mapGet (addPeriodRow view m row) name = appendTo (mapGet m name) (entryFor view name row).
Proof.
  intros view m row name. rewrite addPeriodRow_entryOf. unfold entryFor.
  destruct (entryOf view row) as [[n e]|]; [|reflexivity].
  rewrite stringMap_get_set. destruct (JsString.eqb n name) eqn:E; [|reflexivity].
  apply StringFacts.eqb_eq in E. subst n. reflexivity.
Qed.

Lemma fold_addPeriodRow_lookup : forall view rows m name,
  mapGet (fold_left (addPeriodRow view) rows m) name
  = appendTo (mapGet m name) (entriesOf view name rows).
Proof.
  intros view. induction rows as [|row rows IH]; intros m name; simpl; [reflexivity|].
  rewrite IH, addPeriodRow_lookup, appendTo_app. reflexivity.
Qed.

Lemma buildSeriesMap_lookup : forall rows view name,
  mapGet (buildSeriesMap rows view) name
  = match entriesOf view name rows with
    | [] => None
    | es => Some (withDeltasFrom None (sortBy comparePeriods es))
    end.
Proof.
  intros rows view name. unfold buildSeriesMap.
  rewrite (mapGet_values _ _ (fun l => withDeltasFrom None (sortBy comparePeriods l))).
  rewrite fold_addPeriodRow_lookup. simpl.
  destruct (entriesOf view name rows); reflexivity.
Qed.

(** *** Order and deltas *)

Definition monthOrZero (e : PeriodEntry) : Z :=
  match e_month e with Some m => m | None => 0 end.

(** Chronological order of two buckets. *)
Definition periodBefore (a b : PeriodEntry) : Prop :=
  e_year a < e_year b \/ (e_year a = e_year b /\ monthOrZero a <= monthOrZero b).

Lemma comparePeriods_before : forall a b,
  ArrayFacts.before _ comparePeriods a b <-> periodBefore a b.
Proof.
  intros a b. unfold ArrayFacts.before, comparePeriods, periodBefore, monthOrZero.
  destruct (Z.eqb_spec (e_year a) (e_year b)) as [E | E]; simpl; lia.
Qed.

Lemma comparePeriods_total : forall a b,
  ArrayFacts.before _ comparePeriods a b \/ ArrayFacts.before _ comparePeriods b a.
Proof. intros a b. rewrite !comparePeriods_before. unfold periodBefore. lia. Qed.

Lemma comparePeriods_trans : forall a b c,
  ArrayFacts.before _ comparePeriods a b -> ArrayFacts.before _ comparePeriods b c ->
  ArrayFacts.before _ comparePeriods a c.
Proof. intros a b c. rewrite !comparePeriods_before. unfold periodBefore. lia. Qed.

(** A bucket without its deltas. *)
Definition strip (b : CommercialPeriodBucket) : PeriodEntry :=
  mkEntry (period b) (periodYear b) (periodMonth b) (salesValue b) (quantity b).

Lemma strip_withDeltasFrom : forall l prev, List.map strip (withDeltasFrom prev l) = l.
Proof.
  induction l as [|[p y m s q] l IH]; intros prev; simpl; [reflexivity|].
  rewrite IH. reflexivity.
Qed.

(** The deltas of a series: none for the first bucket (or, with [prev],
    the difference from it), and for every later bucket the difference
    from the bucket before it. *)
Definition deltaFrom (prev : option CommercialPeriodBucket) (b : CommercialPeriodBucket)
  : Prop :=
  match prev with
  | Some p =>
      deltaSalesValue b = Some (PrimFloat.sub (salesValue b) (salesValue p))
      /\ deltaQuantity b = Some (PrimFloat.sub (quantity b) (quantity p))
  | None => deltaSalesValue b = None /\ deltaQuantity b = None
  end.

Definition chained (series : list CommercialPeriodBucket) : Prop :=
  forall i b,
    nth_error series i = Some b ->
    match i with
    | O => deltaFrom None b
    | S j => exists p, nth_error series j = Some p /\ deltaFrom (Some p) b
    end.

Lemma withDeltasFrom_chained : forall l,
  chained (withDeltasFrom None l).
Proof.
  assert (H : forall l prev i b,
             nth_error (withDeltasFrom prev l) i = Some b ->
             match i with
             | O =>
                 match prev with
                 | Some p =>
                     deltaSalesValue b = Some (PrimFloat.sub (salesValue b) (e_salesValue p))
                     /\ deltaQuantity b = Some (PrimFloat.sub (quantity b) (e_quantity p))
                 | None => deltaSalesValue b = None /\ deltaQuantity b = None
                 end
             | S j =>
                 exists p, nth_error (withDeltasFrom prev l) j = Some p /\ deltaFrom (Some p) b
             end).
  { induction l as [|e l IH]; intros prev i b Hb; [destruct i; discriminate|].
    destruct i as [|i].
    - simpl in Hb. injection Hb as <-. destruct prev; split; reflexivity.
    - simpl in Hb. pose proof (IH (Some e) i b Hb) as Hi.
      destruct i as [|j].
      + eexists. split; [reflexivity|]. simpl. exact Hi.
      + destruct Hi as [p [Hp Hd]]. exists p. split; [exact Hp | exact Hd]. }
  intros l i b Hb. pose proof (H l None i b Hb) as Hi.
  destruct i; exact Hi.
Qed.

(** X9.  In the series map, a name that no usable row carries has no
    series.  The series of any other name holds one bucket for each of
    its usable rows (rows with a year between 1900 and 2200 and, in the
    monthly view, a month between 1 and 12), ordered by year and then by
    month; its first bucket has no deltas, and each later bucket has as
    deltas its sales value and its quantity minus those of the bucket
    before it. *)
Theorem series_sorted_with_deltas : forall rows view name,
  match mapGet (buildSeriesMap rows view) name with
  | None => entriesOf view name rows = []
  | Some series =>
      series <> []
      /\ Permutation (List.map strip series) (entriesOf view name rows)
      /\ StronglySorted periodBefore (List.map strip series)
      /\ chained series
  end.
Proof.
  intros rows view name. rewrite buildSeriesMap_lookup.
  destruct (entriesOf view name rows) as [|e es] eqn:E; [reflexivity|].
  set (l := e :: es). split; [|split; [|split]].
  - intros H. apply (f_equal (List.map strip)) in H.
    rewrite strip_withDeltasFrom in H.
    apply (f_equal (@List.length PeriodEntry)) in H.
    rewrite ArrayFacts.sortBy_length in H. discriminate.
  - rewrite strip_withDeltasFrom. apply ArrayFacts.sortBy_perm.
  - rewrite strip_withDeltasFrom.
    apply (RankingFacts.StronglySorted_impl _ (ArrayFacts.before _ comparePeriods)).
    + intros a b. apply comparePeriods_before.
    + apply (ArrayFacts.sortBy_strongly_sorted _ _ comparePeriods_total comparePeriods_trans).
  - apply withDeltasFrom_chained.
Qed.

(** *** The values of a bucket *)

Lemma truncatedYear_range : forall x y,
  truncatedYear x = Some y -> y = truncZ x /\ MIN_ALLOWED_YEAR <= y <= MAX_ALLOWED_YEAR.
Proof.
  intros x y. unfold truncatedYear, inAllowedYearRange.
  destruct (isFinite x); simpl; [|discriminate].
  destruct (Z.leb_spec MIN_ALLOWED_YEAR (truncZ x)) as [L | L]; simpl; [|discriminate].
  destruct (Z.leb_spec (truncZ x) MAX_ALLOWED_YEAR) as [G | G]; simpl; [|discriminate].
  intros E. injection E as <-. lia.
Qed.

Lemma truncatedMonth_range : forall x m,
  truncatedMonth x = Some m -> m = truncZ x /\ 1 <= m <= 12.
Proof.
  intros x m. unfold truncatedMonth.
  destruct (isFinite x); simpl; [|discriminate].
  destruct (Z.ltb_spec (truncZ x) 1) as [L | L]; simpl; [discriminate|].
  destruct (Z.ltb_spec 12 (truncZ x)) as [G | G]; simpl; [discriminate|].
  intros E. injection E as <-. lia.
Qed.

Lemma normalizeYearValue_range : forall value y,
  normalizeYearValue value = Some y -> MIN_ALLOWED_YEAR <= y <= MAX_ALLOWED_YEAR.
Proof.
  intros [| x | n | s] y; simpl; try discriminate.
  - intros H. apply truncatedYear_range in H. tauto.
  - intros H. apply truncatedYear_range in H. tauto.
  - destruct (falsy (trim s)); [discriminate|].
    intros H. apply truncatedYear_range in H. tauto.
Qed.

Lemma normalizeMonthValue_range : forall value m,
  normalizeMonthValue value = Some m -> 1 <= m <= 12.
Proof.
  intros [| x | n | s] m; simpl; try discriminate.
  - intros H. apply truncatedMonth_range in H. tauto.
  - intros H. apply truncatedMonth_range in H. tauto.
  - destruct (falsy (trim s)); [discriminate|].
    intros H. apply truncatedMonth_range in H. tauto.
Qed.

(** What holds of every bucket made in the given view. *)
Definition wellFormed (view : Routes.CommercialTimeView) (e : PeriodEntry) : Prop :=
  MIN_ALLOWED_YEAR <= e_year e <= MAX_ALLOWED_YEAR
  /\ isFinite (e_salesValue e) = true
  /\ isFinite (e_quantity e) = true
  /\ match view with
     | Routes.yearly => e_month e = None /\ e_period e = ofInteger (e_year e)
     | Routes.monthly =>
         exists m, e_month e = Some m /\ 1 <= m <= 12
                   /\ e_period e = RenderFacts.monthKeyOf (e_year e) (m - 1)
     end.

Lemma entryOf_wellFormed : forall view row name e,
  entryOf view row = Some (name, e) ->
  normalizeName (pr_commercial_responsible row) = Some name /\ wellFormed view e.
Proof.
  intros view row name e. unfold entryOf.
  destruct (normalizeName (pr_commercial_responsible row)) as [n|]; [|discriminate].
  destruct (normalizeYearValue (pr_year row)) as [y|] eqn:Ey; [|discriminate].
  apply normalizeYearValue_range in Ey.
  destruct view.
  - intros H. injection H as <- <-. split; [reflexivity|].
    unfold wellFormed. simpl.
    repeat apply conj; try apply Shares.toFiniteNumber0_finite; try lia; reflexivity.
  - destruct (normalizeMonthValue (pr_month row)) as [m|] eqn:Em; [|discriminate].
    apply normalizeMonthValue_range in Em.
    intros H. injection H as <- <-. split; [reflexivity|].
    unfold wellFormed. simpl.
    split; [lia|]. split; [apply Shares.toFiniteNumber0_finite|].
    split; [apply Shares.toFiniteNumber0_finite|].
    exists m. split; [reflexivity|]. split; [lia|].
    unfold RenderFacts.monthKeyOf. replace (m - 1 + 1) with m by lia. reflexivity.
Qed.

Lemma entriesOf_In : forall view name rows e,
  In e (entriesOf view name rows)
  <-> exists row, In row rows /\ entryOf view row = Some (name, e).
Proof.
  intros view name rows e. unfold entriesOf. rewrite in_flat_map.
  split; intros [row [Hrow H]]; exists row; (split; [exact Hrow|]).
  - unfold entryFor in H. destruct (entryOf view row) as [[n e']|]; [|destruct H].
    destruct (JsString.eqb n name) eqn:En; [|destruct H].
    apply StringFacts.eqb_eq in En. destruct H as [<- | []]. subst n. reflexivity.
  - unfold entryFor. rewrite H, StringFacts.eqb_refl. left. reflexivity.
Qed.

Lemma wellFormed_period_inj : forall view a b,
  wellFormed view a -> wellFormed view b -> e_period a = e_period b ->
  e_year a = e_year b /\ e_month a = e_month b.
Proof.
  intros view a b [_ [_ [_ Ha]]] [_ [_ [_ Hb]]] H. destruct view.
  - destruct Ha as [Ma Pa]. destruct Hb as [Mb Pb].
    rewrite Pa, Pb in H. apply RenderFacts.ofInteger_inj in H.
    split; [exact H | congruence].
  - destruct Ha as [ma [Ma [Ra Pa]]]. destruct Hb as [mb [Mb [Rb Pb]]].
    rewrite Pa, Pb in H. apply RenderFacts.monthKeyOf_inj in H; [|lia|lia].
    destruct H as [Hy Hm]. split; [exact Hy|].
    rewrite Ma, Mb. f_equal. lia.
Qed.

(** X10.  Every bucket of every series has a year between 1900 and 2200
    and finite values.  In the yearly view it has no month and its
    period is the year; in the monthly view its month lies between 1 and
    12 and its period is the year, a dash and the two-digit month.  The
    names of the map are trimmed, not empty, and the names of the rows;
    and two buckets of one view with the same period text have the same
    year and month. *)
Theorem series_buckets_well_formed : forall rows view name,
  match mapGet (buildSeriesMap rows view) name with
  | Some series =>
      (exists row,
          In row rows /\ normalizeName (pr_commercial_responsible row) = Some name)
      /\ name = trim name /\ name <> []
      /\ Forall (fun b => wellFormed view (strip b)) series
      /\ (forall a b, In a series -> In b series -> period a = period b ->
                      periodYear a = periodYear b /\ periodMonth a = periodMonth b)
  | None => True
  end.
Proof.
  intros rows view name.
  rewrite buildSeriesMap_lookup.
  destruct (entriesOf view name rows) as [|e es] eqn:E; [exact I|].
  assert (Hall : forall b, In b (withDeltasFrom None (sortBy comparePeriods (e :: es))) ->
                           exists row, In row rows /\ entryOf view row = Some (name, strip b)).
  { intros b Hb. apply (in_map strip) in Hb. rewrite strip_withDeltasFrom in Hb.
    apply ArrayFacts.sortBy_In in Hb. rewrite <- E in Hb.
    apply entriesOf_In in Hb. exact Hb. }
  assert (Hwf : forall b, In b (withDeltasFrom None (sortBy comparePeriods (e :: es))) ->
                          wellFormed view (strip b)).
  { intros b Hb. destruct (Hall b Hb) as [row [_ Hrow]].
    apply entryOf_wellFormed in Hrow. tauto. }
  assert (He : In e (entriesOf view name rows)) by (rewrite E; left; reflexivity).
  apply entriesOf_In in He. destruct He as [row [Hrow Hentry]].
  apply entryOf_wellFormed in Hentry. destruct Hentry as [Hname _].
  split; [exists row; tauto|].
  assert (Htrim : name = trim name /\ name <> []).
  { revert Hname. unfold normalizeName.
    destruct (pr_commercial_responsible row) as [v|]; [|discriminate].
    cbv zeta. destruct (Z.ltb_spec 0 (JsString.length (trim v))) as [L | L]; [|discriminate].
    intros H. injection H as <-. split.
    - symmetry. apply ConverterFacts.trim_idem.
    - intros Hnil. rewrite Hnil in L. unfold JsString.length in L. simpl in L. lia. }
  split; [tauto|]. split; [tauto|]. split.
  - apply Forall_forall. exact Hwf.
  - intros a b Ha Hb Hp.
    apply (wellFormed_period_inj view (strip a) (strip b)); auto.
Qed.

End CommercialSeriesFacts.
(** ** Years of delivery dates and the rows of the most-sold-products payload *)

Module YearWindows.

Import Store Numbers JsArray MostSoldProducts.
Import (coercions) JsDate.

(** The days of year [y] are those from its first January day up to the
    day before the next one. *)
Lemma year_of_day : forall z y,
  MonthFacts.monthStart (12 * y) <= z < MonthFacts.monthStart (12 * y + 12)
  <-> JsDate.YearFromDay z = y.
Proof.
  intros z y.
  pose proof (DateFacts.MakeDay_fields z) as Hz.
  destruct (DateFacts.fields_of_day z) as [Hm Hd].
  revert Hz Hm Hd.
  generalize (JsDate.YearFromDay z) as Y, (JsDate.MonthFromDay z) as M,
    (JsDate.DateFromDay z) as D.
  intros Y M D Hz Hm Hd.
  rewrite MonthFacts.MakeDay_monthStart in Hz.
  pose proof (MonthFacts.monthStart_step (12 * Y + M)) as Hstep.
  replace ((12 * Y + M) / 12) with Y in Hstep by (Z.div_mod_to_equations; lia).
  replace ((12 * Y + M) mod 12) with M in Hstep by (Z.div_mod_to_equations; lia).
  pose proof (DateFacts.monthStart_le (12 * Y) (12 * Y + M) ltac:(lia)) as H1.
  pose proof (DateFacts.monthStart_le (12 * Y + M + 1) (12 * Y + 12) ltac:(lia)) as H2.
  split.
  - intros [Hlo Hhi]. destruct (Z.lt_trichotomy Y y) as [L | [E | G]]; [|exact E|].
    + pose proof (DateFacts.monthStart_le (12 * Y + 12) (12 * y) ltac:(lia)). lia.
    + pose proof (DateFacts.monthStart_le (12 * y + 12) (12 * Y) ltac:(lia)). lia.
  - intros <-. lia.
Qed.

Lemma DateUTC_first_of_year : forall y,
  JsDate.DateUTC y 0 1 = MonthFacts.monthStart (12 * y) * JsDate.msPerDay.
Proof.
  intros y. unfold JsDate.DateUTC, JsDate.MakeDate, JsDate.msPerDay.
  rewrite MonthFacts.MakeDay_monthStart.
  replace (12 * y + 0) with (12 * y) by lia. lia.
Qed.

(** An instant lies in the window of the years [lo] to [hi] exactly when
    its UTC year does. *)
Lemma instant_in_years : forall lo hi d,
  JsDate.DateUTC lo 0 1 <= d < JsDate.DateUTC (hi + 1) 0 1
  <-> lo <= JsDate.getFullYear 0 d <= hi.
Proof.
  intros lo hi d. rewrite !DateUTC_first_of_year.
  unfold JsDate.getFullYear, JsDate.LocalTime, JsDate.Day. cbn [JsDate.offsetAt JsDate.offsetOfLocal JsDate.fixed]. rewrite Z.add_0_r.
  pose proof (proj2 (year_of_day (d / JsDate.msPerDay)
                       (JsDate.YearFromDay (d / JsDate.msPerDay))) eq_refl) as Hy.
  revert Hy. generalize (JsDate.YearFromDay (d / JsDate.msPerDay)) as Y. intros Y Hy.
  assert (Hd : JsDate.msPerDay * (d / JsDate.msPerDay) <= d
               < JsDate.msPerDay * (d / JsDate.msPerDay) + JsDate.msPerDay).
  { unfold JsDate.msPerDay. Z.div_mod_to_equations. lia. }
  revert Hy Hd. generalize (d / JsDate.msPerDay) as z. intros z Hy Hd.
  unfold JsDate.msPerDay in *.
  split.
  - intros [H1 H2]. split.
    + destruct (Z.le_gt_cases lo Y) as [L | G]; [exact L|].
      pose proof (DateFacts.monthStart_le (12 * Y + 12) (12 * lo) ltac:(lia)). lia.
    + destruct (Z.le_gt_cases Y hi) as [L | G]; [exact L|].
      pose proof (DateFacts.monthStart_le (12 * (hi + 1)) (12 * Y) ltac:(lia)). lia.
  - intros [H1 H2].
    pose proof (DateFacts.monthStart_le (12 * lo) (12 * Y) ltac:(lia)).
    pose proof (DateFacts.monthStart_le (12 * Y + 12) (12 * (hi + 1)) ltac:(lia)).
    lia.
Qed.

Definition hasCategory (r : FactRow) : Prop :=
  exists c, product_category r = Some c /\ sqlTrim c <> [].

Lemma hasCategory_check : forall r,
  match product_category r with
  | Some c => negb (JsString.eqb (sqlTrim c) [])
  | None => false
  end = true <-> hasCategory r.
Proof.
  intros r. unfold hasCategory. destruct (product_category r) as [c|].
  - rewrite negb_true_iff, StringFacts.eqb_neq. split.
    + intros H. exists c. split; [reflexivity | exact H].
    + intros [c' [E H]]. injection E as <-. exact H.
  - split; [discriminate | intros [c [E _]]; discriminate].
Qed.

(** X11.  With a year from 1900 to 2200 selected (the years the parser
    lets through), the WHERE clause of the most-sold-products query
    keeps exactly the rows that have a category which is not blank and a
    delivery date whose UTC year is the selected year, the year the year
    options are computed from; with a category other than "all"
    selected as well, the category of a row kept is that category, and
    the category "all" adds no test.  Without a selection only the test
    on the category is left. *)
Theorem year_filter_selects_the_utc_year :
  (forall y r,
      1900 <= y <= 2200 ->
      (buildWhereClause (YearIs y) (js "all") r = true
       <-> hasCategory r
           /\ exists d, delivery_date r = Some d /\ JsDate.getFullYear 0 d = y))
  /\ (forall year c r,
        c <> js "all" ->
        (buildWhereClause year c r = true
         <-> buildWhereClause year (js "all") r = true
             /\ product_category r = Some c))
  /\ (forall r, buildWhereClause YearAll (js "all") r = true <-> hasCategory r).
Proof.
  split; [|split].
  - intros y r _. unfold buildWhereClause. cbn [JsString.eqb js negb].
    change (JsString.eqb (js "all") (js "all")) with true. cbn [negb].
    rewrite andb_true_r, andb_true_iff, hasCategory_check.
    apply and_iff_compat_l.
    destruct (delivery_date r) as [d|].
    + rewrite andb_true_iff, Z.leb_le, Z.ltb_lt, (instant_in_years y y d). split.
      * intros H. exists d. split; [reflexivity | lia].
      * intros [d' [E H]]. injection E as <-. lia.
    + split; [discriminate | intros [d [E _]]; discriminate].
  - intros year c r Hc. unfold buildWhereClause.
    change (JsString.eqb (js "all") (js "all")) with true. cbn [negb].
    destruct (JsString.eqb c (js "all")) eqn:E.
    { apply StringFacts.eqb_eq in E. contradiction. }
    cbn [negb]. rewrite !andb_true_iff, StringFacts.textEqb_eq. tauto.
  - intros r. unfold buildWhereClause.
    change (JsString.eqb (js "all") (js "all")) with true. cbn [negb].
    rewrite !andb_true_r. apply hasCategory_check.
Qed.

(** An instant at or after the start bound and before the end bound. *)
Definition inWindow (startDate endDate : option Z) (d : Z) : Prop :=
  match startDate with Some s => s <= d | None => True end
  /\ match endDate with Some e => d < e | None => True end.

(** X12.  The start and end instants that the top-partners view makes of
    its year bounds enclose exactly the instants whose UTC year is not
    below the lower bound and not above the upper bound; an absent bound
    leaves that side open. *)
Theorem year_window_encloses_the_years : forall minYear maxYear d,
  inWindow (TopPartners.startDate minYear) (TopPartners.endDate maxYear) d
  <-> match minYear with Some lo => lo <= JsDate.getFullYear 0 d | None => True end
      /\ match maxYear with Some hi => JsDate.getFullYear 0 d <= hi | None => True end.
Proof.
  intros minYear maxYear d. unfold inWindow.
  set (Y := JsDate.getFullYear 0 d).
  pose proof (instant_in_years Y Y d) as Hself. fold Y in Hself.
  assert (Hd : JsDate.DateUTC Y 0 1 <= d < JsDate.DateUTC (Y + 1) 0 1)
    by (apply Hself; lia).
  destruct minYear as [lo|], maxYear as [hi|]; simpl.
  - apply (instant_in_years lo hi d).
  - pose proof (instant_in_years lo Y d) as H. fold Y in H. split.
    + intros [H1 _]. split; [|exact I]. apply H. lia.
    + intros [H1 _]. split; [|exact I]. apply H. lia.
  - pose proof (instant_in_years Y hi d) as H. fold Y in H. split.
    + intros [_ H2]. split; [exact I|]. apply H. lia.
    + intros [_ H2]. split; [exact I|]. apply H. lia.
  - tauto.
Qed.

End YearWindows.

Module PayloadRows.

Import Store Numbers JsArray ArrayFacts MostSoldProducts RankingFacts.

Section WithEngine.

Context {engine : Engine}.

Lemma number_from_bounds : forall l i total r,
  In r (number_from i total l) -> i <= rn r < i + Z.of_nat (List.length l).
Proof.
  induction l as [|g l IH]; intros i total r H; [destruct H|].
  simpl in H. destruct H as [<- | H].
  - simpl. lia.
  - apply IH in H. simpl List.length. lia.
Qed.

Lemma filtered_groups : forall whereSql table g,
  In g (filtered whereSql table) ->
  exists row, In row table /\ whereSql row = true
              /\ productKey row = (g_category g, g_family g, g_reference g).
Proof.
  intros whereSql table g H. unfold filtered in H.
  apply in_map_iff in H. destruct H as [[[c f] r] [<- H]].
  apply (proj1 (dedup_In _ keyEqb keyEqb_eq _ _)) in H.
  apply in_map_iff in H. destruct H as [row [Hk Hrow]].
  apply filter_In in Hrow. exists row. simpl. tauto.
Qed.

(** Every row of the ranking stands for a group of rows that pass the
    filter, and has a rank from 1 to 5. *)
Lemma query_rows : forall whereSql table r,
  In r (topProductsQuery whereSql table) ->
  1 <= rn r <= 5
  /\ exists row, In row table /\ whereSql row = true
                 /\ productKey row
                    = (g_category (r_group r), g_family (r_group r), g_reference (r_group r)).
Proof.
  intros whereSql table r H.
  assert (Hc : In r (filter (ofCategory (g_category (r_group r)))
                       (topProductsQuery whereSql table))).
  { apply filter_In. split; [exact H|]. unfold ofCategory. apply inCategory_true.
    reflexivity. }
  rewrite category_rows in Hc.
  split.
  - apply number_from_bounds in Hc. rewrite length_firstn in Hc. lia.
  - assert (Hg : In (r_group r)
                   (firstn 5 (sortBy windowOrder
                                (filter (inCategory (g_category (r_group r)))
                                   (filtered whereSql table))))).
    { erewrite <- number_from_groups. apply in_map, Hc. }
    assert (Hg' : In (r_group r) (filtered whereSql table)).
    { assert (Hs : In (r_group r)
                     (sortBy windowOrder
                        (filter (inCategory (g_category (r_group r)))
                           (filtered whereSql table)))).
      { rewrite <- (firstn_skipn 5). apply in_or_app. left. exact Hg. }
      apply sortBy_In, filter_In in Hs. tauto. }
    apply filtered_groups, Hg'.
Qed.

Lemma sqlTrim_nil : sqlTrim [] = [].
Proof. reflexivity. Qed.

Lemma small_rank_is_finite : forall n,
  1 <= n <= 5 -> toFiniteNumber0 (UBigint n) = ofZ n.
Proof.
  intros n H.
  assert (E : n = 1 \/ n = 2 \/ n = 3 \/ n = 4 \/ n = 5) by lia.
  destruct E as [-> | [-> | [-> | [-> | ->]]]]; reflexivity.
Qed.

(** What a row of the payload shows of a row of the ranking. *)
Definition shows (r : RankedRow) (p : MostSoldProductRow) : Prop :=
  g_category (r_group r) = Some (productCategory p)
  /\ productCategory p <> []
  /\ productFamily p = g_family (r_group r)
  /\ productReference p
     = match g_reference (r_group r) with
       | Some reference => if falsy reference then js "N/A" else reference
       | None => js "N/A"
       end
  /\ productReference p <> []
  /\ 1 <= rn r <= 5
  /\ rankWithinCategory p = ofZ (rn r)
  /\ isFinite (totalQuantity p) = true
  /\ isFinite (categoryTotalQuantity p) = true
  /\ (isFinite (g_total_quantity (r_group r)) = true ->
      totalQuantity p = g_total_quantity (r_group r)).

Lemma Forall2_filterMap : forall (A B C : Type) (R : A -> C -> Prop)
  (g : A -> B) (f : B -> option C) l,
  (forall x, In x l -> exists p, f (g x) = Some p /\ R x p) ->
  Forall2 R l (filterMap f (List.map g l)).
Proof.
  intros A B C R g f l. induction l as [|x l IH]; intros H; simpl; [constructor|].
  destruct (H x (or_introl eq_refl)) as [p [Hp HR]]. rewrite Hp.
  constructor; [exact HR|]. apply IH. intros y Hy. apply H. right. exact Hy.
Qed.

(** X13.  Under the WHERE clause of the payload builder no row of the
    ranking is lost on the way to the payload: the payload has one row
    for each ranked row, in the same order, with the category, family
    and reference of the ranked row ("N/A" for a missing or empty
    reference), its rank from 1 to 5 as a number, and finite
    quantities. *)
Theorem payload_rows_show_the_ranking : forall table year category,
  Forall2 shows
    (topProductsQuery (buildWhereClause year category) table)
    (mapTopProductRows (fetchTopProductRows table (buildWhereClause year category))).
Proof.
  intros table year category. unfold mapTopProductRows, fetchTopProductRows.
  apply Forall2_filterMap. intros r Hr.
  destruct (query_rows _ _ _ Hr) as [Hrank [row [_ [Hw Hkey]]]].
  assert (Hcat : exists c, g_category (r_group r) = Some c /\ falsy c = false).
  { unfold buildWhereClause in Hw. apply andb_true_iff in Hw. destruct Hw as [Hw _].
    apply andb_true_iff in Hw. destruct Hw as [Hw _].
    unfold productKey in Hkey. injection Hkey as Hc _ _. rewrite <- Hc.
    destruct (product_category row) as [c|]; [|discriminate].
    exists c. split; [reflexivity|]. destruct c; [discriminate | reflexivity]. }
  destruct Hcat as [c [Hc Hf]].
  unfold mapTopProductRow, toRawRow. cbn [raw_product_category raw_product_reference
    raw_product_family raw_total_quantity raw_category_total_quantity raw_rank].
  rewrite Hc, Hf. eexists. split; [reflexivity|].
  unfold shows. cbn [productCategory productFamily productReference rankWithinCategory
    totalQuantity categoryTotalQuantity ofScalar].
  repeat apply conj.
  - exact Hc.
  - intros E. rewrite E in Hf. discriminate.
  - reflexivity.
  - reflexivity.
  - destruct (g_reference (r_group r)) as [[|x reference]|]; discriminate.
  - lia.
  - lia.
  - apply small_rank_is_finite, Hrank.
  - apply Shares.toFiniteNumber0_finite.
  - apply Shares.toFiniteNumber0_finite.
  - intros F. unfold ofNumeric.
    assert (N : isNaN (g_total_quantity (r_group r)) = false).
    { unfold isFinite, is_finite in F. unfold isNaN.
      destruct (is_nan (g_total_quantity (r_group r))); [discriminate | reflexivity]. }
    rewrite N. unfold toFiniteNumber0, toFiniteNumber, ofScalar. rewrite F. reflexivity.
Qed.

End WithEngine.

End PayloadRows.

(** ** The windows and periods of the net-margin route and of the
    dashboard summary *)

Module NetMarginRouteFacts.

Import JsDate CalendarFacts MonthFacts RenderFacts DateFacts NetMargin NetMarginFacts
  TimeBucketing RangeEnumeration NetMarginRoute.

Lemma periodsBetween_In : forall first last step x,
  0 < step ->
  (In x (periodsBetween first last step)
   <-> first <= x <= last /\ (x - first) mod step = 0).
Proof.
  intros first last step x Hs. split.
  - unfold periodsBetween. intros H. apply progression_In in H.
    destruct H as [i [[Hi0 Hi] ->]]. unfold periodCount in Hi.
    assert (Hi' : i <= (last - first) / step) by lia.
    assert (Hq : step * ((last - first) / step) <= last - first)
      by (apply Z.mul_div_le; lia).
    split; [nia|].
    replace (first + i * step - first) with (i * step) by ring.
    apply Z.mod_mul. lia.
  - intros [Hx Hm]. apply periodsBetween_member; assumption.
Qed.

Lemma monthStart_gap : forall n k,
  28 * Z.of_nat n <= monthStart (k + Z.of_nat n) - monthStart k <= 31 * Z.of_nat n.
Proof.
  induction n as [|n IH]; intros k.
  - rewrite Z.add_0_r. simpl. lia.
  - specialize (IH k).
    pose proof (monthStart_step (k + Z.of_nat n)) as Hs.
    pose proof (daysInMonth_bounds ((k + Z.of_nat n) / 12) ((k + Z.of_nat n) mod 12)).
    replace (k + Z.of_nat (S n)) with (k + Z.of_nat n + 1) by lia. lia.
Qed.

Section LocalZone.

Variable tz : Z.

Lemma localDay_mono : forall a b, a <= b -> localDay tz a <= localDay tz b.
Proof.
  intros a b H. unfold localDay, LocalTime, Day. cbn [offsetAt offsetOfLocal fixed] in *.
  apply Z.div_le_mono; [unfold msPerDay; lia | lia].
Qed.

Lemma monthNumber_unfold : forall t,
  monthNumber tz t = 12 * getFullYear tz t + getMonth tz t.
Proof. reflexivity. Qed.

Lemma monthNumber_parts : forall t,
  localDay tz t = monthStart (monthNumber tz t) + getDate tz t - 1
  /\ 1 <= getDate tz t
     <= daysInMonth (monthNumber tz t / 12) (monthNumber tz t mod 12)
  /\ monthNumber tz t / 12 = getFullYear tz t
  /\ monthNumber tz t mod 12 = getMonth tz t.
Proof.
  intros t. rewrite monthNumber_unfold.
  pose proof (MakeDay_of_fields tz t) as E. rewrite MakeDay_monthStart in E.
  destruct (fields_of_day (localDay tz t)) as [Hm Hd].
  rewrite <- getMonth_localDay, <- getFullYear_localDay, <- getDate_localDay in *.
  assert (H1 : (12 * getFullYear tz t + getMonth tz t) / 12 = getFullYear tz t)
    by (Z.div_mod_to_equations; lia).
  assert (H2 : (12 * getFullYear tz t + getMonth tz t) mod 12 = getMonth tz t)
    by (Z.div_mod_to_equations; lia).
  rewrite H1, H2. repeat split; try lia.
Qed.

Lemma monthNumber_bounds : forall t,
  monthStart (monthNumber tz t) <= localDay tz t < monthStart (monthNumber tz t + 1).
Proof.
  intros t. destruct (monthNumber_parts t) as [E [Hd _]].
  pose proof (monthStart_step (monthNumber tz t)). lia.
Qed.

Lemma monthNumber_mono : forall a b, a <= b -> monthNumber tz a <= monthNumber tz b.
Proof.
  intros a b H. apply localDay_mono in H.
  pose proof (monthNumber_bounds a) as Ha. pose proof (monthNumber_bounds b) as Hb.
  destruct (Z.le_gt_cases (monthNumber tz a) (monthNumber tz b)) as [|Hgt]; [assumption|].
  pose proof (monthStart_le (monthNumber tz b + 1) (monthNumber tz a) ltac:(lia)). lia.
Qed.

(** *** Going back by months *)

(** The month [subMonths] aims at, and the length it clamps the day of
    month to; the constructor reads a year from 0 to 99 as 1900 and that
    year. *)
Definition targetMonth (date months : Z) : Z :=
  12 * MakeFullYear (getFullYear tz date) + getMonth tz date - months.

Definition targetLength (date months : Z) : Z :=
  daysInMonth (MakeFullYear (targetMonth date months / 12)) (targetMonth date months mod 12).

Lemma subMonths_parts : forall date months,
  localDay tz (subMonths tz date months)
  = monthStart (targetMonth date months)
    + Z.min (getDate tz date) (targetLength date months) - 1
  /\ TimeWithinDay (LocalTime tz (subMonths tz date months))
     = TimeWithinDay (LocalTime tz date).
Proof.
  intros date months.
  rewrite (subMonths_instant tz date months (targetMonth date months)
             (targetLength date months) eq_refl eq_refl).
  rewrite atLocal_unfold.
  destruct (localDay_of_parts tz
              (monthStart (targetMonth date months)
               + (Z.min (getDate tz date) (targetLength date months) - 1))
              (TimeWithinDay (LocalTime tz date)) (time_bounds _)) as [-> ->].
  split; [lia | reflexivity].
Qed.

Lemma targetMonth_plain : forall date months,
  plainYear (getFullYear tz date) ->
  targetMonth date months = monthNumber tz date - months.
Proof.
  intros date months H. unfold targetMonth. rewrite (MakeFullYear_plain _ H).
  rewrite monthNumber_unfold. reflexivity.
Qed.

Lemma targetLength_plain : forall date months,
  plainYear (targetMonth date months / 12) ->
  targetLength date months
  = daysInMonth (targetMonth date months / 12) (targetMonth date months mod 12).
Proof.
  intros date months H. unfold targetLength. rewrite (MakeFullYear_plain _ H). reflexivity.
Qed.

Lemma instant_difference : forall a b,
  TimeWithinDay (LocalTime tz a) = TimeWithinDay (LocalTime tz b) ->
  b - a = (localDay tz b - localDay tz a) * msPerDay.
Proof.
  intros a b H.
  rewrite (instant_of_parts tz a) at 1. rewrite (instant_of_parts tz b) at 1.
  rewrite H. unfold UTC, MakeDate. cbn [offsetAt offsetOfLocal fixed] in *. ring.
Qed.

Lemma subMonths_distance : forall date months,
  plainYear (getFullYear tz date) ->
  plainYear ((monthNumber tz date - months) / 12) ->
  0 <= months ->
  exists days,
    date - subMonths tz date months = days * msPerDay
    /\ 28 * months <= days <= 31 * months.
Proof.
  intros date months HY HT Hm.
  destruct (subMonths_parts date months) as [Hday Htime].
  exists (localDay tz date - localDay tz (subMonths tz date months)).
  split; [apply instant_difference; exact Htime|].
  rewrite Hday. rewrite targetLength_plain; rewrite (targetMonth_plain date months HY);
    [|exact HT].
  destruct (monthNumber_parts date) as [E [Hd _]]. rewrite E.
  set (k := monthNumber tz date) in *. set (D := getDate tz date) in *.
  destruct (Z.eq_dec months 0) as [-> | Hne].
  - replace (k - 0) with k by lia. lia.
  - pose proof (monthStart_gap (Z.to_nat (months - 1)) (k - months + 1)) as Hgap.
    rewrite Z2Nat.id in Hgap by lia.
    replace (k - months + 1 + (months - 1)) with k in Hgap by lia.
    pose proof (monthStart_step (k - months)) as Hs.
    pose proof (daysInMonth_bounds ((k - months) / 12) ((k - months) mod 12)) as Hb.
    pose proof (daysInMonth_bounds (k / 12) (k mod 12)) as Hb'.
    lia.
Qed.

Lemma subMonths_zero : forall date,
  plainYear (getFullYear tz date) -> subMonths tz date 0 = date.
Proof.
  intros date HY.
  assert (HT : plainYear ((monthNumber tz date - 0) / 12)).
  { rewrite Z.sub_0_r. destruct (monthNumber_parts date) as [_ [_ [-> _]]]. exact HY. }
  destruct (subMonths_distance date 0 HY HT ltac:(lia)) as [days [E H]].
  assert (days = 0) by lia. subst days. lia.
Qed.

(** Whatever the year, more months back is an earlier instant. *)
Lemma subMonths_decreasing : forall date m1 m2,
  m1 < m2 -> subMonths tz date m2 < subMonths tz date m1.
Proof.
  intros date m1 m2 H.
  destruct (subMonths_parts date m1) as [Hd1 Ht1].
  destruct (subMonths_parts date m2) as [Hd2 Ht2].
  pose proof (instant_difference (subMonths tz date m2) (subMonths tz date m1)
                ltac:(congruence)) as E.
  rewrite Hd1, Hd2 in E.
  assert (Hk : targetMonth date m2 + 1 <= targetMonth date m1)
    by (unfold targetMonth; lia).
  pose proof (monthStart_le _ _ Hk) as Hle.
  pose proof (monthStart_step (targetMonth date m2)) as Hs.
  pose proof (daysInMonth_bounds (targetMonth date m2 / 12) (targetMonth date m2 mod 12))
    as Hb.
  assert (Hb1 : 28 <= targetLength date m1 <= 31) by apply daysInMonth_bounds.
  assert (Hb2 : 28 <= targetLength date m2 <= 31) by apply daysInMonth_bounds.
  destruct (monthNumber_parts date) as [_ [HD _]].
  unfold msPerDay in E. lia.
Qed.

End LocalZone.

(** X14.  In a zone of fixed offset, [subMonths] by more months gives a
    strictly earlier instant, so that the starts of the 12-, 6-, 3- and
    1-month windows of the route come in this order.  For a date whose
    year lies outside 0..99, [subMonths] by zero months gives the date
    itself and the start of the 1-month window lies before it; and when
    the year of the month aimed at lies outside 0..99 as well, going
    back [months >= 0] months moves the instant back by a whole number
    of days, between 28 and 31 per month. *)
Theorem subMonths_orders_the_windows : forall (tz : Z) date,
  (forall m1 m2, m1 < m2 -> subMonths tz date m2 < subMonths tz date m1)
  /\ (subMonths tz date 12 < subMonths tz date 6
      /\ subMonths tz date 6 < subMonths tz date 3
      /\ subMonths tz date 3 < subMonths tz date 1)
  /\ (plainYear (getFullYear tz date) ->
      subMonths tz date 0 = date
      /\ subMonths tz date 1 < date
      /\ forall months,
           0 <= months ->
           plainYear ((monthNumber tz date - months) / 12) ->
           exists days,
             date - subMonths tz date months = days * msPerDay
             /\ 28 * months <= days <= 31 * months)
  /\ subMonths 0 (newDate 0 2024 2 31 9 30 0 0) 1 = newDate 0 2024 1 29 9 30 0 0.
Proof.
  intros tz date.
  split; [intros m1 m2; apply subMonths_decreasing|].
  split; [repeat split; apply subMonths_decreasing; lia|].
  split; [|vm_compute; reflexivity].
  intros HY. split; [apply subMonths_zero, HY|]. split.
  - rewrite <- (subMonths_zero tz date HY) at 2. apply subMonths_decreasing. lia.
  - intros months Hm HT. apply subMonths_distance; assumption.
Qed.

(** *** The rows of a window have their buckets *)


Lemma mondayOf_mono : forall a b, a <= b -> mondayOf a <= mondayOf b.
Proof.
  intros a b H. destruct (mondayOf_spec a) as [_ [Ha _]].
  apply mondayOf_same_week. lia.
Qed.

Lemma monthKey_In : forall (tz : Z) start end_ d,
  In (monthKey tz d) (List.map monthKeyAt (monthRange tz start end_))
  <-> monthNumber tz start <= monthNumber tz d <= monthNumber tz end_.
Proof.
  intros tz start end_ d. rewrite monthKey_at, in_map_iff. unfold monthRange. split.
  - intros [k [Hk Hin]]. apply monthKeyAt_inj in Hk. subst k.
    apply periodsBetween_In in Hin; [|lia]. exact (proj1 Hin).
  - intros H. exists (monthNumber tz d). split; [reflexivity|].
    apply periodsBetween_In; [lia|]. split; [exact H | apply Z.mod_1_r].
Qed.

Lemma dateKey_In : forall (tz : Z) start end_ d,
  In (dateKey tz d) (List.map dayKeyAt (dayRange tz start end_))
  <-> localDay tz start <= localDay tz d <= localDay tz end_.
Proof.
  intros tz start end_ d. rewrite dateKey_at, in_map_iff. unfold dayRange. split.
  - intros [k [Hk Hin]]. apply dayKeyAt_inj in Hk. subst k.
    apply periodsBetween_In in Hin; [|lia]. exact (proj1 Hin).
  - intros H. exists (localDay tz d). split; [reflexivity|].
    apply periodsBetween_In; [lia|]. split; [exact H | apply Z.mod_1_r].
Qed.

Lemma weekStartKey_In : forall start end_ d,
  start <= d <= end_ ->
  In (weekStartKey 0 d) (List.map dayKeyAt (weekRange 0 start end_)).
Proof.
  intros start end_ d [H1 H2]. rewrite weekStartKey_at. apply in_map.
  unfold weekRange. apply periodsBetween_In; [lia|].
  apply (localDay_mono 0) in H1. apply (localDay_mono 0) in H2.
  pose proof (mondayOf_mono _ _ H1) as Hm.
  destruct (mondayOf_spec (localDay 0 d)) as [_ [Hd _]].
  destruct (mondayOf_spec (localDay 0 start)) as [_ [Hs _]].
  split; [lia|].
  apply (mondayOf_same_week (localDay 0 start) (localDay 0 d)). lia.
Qed.

(** X17.  In a zone of fixed offset and for a start and an end whose
    years lie outside 0..99, the month and day keys that the route
    seeds its buckets with are those of the instants whose local month,
    or local day, lies from the one of the start to the one of the end:
    every instant of the window from start to end has its month key and
    its day key among them (and so has an instant after the end that is
    still in the month, or on the day, of the end).  With local time
    equal to UTC and four-digit years, every instant of the window has
    its week key among the week keys. *)
Theorem window_instants_have_buckets :
  (forall (tz : Z) start end_,
     plainYear (getFullYear tz start) -> plainYear (getFullYear tz end_) ->
     exists monthKeys dayKeys,
       settles (fun fuel => generateMonthRangeInclusive tz fuel start end_) monthKeys
       /\ settles (fun fuel => generateDateRangeInclusive tz fuel start end_) dayKeys
       /\ (forall d, In (monthKey tz d) monthKeys
                     <-> monthNumber tz start <= monthNumber tz d <= monthNumber tz end_)
       /\ (forall d, In (dateKey tz d) dayKeys
                     <-> localDay tz start <= localDay tz d <= localDay tz end_)
       /\ (forall d, start <= d <= end_ ->
                     In (monthKey tz d) monthKeys /\ In (dateKey tz d) dayKeys))
  /\ (forall start end_,
        1000 <= YearFromDay (mondayOf (localDay 0 start)) <= 9999 ->
        plainYear (getFullYear 0 end_) ->
        exists weekKeys,
          settles (fun fuel => generateWeekRangeInclusive 0 fuel start end_) weekKeys
          /\ (forall d, start <= d <= end_ -> In (weekStartKey 0 d) weekKeys)).
Proof.
  split.
  - intros tz start end_ Hys Hye.
    exists (List.map monthKeyAt (monthRange tz start end_)),
           (List.map dayKeyAt (dayRange tz start end_)).
    split; [apply months_settled; assumption|].
    split; [apply days_settled; assumption|].
    split; [intros d; apply monthKey_In|]. split; [intros d; apply dateKey_In|].
    intros d [H1 H2]. split.
    + apply monthKey_In. split; apply monthNumber_mono; assumption.
    + apply dateKey_In. split; apply localDay_mono; assumption.
  - intros start end_ Hy Hye.
    exists (List.map dayKeyAt (weekRange 0 start end_)).
    split; [apply weeks_settled; assumption|].
    intros d Hd. apply weekStartKey_In, Hd.
Qed.

(** *** Repeated transaction ids *)

Inductive subsequence {A : Type} : list A -> list A -> Prop :=
| sub_nil : subsequence [] []
| sub_keep : forall x l1 l2, subsequence l1 l2 -> subsequence (x :: l1) (x :: l2)
| sub_drop : forall x l1 l2, subsequence l1 l2 -> subsequence l1 (x :: l2).

Definition idOf (r : Row) : Z := transaction_id r.

(** The rows kept and the ids dropped after the ids of [seen]. *)
Fixpoint keptAfter (seen : list Z) (l : list Row) : list Row :=
  match l with
  | [] => []
  | r :: rest =>
      if existsb (Z.eqb (idOf r)) seen then keptAfter seen rest
      else r :: keptAfter (seen ++ [idOf r]) rest
  end.

Fixpoint droppedAfter (seen : list Z) (l : list Row) : list Z :=
  match l with
  | [] => []
  | r :: rest =>
      if existsb (Z.eqb (idOf r)) seen then idOf r :: droppedAfter seen rest
      else droppedAfter (seen ++ [idOf r]) rest
  end.

Lemma fold_dedupStep : forall l seen dups rows,
  fold_left dedupStep l (seen, dups, rows)
  = (seen ++ List.map idOf (keptAfter seen l),
     dups ++ droppedAfter seen l,
     rows ++ keptAfter seen l).
Proof.
  induction l as [|r rest IH]; intros seen dups rows.
  - simpl. rewrite !app_nil_r. reflexivity.
  - cbn [fold_left dedupStep keptAfter droppedAfter]. fold (idOf r).
    destruct (existsb (Z.eqb (idOf r)) seen) eqn:E.
    + rewrite IH. rewrite <- app_assoc. reflexivity.
    + rewrite IH. cbn [List.map]. rewrite <- !app_assoc. reflexivity.
Qed.

Lemma existsb_Zeqb : forall x l, existsb (Z.eqb x) l = true <-> In x l.
Proof.
  intros x l. rewrite existsb_exists. split.
  - intros [y [Hy E]]. apply Z.eqb_eq in E. subst. exact Hy.
  - intros H. exists x. split; [exact H | apply Z.eqb_refl].
Qed.

Lemma existsb_Zeqb_false : forall x l, existsb (Z.eqb x) l = false <-> ~ In x l.
Proof.
  intros x l. rewrite <- existsb_Zeqb. destruct (existsb (Z.eqb x) l); split; congruence.
Qed.

Lemma keptAfter_ids : forall l seen x,
  In x (List.map idOf (keptAfter seen l)) <-> In x (List.map idOf l) /\ ~ In x seen.
Proof.
  induction l as [|r rest IH]; intros seen x.
  - simpl. tauto.
  - cbn [keptAfter List.map]. destruct (existsb (Z.eqb (idOf r)) seen) eqn:E.
    + apply existsb_Zeqb in E. rewrite IH. simpl. split.
      * tauto.
      * intros [[H | H] Hn]; [subst; contradiction | tauto].
    + apply existsb_Zeqb_false in E. cbn [List.map]. simpl. rewrite IH, in_app_iff.
      simpl. split.
      * intros [H | [H Hn]]; [subst; tauto | tauto].
      * intros [[H | H] Hn]; [tauto|].
        destruct (Z.eq_dec (idOf r) x) as [|Hne]; [tauto|]. right. tauto.
Qed.

Lemma keptAfter_NoDup : forall l seen, NoDup (List.map idOf (keptAfter seen l)).
Proof.
  induction l as [|r rest IH]; intros seen.
  - constructor.
  - cbn [keptAfter]. destruct (existsb (Z.eqb (idOf r)) seen) eqn:E; [apply IH|].
    cbn [List.map]. constructor; [|apply IH].
    rewrite keptAfter_ids, in_app_iff. simpl. tauto.
Qed.

Lemma keptAfter_subsequence : forall l seen, subsequence (keptAfter seen l) l.
Proof.
  induction l as [|r rest IH]; intros seen.
  - constructor.
  - cbn [keptAfter]. destruct (existsb (Z.eqb (idOf r)) seen); constructor; apply IH.
Qed.

Lemma keptAfter_first : forall l seen r,
  In r (keptAfter seen l) ->
  find (fun r' => idOf r' =? idOf r) l = Some r.
Proof.
  induction l as [|r0 rest IH]; intros seen r H.
  - contradiction.
  - cbn [keptAfter] in H. cbn [find].
    destruct (existsb (Z.eqb (idOf r0)) seen) eqn:E.
    + apply existsb_Zeqb in E.
      destruct (idOf r0 =? idOf r) eqn:E0.
      * apply Z.eqb_eq in E0. exfalso.
        assert (Hin : In (idOf r) (List.map idOf (keptAfter seen rest)))
          by (apply in_map, H).
        apply keptAfter_ids in Hin. rewrite <- E0 in Hin. tauto.
      * apply (IH seen), H.
    + destruct H as [-> | H]; [rewrite Z.eqb_refl; reflexivity|].
      destruct (idOf r0 =? idOf r) eqn:E0.
      * apply Z.eqb_eq in E0. exfalso.
        assert (Hin : In (idOf r) (List.map idOf (keptAfter (seen ++ [idOf r0]) rest)))
          by (apply in_map, H).
        apply keptAfter_ids in Hin. rewrite in_app_iff in Hin. simpl in Hin. tauto.
      * apply (IH _ _ H).
Qed.

Lemma kept_and_dropped : forall l seen,
  Permutation (List.map idOf l)
    (List.map idOf (keptAfter seen l) ++ droppedAfter seen l)
  /\ (forall x, In x (droppedAfter seen l) ->
        In x seen \/ In x (List.map idOf (keptAfter seen l))).
Proof.
  induction l as [|r rest IH]; intros seen.
  - simpl. split; [constructor | tauto].
  - cbn [keptAfter droppedAfter List.map].
    destruct (existsb (Z.eqb (idOf r)) seen) eqn:E.
    + destruct (IH seen) as [P Hd]. split.
      * apply Permutation_cons_app. exact P.
      * intros x [<- | H]; [left; apply existsb_Zeqb, E | apply Hd, H].
    + destruct (IH (seen ++ [idOf r])) as [P Hd]. split.
      * cbn [List.map app]. constructor. exact P.
      * intros x H. apply Hd in H. rewrite in_app_iff in H. simpl in H.
        cbn [List.map]. simpl. tauto.
Qed.

Lemma keptAfter_all : forall l seen,
  NoDup (List.map idOf l) -> (forall x, In x seen -> ~ In x (List.map idOf l)) ->
  keptAfter seen l = l /\ droppedAfter seen l = [].
Proof.
  induction l as [|r rest IH]; intros seen Hn Hs.
  - split; reflexivity.
  - cbn [keptAfter droppedAfter]. cbn [List.map] in Hn, Hs. inversion Hn as [|? ? Hr Hrest]. subst.
    destruct (existsb (Z.eqb (idOf r)) seen) eqn:E.
    + apply existsb_Zeqb in E. exfalso. apply (Hs _ E). left. reflexivity.
    + destruct (IH (seen ++ [idOf r]) Hrest) as [-> ->]; [|split; reflexivity].
      intros x Hx. apply in_app_iff in Hx. destruct Hx as [Hx | [<- | []]].
      * intros Hin. apply (Hs _ Hx). right. exact Hin.
      * exact Hr.
Qed.

Lemma dropped_nil_NoDup : forall l seen,
  droppedAfter seen l = [] -> NoDup (List.map idOf l).
Proof.
  induction l as [|r rest IH]; intros seen H.
  - constructor.
  - cbn [droppedAfter] in H. destruct (existsb (Z.eqb (idOf r)) seen) eqn:E; [discriminate|].
    cbn [List.map]. constructor; [|apply (IH _ H)].
    intros Hin.
    destruct (kept_and_dropped rest (seen ++ [idOf r])) as [P _].
    rewrite H, app_nil_r in P.
    apply (Permutation_in _ P) in Hin. apply keptAfter_ids in Hin.
    rewrite in_app_iff in Hin. simpl in Hin. tauto.
Qed.

(** X15.  The loop that drops repeated transaction ids keeps, of the
    rows fetched, exactly the first row of every id, in the order
    fetched: the ids kept are distinct and are the ids fetched; every
    id reported as a duplicate is the id of a kept row, and together
    with the kept ids the reported ids are the ids fetched, so the
    numbers of kept rows and of reported ids add up to the number of
    rows fetched.  Nothing is reported exactly when the ids fetched are
    distinct, and then all rows are kept. *)
Theorem deduplication_keeps_first_rows : forall rawRows,
  match deduplicate rawRows with
  | (seenIds, duplicateIds, rows) =>
      seenIds = List.map transaction_id rows
      /\ NoDup seenIds
      /\ (forall id, In id seenIds <-> In id (List.map transaction_id rawRows))
      /\ subsequence rows rawRows
      /\ (forall r, In r rows ->
            find (fun r' => transaction_id r' =? transaction_id r) rawRows = Some r)
      /\ (forall id, In id duplicateIds -> In id seenIds)
      /\ Permutation (List.map transaction_id rawRows) (seenIds ++ duplicateIds)
      /\ (List.length rows + List.length duplicateIds = List.length rawRows)%nat
      /\ (duplicateIds = [] <-> NoDup (List.map transaction_id rawRows))
      /\ (NoDup (List.map transaction_id rawRows) -> rows = rawRows)
  end.
Proof.
  intros rawRows. unfold deduplicate. rewrite fold_dedupStep. cbn [app].
  destruct (kept_and_dropped rawRows []) as [P Hd].
  split; [reflexivity|]. split; [apply keptAfter_NoDup|].
  split. { intros id. change transaction_id with idOf. rewrite keptAfter_ids. simpl. tauto. }
  split; [apply keptAfter_subsequence|].
  split. { intros r. apply keptAfter_first. }
  split. { intros id H. apply Hd in H. simpl in H. tauto. }
  split; [exact P|].
  split.
  { apply Permutation_length in P. rewrite length_app, !length_map in P. lia. }
  split.
  - split; [apply dropped_nil_NoDup|].
    intros H. apply (keptAfter_all rawRows [] H). intros x [].
  - intros H. apply (keptAfter_all rawRows [] H). intros x [].
Qed.

(** *** The totals of the trailing windows *)

Definition inWindow (start now : Z) (r : Row) : bool :=
  (start <=? delivery_date r) && (delivery_date r <=? now).










End NetMarginRouteFacts.


(** ** The periods of the dashboard summary *)

Module DashboardPeriodFacts.

Import JsDate CalendarFacts MonthFacts DateFacts NetMarginFacts RangeEnumeration
  NetMarginRouteFacts DashboardPeriods.









End DashboardPeriodFacts.

(** ** The series of the net-margin route *)

Module NetMarginSeriesFacts.

Import JsDate CalendarFacts MonthFacts RenderFacts DateFacts NetMargin NetMarginFacts
  TimeBucketing RangeEnumeration NetMarginRoute NetMarginRouteFacts.


Definition sales (r : Row) : number := toNumber (sales_altona r).








Section OneBucketObject.

Variable keyOf : Row -> jsstring.
Variable guard : Row -> bool.
Variable amount : Row -> number.






End OneBucketObject.













(** *** How many points a series has *)






End NetMarginSeriesFacts.
